(** * deeplink: mirroring a directory tree with links

    A shallow embedding of [src/deeplink/deeplink.py] and the properties
    that its specification states about it.

    Layout of the development:
    - [Py]      : the Python values the program manipulates (exceptions,
                  results, [pathlib.PurePosixPath] as a list of parts);
    - [Arith]   : the two path functions [remove_front_dir] and
                  [relative_path];
    - [Lines]   : [file_as_list], the reader of pattern files;
    - [Posix]   : the file system the program runs on (the part of POSIX
                  that [pathlib], [os] and [shutil] expose to it);
    - [Deeplink]: the executors and the tree walker [create_links], then
                  [main];
    - the theorems, one group per claim of the specification;
    - further properties of the code: what the path functions and the
      executors do at their edges, and how a dry run relates to the run
      it previews. *)

From Stdlib Require Import String Ascii List Bool Arith Lia.
From stdpp Require Import base option list strings gmap.

Import ListNotations.
Local Open Scope string_scope.
Local Open Scope list_scope.

(* ===================================================================== *)
(** * Python values *)
(* ===================================================================== *)

Module Py.

(** The exceptions that can leave a function of the program.  The two
    [...ReplacementError] classes are the program's own; the payload is the
    argument given to the constructor (always [path.as_posix()]). *)
Inductive exn : Type :=
| IndexError
| OSError
| re_error
| RecursionError
| FileReplacementError (arg : string)
| DirectoryReplacementError (arg : string).

(** Outcome of a call: a returned value or a raised exception. *)
Inductive result (A : Type) : Type :=
| Return (a : A)
| Raise (e : exn).
Arguments Return {A} a.
Arguments Raise {A} e.

Definition exn_eqb (e1 e2 : exn) : bool :=
  match e1, e2 with
  | IndexError, IndexError => true
  | OSError, OSError => true
  | re_error, re_error => true
  | RecursionError, RecursionError => true
  | FileReplacementError a, FileReplacementError b => String.eqb a b
  | DirectoryReplacementError a, DirectoryReplacementError b => String.eqb a b
  | _, _ => false
  end.

(** The program's [ConflictError]s, as opposed to failures of the
    interpreter or of the operating system. *)
Definition is_conflict (e : exn) : bool :=
  match e with
  | FileReplacementError _ | DirectoryReplacementError _ => true
  | _ => false
  end.

(** ** [str.split('/')] and ['/'.join] *)

Definition sep : ascii := "/"%char.

Fixpoint split_sep (s : string) : list string :=
  match s with
  | EmptyString => [EmptyString]
  | String c s' =>
      if Ascii.eqb c sep then EmptyString :: split_sep s'
      else match split_sep s' with
           | x :: r => String c x :: r
           | [] => [String c EmptyString]
           end
  end.

Definition join_sep (l : list string) : string := String.concat "/" l.

(** [s.lstrip('/')] *)
Fixpoint lstrip_sep (s : string) : string :=
  match s with
  | String c s' => if Ascii.eqb c sep then lstrip_sep s' else s
  | EmptyString => s
  end.

(** ** [pathlib.PosixPath]

    A path object is the tuple [parts] that [pathlib] computes when the
    object is built.  A root, when there is one, is the first part: ["/"],
    or ["//"] when the string starts with exactly two slashes.  The other
    parts are the segments between slashes, without the empty ones and
    without ["."].  [PosixPath(".")] and [PosixPath("")] have no parts. *)
Definition Path : Type := list string.

Definition keep_part (x : string) : bool :=
  negb (String.eqb x "") && negb (String.eqb x ".").

Definition splitroot (s : string) : list string :=
  match s with
  | String c _ =>
      if Ascii.eqb c sep then
        if Nat.eqb (String.length s - String.length (lstrip_sep s)) 2
        then ["//"] else ["/"]
      else []
  | EmptyString => []
  end.

Definition PosixPath (s : string) : Path :=
  splitroot s ++ List.filter keep_part (split_sep s).

Definition is_root (x : string) : bool := String.eqb x "/" || String.eqb x "//".

(** [p.is_absolute()] *)
Definition is_absolute (p : Path) : bool :=
  match p with
  | r :: _ => is_root r
  | [] => false
  end.

(** [a / b] *)
Definition joinpath (a b : Path) : Path := if is_absolute b then b else a ++ b.

(** [p.parent] *)
Definition parent (p : Path) : Path :=
  match p with
  | [r] => if is_root r then p else []
  | _ => removelast p
  end.

(** [p.as_posix()], which for a POSIX path is [str(p)]. *)
Definition as_posix (p : Path) : string :=
  match p with
  | [] => "."
  | r :: segs => if is_root r then r +:+ join_sep segs else join_sep p
  end.

(** [p == q] on paths of one flavour compares the parts. *)
Definition path_eqb (p q : Path) : bool := bool_decide (p = q).

(** The parts a [PosixPath] can have: segments are not empty, are not ["."]
    and hold no slash; only the first part may be a root. *)
Fixpoint has_sep (s : string) : bool :=
  match s with
  | EmptyString => false
  | String c s' => Ascii.eqb c sep || has_sep s'
  end.

Definition wf_seg (x : string) : bool := keep_part x && negb (has_sep x).

Definition wf_path (p : Path) : bool :=
  match p with
  | [] => true
  | r :: segs => (is_root r || wf_seg r) && forallb wf_seg segs
  end.

End Py.

Import Py.

(* ===================================================================== *)
(** * Path arithmetic *)
(* ===================================================================== *)

Module Arith.

(** The loop shared by both functions:
    [while len(a) > 0 and len(b) > 0 and a[0] == b[0]: del a[0], b[0]]. *)
Fixpoint strip_common (a b : list string) : list string * list string :=
  match a, b with
  | x :: a', y :: b' => if String.eqb x y then strip_common a' b' else (a, b)
  | _, _ => (a, b)
  end.

(** [remove_front_dir(head_path, item)].  [result[0]] raises [IndexError]
    on the empty list. *)
Definition remove_front_dir (head_path item : Path) : result Path :=
  let '(_, result) := strip_common head_path item in
  match result with
  | [] => Raise IndexError
  | r0 :: _ =>
      if String.eqb r0 "/" then Return (PosixPath ("/" +:+ join_sep result))
      else Return (PosixPath (join_sep result))
  end.

(** [p.absolute()]: the working directory is put in front of a relative
    path, nothing is normalised.  [cwd] is [PosixPath(os.getcwd())]. *)
Definition absolute (cwd p : Path) : Path :=
  if is_absolute p then p else cwd ++ p.

(** [relative_path(src, dest)].  [dest.parts[0]] raises [IndexError] when
    [dest] has no parts. *)
Definition relative_path (cwd src dest : Path) : result Path :=
  let slist := absolute cwd src in
  let dlist := absolute cwd dest in
  match dest with
  | [] => Raise IndexError
  | d0 :: _ =>
      if String.eqb d0 "/" then Return dest
      else
        let '(slist, dlist) := strip_common slist dlist in
        let result := PosixPath (join_sep (repeat ".." (length slist))) in
        Return (joinpath result (PosixPath (join_sep dlist)))
  end.

End Arith.

Import Arith.

(* ===================================================================== *)
(** * Pattern files *)
(* ===================================================================== *)

Module Lines.

(** The text of a file is a [string]: the characters of the decoded file,
    each a code point below 256. *)

Definition newline : ascii := "010"%char.

Definition carriage_return : ascii := "013"%char.

(** What a file opened with [open(filename, "r")] hands out of its
    decoded text: with the default [newline=None] every ["\r\n"] and
    every other ["\r"] is read as ["\n"]. *)
Fixpoint translate (text : string) : string :=
  match text with
  | EmptyString => EmptyString
  | String c s' =>
      if Ascii.eqb c carriage_return then
        match s' with
        | String c' s'' =>
            if Ascii.eqb c' newline then String newline (translate s'')
            else String newline (translate s')
        | EmptyString => String newline EmptyString
        end
      else String c (translate s')
  end.

(** A text cut after every ["\n"]: every line with its terminator, the
    last one possibly without. *)
Fixpoint split_lines (text : string) : list string :=
  match text with
  | EmptyString => []
  | String c s' =>
      if Ascii.eqb c newline then String c EmptyString :: split_lines s'
      else match split_lines s' with
           | [] => [String c EmptyString]
           | l :: r => String c l :: r
           end
  end.

(** The values that successive [fn.readline()] calls return before the end
    of the file, for a file with the decoded text [content]: the lines of
    the translated text.  [readline] cuts at ["\n"] only. *)
Definition readlines (content : string) : list string :=
  split_lines (translate content).

(** [line.rstrip('\n')] *)
Fixpoint rstrip_newline (s : string) : string :=
  match s with
  | EmptyString => EmptyString
  | String c s' =>
      match rstrip_newline s' with
      | EmptyString => if Ascii.eqb c newline then EmptyString else String c EmptyString
      | t => String c t
      end
  end.

(** [re.compile(r"^#.*$").match(line)] on a line without ["\n"]. *)
Definition re_comment_match (line : string) : bool :=
  match line with
  | String c _ => Ascii.eqb c "#"%char
  | EmptyString => false
  end.

(** The characters of the class [\s] of a [str] pattern among the code
    points below 256: U+0009 to U+000D, U+001C to U+0020, U+0085 and
    U+00A0. *)
Definition is_space (c : ascii) : bool :=
  let n := nat_of_ascii c in
  (Nat.leb 9 n && Nat.leb n 13) || (Nat.leb 28 n && Nat.leb n 32)
  || Nat.eqb n 133 || Nat.eqb n 160.

(** [re.compile(r"^\s*$").match(line)] on a line without ["\n"]. *)
Fixpoint re_empty_match (line : string) : bool :=
  match line with
  | EmptyString => true
  | String c s' => is_space c && re_empty_match s'
  end.

(** The loop of [file_as_list]: [line] is the line just read and stripped,
    [pending] what [readline] has still to return (at the end of the file
    it returns the empty string, which ends the loop). *)
Fixpoint while_line (pending : list string) (line : string) (result : list string)
  : list string :=
  match line with
  | EmptyString => result
  | _ =>
      let result :=
        if negb (re_comment_match line) && negb (re_empty_match line)
        then result ++ [line] else result in
      match pending with
      | [] => result
      | l :: pending' => while_line pending' (rstrip_newline l) result
      end
  end.

(** [file_as_list(filename)] for a readable file with the given content. *)
Definition file_as_list (content : string) : list string :=
  match readlines content with
  | [] => []
  | l :: pending => while_line pending (rstrip_newline l) []
  end.

End Lines.

Import Lines.

Definition nl : string := String newline EmptyString.

(** The line ending ["\r\n"]. *)
Definition crlf : string := String carriage_return nl.

(* ===================================================================== *)
(** * The file system *)
(* ===================================================================== *)

(** The program reaches the file system through [pathlib], [os] and
    [shutil] only.  This module gives those calls a meaning on a small
    model of a POSIX file system: a table from locations to nodes, with
    symbolic links, a working directory and path resolution as in
    path_resolution(7).  Permissions, devices and link counts are left
    out: nothing in the program asks for them. *)

Module Posix.

Inductive node : Type :=
| File (data : string)
| Dir
| Symlink (target : Path).

(** A location is the list of names from the root directory down to an
    entry; the root directory itself is [[]]. *)
Definition loc : Type := list string.

(** The order of [nodes] is the order in which a directory lists its
    entries.  A regular file can have several names (hard links): each
    group of [links] holds the locations that name one and the same
    file; a location that is in no group is the only name of its file. *)
Record FS : Type := mkFS {
  cwd : loc;
  nodes : list (loc * node);
  links : list (list loc)
}.

Fixpoint assoc (l : loc) (ns : list (loc * node)) : option node :=
  match ns with
  | [] => None
  | (k, n) :: r => if bool_decide (k = l) then Some n else assoc l r
  end.

Definition node_at (fs : FS) (l : loc) : option node :=
  match l with
  | [] => Some Dir
  | _ => assoc l (nodes fs)
  end.

(** A new entry is listed last; an existing one keeps its place. *)
Fixpoint put (l : loc) (n : node) (ns : list (loc * node)) : list (loc * node) :=
  match ns with
  | [] => [(l, n)]
  | (k, m) :: r => if bool_decide (k = l) then (l, n) :: r else (k, m) :: put l n r
  end.

Definition write (fs : FS) (l : loc) (n : node) : FS :=
  mkFS (cwd fs) (put l n (nodes fs)) (links fs).

(** The names of the file at [l] when it has several: the groups that
    [l] is in; empty when [l] is the only name of its file. *)
Definition other_names (fs : FS) (l : loc) : list loc :=
  concat (List.filter (fun group => bool_decide (l ∈ group)) (links fs)).

(** [os.path.samefile] on two locations: one name, or two names of one
    file. *)
Definition same_file (fs : FS) (l1 l2 : loc) : bool :=
  bool_decide (l1 = l2) || bool_decide (l2 ∈ other_names fs l1).

(** New data for the regular file that has the name [l]. *)
Definition rewrite_at (data : string) (fs : FS) (l : loc) : FS :=
  match node_at fs l with
  | Some (File _) => write fs l (File data)
  | _ => fs
  end.

(** The most symbolic links followed in one resolution (ELOOP beyond). *)
Definition MAXSYMLINKS : nat := 40.

Definition is_nil {A} (l : list A) : bool :=
  match l with [] => true | _ => false end.

(** Resolution of the parts [todo] from the directory [cur].  The result
    is the location the path names; its last component need not exist,
    every other one must be a directory.  [follow] tells whether a
    symbolic link in last position is followed ([stat]) or not
    ([lstat]). *)
Fixpoint namei (fs : FS) (links : nat) : bool -> loc -> list string -> option loc :=
  fix go (follow : bool) (cur : loc) (todo : list string) {struct todo} : option loc :=
    match todo with
    | [] => Some cur
    | seg :: rest =>
        if is_root seg then go follow [] rest
        else if String.eqb seg ".." then go follow (removelast cur) rest
        else
          let l := cur ++ [seg] in
          match node_at fs l with
          | Some (Symlink t) =>
              if follow || negb (is_nil rest) then
                match links with
                | 0 => None
                | S links' => namei fs links' follow cur (t ++ rest)
                end
              else Some l
          | Some Dir => go follow l rest
          | Some (File _) | None => if is_nil rest then Some l else None
          end
    end.

Definition resolve (fs : FS) (follow : bool) (p : Path) : option loc :=
  namei fs MAXSYMLINKS follow (cwd fs) p.

(** [os.stat] and [os.lstat], reduced to the kind of node found. *)
Definition stat (fs : FS) (p : Path) : option node :=
  l ← resolve fs true p; node_at fs l.

Definition lstat (fs : FS) (p : Path) : option node :=
  l ← resolve fs false p; node_at fs l.

(** [Path.exists], [Path.is_dir], [Path.is_file] follow symbolic links;
    [Path.is_symlink] does not.  All four answer [False] when the path
    cannot be resolved. *)
Definition path_exists (fs : FS) (p : Path) : bool :=
  match stat fs p with Some _ => true | None => false end.

Definition is_dir (fs : FS) (p : Path) : bool :=
  match stat fs p with Some Dir => true | _ => false end.

Definition is_file (fs : FS) (p : Path) : bool :=
  match stat fs p with Some (File _) => true | _ => false end.

Definition is_symlink (fs : FS) (p : Path) : bool :=
  match lstat fs p with Some (Symlink _) => true | _ => false end.

(** [k] is the entry [n] of the directory at [d]. *)
Fixpoint child_name (d k : loc) : option string :=
  match d, k with
  | [], [n] => Some n
  | x :: d', y :: k' => if String.eqb x y then child_name d' k' else None
  | _, _ => None
  end.

(** [os.listdir(p)]; [None] stands for the [OSError] raised when [p] is
    not a directory. *)
Definition listdir (fs : FS) (p : Path) : option (list string) :=
  match resolve fs true p with
  | Some l =>
      match node_at fs l with
      | Some Dir => Some (omap (fun kn => child_name l (fst kn)) (nodes fs))
      | _ => None
      end
  | None => None
  end.

(** [list(p.iterdir())]: the entries of the directory, each joined to [p]. *)
Definition iterdir (fs : FS) (p : Path) : option (list Path) :=
  names ← listdir fs p; Some (map (fun n => p ++ [n]) names).

(** The system calls that change the file system.  [None] stands for the
    [OSError] the call raises; the file system is then unchanged. *)

(** [os.mkdir(p)]: fails when the name is taken, also by a dangling
    symbolic link, or when the parent is missing. *)
Definition os_mkdir (fs : FS) (p : Path) : option FS :=
  match resolve fs false p with
  | Some l =>
      match node_at fs l with
      | None => Some (write fs l Dir)
      | Some _ => None
      end
  | None => None
  end.

(** [os.symlink(stored, p)]: [p] becomes a symbolic link holding [stored]. *)
Definition os_symlink (fs : FS) (stored p : Path) : option FS :=
  match resolve fs false p with
  | Some l =>
      match node_at fs l with
      | None => Some (write fs l (Symlink stored))
      | Some _ => None
      end
  | None => None
  end.

(** [os.link(src, dst)]: [dst] becomes one more name of the existing
    entry [src].  The new name holds the node of the old one, and it is
    recorded in one group with the old name and the names that the entry
    had already. *)
Definition os_link (fs : FS) (src dst : Path) : option FS :=
  match lstat fs src with
  | Some Dir | None => None
  | Some n =>
      match resolve fs false src, resolve fs false dst with
      | Some ls, Some l =>
          match node_at fs l with
          | None =>
              Some (mkFS (cwd fs) (put l n (nodes fs))
                      ((l :: ls :: other_names fs ls) :: links fs))
          | Some _ => None
          end
      | _, _ => None
      end
  end.

(** [shutil.copyfile(src, dst)]: both names are followed; [src] must be a
    regular file, [dst] must not be the same file ([SameFileError], also
    for two names of one file) nor a directory; [dst] is created, or the
    data of its file replaced, under every name the file has. *)
Definition shutil_copyfile (fs : FS) (src dst : Path) : option FS :=
  match resolve fs true src, resolve fs true dst with
  | Some ls, Some ld =>
      match node_at fs ls with
      | Some (File data) =>
          if same_file fs ls ld then None
          else match node_at fs ld with
               | Some (File _) | None =>
                   Some (fold_left (rewrite_at data) (other_names fs ld)
                           (write fs ld (File data)))
               | Some _ => None
               end
      | _ => None
      end
  | _, _ => None
  end.

(** [PosixPath(os.getcwd())] *)
Definition getcwd (fs : FS) : Path := "/" :: cwd fs.

End Posix.

Import Posix.

(** The tree of the test fixture, in a working directory [/w]:
    [in/{file-base, dir-a/{file-a, ignore-file-a}, dir-b/file-b}] and the
    symbolic link [in/symlink-to-dir-b], whose stored path
    [./test-data/in/dir-b] does not resolve from [in]. *)
Definition fixture : FS :=
  mkFS ["w"]
    [ (["w"], Dir);
      (["w"; "in"], Dir);
      (["w"; "in"; "file-base"], File "");
      (["w"; "in"; "dir-a"], Dir);
      (["w"; "in"; "dir-a"; "file-a"], File "");
      (["w"; "in"; "dir-a"; "ignore-file-a"], File "");
      (["w"; "in"; "dir-b"], Dir);
      (["w"; "in"; "symlink-to-dir-b"], Symlink ["test-data"; "in"; "dir-b"]);
      (["w"; "in"; "dir-b"; "file-b"], File "") ] [].

(* ===================================================================== *)
(** * The program *)
(* ===================================================================== *)

(** [argparse.Namespace] as [get_args] builds it.  [copy] and [ignore] are
    filled by [action="append", nargs=1]: a list of one-element lists. *)
Module Args.
Record Namespace : Type := mkArgs {
  source : Path;
  destination : Path;
  hard_links : bool;
  copy : list (list string);
  copy_list_file : list string;
  ignore : list (list string);
  ignore_list_file : list string;
  dry_run : bool
}.
End Args.

(** What an executor does to one target; used to compare what a dry run
    prints with what a real run does. *)
Inductive Action : Type :=
| AMkdir (path : Path)
| ALink (src target : Path)
| ACopy (src target : Path).

(** The line [DryRunExecutor] prints for an action. *)
Definition report (a : Action) : string :=
  match a with
  | AMkdir path => "mkdir " +:+ as_posix path
  | ALink src target => "link " +:+ as_posix src +:+ " " +:+ as_posix target
  | ACopy src target => "copy " +:+ as_posix src +:+ " " +:+ as_posix target
  end.

Section Deeplink.

(** The module [re] is a parameter: [re_compile] is [re.compile] ([None]
    when it raises [re.error]) and [re_match r s] tells whether
    [r.match(s)] is a match object. *)
Variable regex : Type.
Variable re_compile : string -> option regex.
Variable re_match : regex -> string -> bool.

(** The state a call can read and change: the file system, the standard
    output, and the module-level dictionary [cache].  Two history
    variables are carried along for the statements below; the program does
    not read them: [cache_log] has the key of every assignment
    [cache[key] = ...] in order, [history] every change of the file system
    that [LinkExecutor] completed. *)
Record World : Type := mkWorld {
  fs : FS;
  stdout : list string;
  cache : gmap string (list regex);
  cache_log : list string;
  history : list Action
}.

(** A statement runs in a world and returns or raises, leaving a world. *)
Definition M (A : Type) : Type := World -> result A * World.

#[global] Instance M_ret : MRet M := fun A a w => (Return a, w).
#[global] Instance M_bind : MBind M := fun A B k m w =>
  match m w with
  | (Return a, w') => k a w'
  | (Raise e, w') => (Raise e, w')
  end.

Definition raise {A} (e : exn) : M A := fun w => (Raise e, w).

Definition lift {A} (r : result A) : M A := fun w => (r, w).

(** The world after [print(line)], after a system call that left the file
    system [f'], after an executor completed [a], after [cache[key] = value]. *)
Definition printed (w : World) (line : string) : World :=
  mkWorld (fs w) (stdout w ++ [line]) (cache w) (cache_log w) (history w).

Definition with_fs (w : World) (f' : FS) : World :=
  mkWorld f' (stdout w) (cache w) (cache_log w) (history w).

Definition logged (w : World) (a : Action) : World :=
  mkWorld (fs w) (stdout w) (cache w) (cache_log w) (history w ++ [a]).

Definition assigned (w : World) (key : string) (value : list regex) : World :=
  mkWorld (fs w) (stdout w) (<[key := value]> (cache w)) (cache_log w ++ [key]) (history w).

Definition print (line : string) : M unit := fun w => (Return tt, printed w line).

Definition query {A} (f : FS -> A) : M A := fun w => (Return (f (fs w)), w).

Definition syscall (f : FS -> option FS) : M unit := fun w =>
  match f (fs w) with
  | Some f' => (Return tt, with_fs w f')
  | None => (Raise OSError, w)
  end.

Definition completed (a : Action) : M unit := fun w => (Return tt, logged w a).

Definition cache_get : M (gmap string (list regex)) := fun w => (Return (cache w), w).

(** [cache[key] = value] *)
Definition cache_set (key : string) (value : list regex) : M unit := fun w =>
  (Return tt, assigned w key value).

(** [for x in l: body(x)] *)
Fixpoint for_each {A} (l : list A) (body : A -> M unit) : M unit :=
  match l with
  | [] => mret tt
  | x :: r => body x ;; for_each r body
  end.

(** ** [pathlib] methods that change the file system *)

(** [self.mkdir()] *)
Definition Path_mkdir (self : Path) : M unit := syscall (fun f => os_mkdir f self).

(** [self.symlink_to(target)] is [os.symlink(target, self)]. *)
Definition symlink_to (self target : Path) : M unit :=
  syscall (fun f => os_symlink f target self).

(** [self.link_to(target)] is [os.link(self, target)]: it makes [target] a
    hard link to [self], the arguments in the order of [os.link] and the
    reverse of [symlink_to] (Python 3.8 to 3.11; the method is gone from
    3.12 on). *)
Definition link_to (self target : Path) : M unit :=
  syscall (fun f => os_link f self target).

(** ** The executors *)

Record Executor : Type := mkExecutor {
  mkdir : Path -> M unit;
  link : Path -> Path -> M unit;
  copy : Path -> Path -> M unit
}.

Definition DryRunExecutor_mkdir (path : Path) : M unit :=
  ex ← query (fun f => path_exists f path);
  if ex : bool then
    d ← query (fun f => is_dir f path);
    if negb d then
      print ("ERROR(mkdir) " +:+ as_posix path +:+ " exists");;
      raise (FileReplacementError (as_posix path))
    else mret tt
  else print ("mkdir " +:+ as_posix path).

Definition DryRunExecutor_link (src target : Path) : M unit :=
  ex ← query (fun f => path_exists f target);
  sl ← query (fun f => is_symlink f target);
  if ex || sl then
    print ("ERROR(link): file " +:+ as_posix target +:+ " exists.");;
    raise (FileReplacementError (as_posix target))
  else print ("link " +:+ as_posix src +:+ " " +:+ as_posix target).

Definition DryRunExecutor_copy (src target : Path) : M unit :=
  ex ← query (fun f => path_exists f target);
  d ← query (fun f => is_dir f target);
  if ex && d then
    print ("ERROR(copy): diretory " +:+ as_posix target +:+ " exists.");;
    raise (DirectoryReplacementError (as_posix target))
  else print ("copy " +:+ as_posix src +:+ " " +:+ as_posix target).

Definition DryRunExecutor : Executor :=
  mkExecutor DryRunExecutor_mkdir DryRunExecutor_link DryRunExecutor_copy.

Definition LinkExecutor_mkdir (path : Path) : M unit :=
  ex ← query (fun f => path_exists f path);
  if ex : bool then
    d ← query (fun f => is_dir f path);
    if negb d then
      print ("ERROR(mkdir) " +:+ as_posix path +:+ " exists");;
      raise (FileReplacementError (as_posix path))
    else mret tt
  else Path_mkdir path;; completed (AMkdir path).

Definition LinkExecutor_link (hard : bool) (src target : Path) : M unit :=
  ex ← query (fun f => path_exists f target);
  sl ← query (fun f => is_symlink f target);
  if ex || sl then
    print ("ERROR(link): file " +:+ as_posix target +:+ " exists.");;
    raise (FileReplacementError (as_posix target))
  else
    here ← query getcwd;
    src' ← lift (relative_path here (parent target) src);
    (if hard then link_to target src' else symlink_to target src');;
    completed (ALink src target).

Definition LinkExecutor_copy (src target : Path) : M unit :=
  ex ← query (fun f => path_exists f target);
  d ← query (fun f => is_dir f target);
  if ex && d then
    print ("ERROR(copy): diretory " +:+ as_posix target +:+ " exists.");;
    raise (DirectoryReplacementError (as_posix target))
  else
    syscall (fun f => shutil_copyfile f src target);;
    completed (ACopy src target).

Definition LinkExecutor (hard : bool) : Executor :=
  mkExecutor LinkExecutor_mkdir (LinkExecutor_link hard) LinkExecutor_copy.

(** ** [prepare_destination] *)

Definition prepare_destination (dest : Path) : M unit :=
  ex ← query (fun f => path_exists f dest);
  if negb ex then Path_mkdir dest
  else
    d ← query (fun f => is_dir f dest);
    if negb d then
      print ("ERROR: " +:+ as_posix dest +:+ " exists already and is not a directory");;
      raise (FileReplacementError (as_posix dest))
    else mret tt.

(** ** [create_links] *)

(** [[re.compile(regexp) for regexp in patterns]] *)
Definition compile_all (patterns : list string) : M (list regex) :=
  match mapM re_compile patterns with
  | Some l => mret l
  | None => raise re_error
  end.

(** The first [if] of [create_links]: it tests the key ["cl.cp"] and
    assigns the key ["cl.cp_re"]. *)
Definition cached_copy_files_re (args : Args.Namespace) : M (list regex) :=
  c ← cache_get;
  match c !! "cl.cp" with
  | None =>
      let copy_files := concat (Args.copy args) ++ Args.copy_list_file args in
      copy_files_re ← compile_all copy_files;
      cache_set "cl.cp_re" copy_files_re;;
      mret copy_files_re
  | Some _ => mret (default [] (c !! "cl.cp_re"))
  end.

(** The second [if]: it tests ["cl.ignore"] and assigns ["cl.ignore_re"]. *)
Definition cached_ignore_files_re (args : Args.Namespace) : M (list regex) :=
  c ← cache_get;
  match c !! "cl.ignore" with
  | None =>
      let ignore_files := concat (Args.ignore args) ++ Args.ignore_list_file args in
      ignore_files_re ← compile_all ignore_files;
      cache_set "cl.ignore_re" ignore_files_re;;
      mret ignore_files_re
  | Some _ => mret (default [] (c !! "cl.ignore_re"))
  end.

(** [any(r.match(s) for r in res)], the two flag loops of the body. *)
Definition any_match (res : list regex) (s : string) : bool :=
  existsb (fun r => re_match r s) res.

(** What becomes of an entry that is not a directory. *)
Definition leaf (executor : Executor) (copy_required : bool) (item target : Path) : M unit :=
  if copy_required then copy executor item target else link executor item target.

(** The body of [for item in path.iterdir()]; [recurse item] is the call
    [create_links(args, item)]. *)
Definition visit (executor : Executor) (args : Args.Namespace)
    (copy_files_re ignore_files_re : list regex)
    (recurse : Path -> M unit) (item : Path) : M unit :=
  sub ← lift (remove_front_dir (Args.source args) item);
  let target := joinpath (Args.destination args) sub in
  let skip_item := any_match ignore_files_re (as_posix item) in
  if skip_item then mret tt
  else
    let copy_required := any_match copy_files_re (as_posix item) in
    d ← query (fun f => is_dir f item);
    if d : bool then
      if negb (path_eqb item (Args.destination args)) then
        mkdir executor target;;
        recurse item
      else mret tt
    else leaf executor copy_required item target.

Definition the_executor (args : Args.Namespace) : Executor :=
  if Args.dry_run args then DryRunExecutor else LinkExecutor (Args.hard_links args).

(** [create_links(args, path)].  [depth] bounds the nesting of calls, as
    the interpreter's recursion limit does. *)
Fixpoint create_links (depth : nat) (args : Args.Namespace) (path : option Path) : M unit :=
  match depth with
  | 0 => raise RecursionError
  | S depth' =>
      let executor := the_executor args in
      copy_files_re ← cached_copy_files_re args;
      ignore_files_re ← cached_ignore_files_re args;
      let path := default (Args.source args) path in
      listing ← query (fun f => iterdir f path);
      match listing with
      | None => raise OSError
      | Some items =>
          for_each items
            (visit executor args copy_files_re ignore_files_re
               (fun item => create_links depth' args (Some item)))
      end
  end.

(** A process starts with an empty [cache] and nothing printed. *)
Definition boot (f : FS) : World := mkWorld f [] ∅ [] [].

End Deeplink.

Arguments mkWorld {regex} fs stdout cache cache_log history.
Arguments fs {regex} w.
Arguments stdout {regex} w.
Arguments cache {regex} w.
Arguments cache_log {regex} w.
Arguments history {regex} w.
Arguments printed {regex} w line.
Arguments with_fs {regex} w f'.
Arguments logged {regex} w a.
Arguments assigned {regex} w key value.
Arguments boot {regex} f.
Arguments raise {regex A} e w.
Arguments lift {regex A} r w.
Arguments print {regex} line w.
Arguments query {regex A} f w.
Arguments syscall {regex} f w.
Arguments completed {regex} a w.
Arguments cache_get {regex} w.
Arguments cache_set {regex} key value w.
Arguments for_each {regex A} l body w.
Arguments Path_mkdir {regex} self w.
Arguments symlink_to {regex} self target w.
Arguments link_to {regex} self target w.
Arguments mkExecutor {regex} mkdir link copy.
Arguments mkdir {regex} e path w.
Arguments link {regex} e src target w.
Arguments copy {regex} e src target w.
Arguments DryRunExecutor_mkdir {regex} path w.
Arguments DryRunExecutor_link {regex} src target w.
Arguments DryRunExecutor_copy {regex} src target w.
Arguments DryRunExecutor {regex}.
Arguments LinkExecutor_mkdir {regex} path w.
Arguments LinkExecutor_link {regex} hard src target w.
Arguments LinkExecutor_copy {regex} src target w.
Arguments LinkExecutor {regex} hard.
Arguments prepare_destination {regex} dest w.
Arguments compile_all {regex} re_compile patterns w.
Arguments cached_copy_files_re {regex} re_compile args w.
Arguments cached_ignore_files_re {regex} re_compile args w.
Arguments any_match {regex} re_match res s.
Arguments leaf {regex} executor copy_required item target w.
Arguments visit {regex} re_match executor args copy_files_re ignore_files_re recurse item w.
Arguments the_executor {regex} args.
Arguments create_links {regex} re_compile re_match depth args path w.

(** ** [main] *)

Section Main.

Context {regex : Type}.
Variable re_compile : string -> option regex.
Variable re_match : regex -> string -> bool.

(** [main()], from the [try] statement on; [args] is what [get_args()]
    returned.  The two conflicts are caught and answered with a line of
    advice; any other exception propagates. *)
Definition main (depth : nat) (args : Args.Namespace) : M regex unit := fun w =>
  match (prepare_destination (Args.destination args);;
         create_links re_compile re_match depth args None) w with
  | (Raise (FileReplacementError e), w') =>
      print ("Remove the '" +:+ e +:+ "' file.") w'
  | (Raise (DirectoryReplacementError e), w') =>
      print ("Remove the '" +:+ e +:+ "' directory.") w'
  | other => other
  end.

End Main.

(* ===================================================================== *)
(** * A matcher to run examples with *)
(* ===================================================================== *)

(** The fragment of the [re] syntax made of literal characters, [.] and a
    postfix [*], which is what the patterns of the test suite use.  A
    pattern is compiled to a list of atoms, each starred or not;
    [Mini.compile] is [None] where [re.compile] raises (a [*] with nothing
    to repeat) and on the characters that belong to the rest of the
    syntax, which the examples of this file do not use. *)
Module Mini.

Inductive atom : Type :=
| Lit (c : ascii)
| Any.

Definition regex : Type := list (atom * bool).

Definition special (c : ascii) : bool :=
  existsb (Ascii.eqb c) (list_ascii_of_string "\^$+?{}[]()|").

Fixpoint parse (s : string) : option regex :=
  match s with
  | EmptyString => Some []
  | String c s' =>
      if Ascii.eqb c "*"%char || special c then None
      else
        let a := if Ascii.eqb c "."%char then Any else Lit c in
        match s' with
        | String c' s'' =>
            if Ascii.eqb c' "*"%char then r ← parse s''; Some ((a, true) :: r)
            else r ← parse s'; Some ((a, false) :: r)
        | EmptyString => Some [(a, false)]
        end
  end.

Definition compile : string -> option regex := parse.

Definition accepts (a : atom) (c : ascii) : bool :=
  match a with
  | Lit x => Ascii.eqb x c
  | Any => negb (Ascii.eqb c newline)
  end.

(** [r.match(s)]: some prefix of [s] is matched by the whole of [r]. *)
Fixpoint matches (r : regex) (s : string) : bool :=
  match r with
  | [] => true
  | (a, false) :: r' =>
      match s with
      | String c s' => accepts a c && matches r' s'
      | EmptyString => false
      end
  | (a, true) :: r' =>
      (fix star (s : string) : bool :=
         matches r' s
         || match s with
            | String c s' => accepts a c && star s'
            | EmptyString => false
            end) s
  end.

Definition create_links := @create_links regex compile matches.
Definition prepare_destination := @prepare_destination regex.

End Mini.


(* ===================================================================== *)
(** * Statements *)
(* ===================================================================== *)

(** The vocabulary of the theorems below, and three sentences of the
    specification written as propositions so that they can be refuted. *)

(** [args] with the flag [--dry-run] set to [b]. *)
Definition with_dry_run (b : bool) (args : Args.Namespace) : Args.Namespace :=
  Args.mkArgs (Args.source args) (Args.destination args) (Args.hard_links args)
    (Args.copy args) (Args.copy_list_file args)
    (Args.ignore args) (Args.ignore_list_file args) b.

(** The lines of a dry run that report an action, not an error. *)
Definition reported (out : list string) : list string :=
  List.filter (fun line => negb (String.prefix "ERROR" line)) out.

(** A line of a pattern file that [file_as_list] keeps when it reads it. *)
Definition kept (line : string) : bool :=
  negb (re_comment_match line) && negb (re_empty_match line).

(** The stripped lines of a file up to its first empty line. *)
Fixpoint until_blank (raw : list string) : list string :=
  match raw with
  | [] => []
  | l :: r =>
      match rstrip_newline l with
      | EmptyString => []
      | line => line :: until_blank r
      end
  end.

(** The change of the file system that an action stands for, as the
    system call that makes it: [os.mkdir(path)]; a link at [target] to
    [src], symbolic and holding the path of [src] relative to the
    directory of [target], or hard; [shutil.copyfile(src, target)].
    [None] when the call fails. *)
Definition perform (hard : bool) (f : FS) (a : Action) : option FS :=
  match a with
  | AMkdir path => os_mkdir f path
  | ALink src target =>
      if hard then os_link f src target
      else match relative_path (getcwd f) (parent target) src with
           | Return src' => os_symlink f src' target
           | Raise _ => None
           end
  | ACopy src target => shutil_copyfile f src target
  end.

(** The actions [acts] made one after the other, from [f] on. *)
Fixpoint perform_all (hard : bool) (f : FS) (acts : list Action) : option FS :=
  match acts with
  | [] => Some f
  | a :: rest =>
      match perform hard f a with
      | Some f' => perform_all hard f' rest
      | None => None
      end
  end.

Section Statements.

Context {regex : Type}.
Variable re_compile : string -> option regex.
Variable re_match : regex -> string -> bool.

(** "A source entry that is a symbolic link is linked or copied as a leaf
    and never recursed into." *)
Definition symlinks_are_leaves : Prop :=
  forall (executor : Executor regex) args crs irs recurse item sub (w : World regex),
    remove_front_dir (Args.source args) item = Return sub ->
    any_match re_match irs (as_posix item) = false ->
    is_symlink (fs w) item = true ->
    visit re_match executor args crs irs recurse item w
    = leaf executor (any_match re_match crs (as_posix item)) item
        (joinpath (Args.destination args) sub) w.

(** "A directory entry equal to the destination root is handled as a
    leaf: copied if it matches a copy pattern, linked otherwise." *)
Definition destination_root_is_leaf : Prop :=
  forall (executor : Executor regex) args crs irs recurse item sub (w : World regex),
    remove_front_dir (Args.source args) item = Return sub ->
    any_match re_match irs (as_posix item) = false ->
    is_dir (fs w) item = true ->
    item = Args.destination args ->
    visit re_match executor args crs irs recurse item w
    = leaf executor (any_match re_match crs (as_posix item)) item
        (joinpath (Args.destination args) sub) w.

(** "When the target exists as a regular file, the copy silently
    overwrites it without raising any error." *)
Definition copy_overwrites_regular_file : Prop :=
  forall src target (w : World regex) old,
    stat (fs w) target = Some (File old) ->
    exists w', LinkExecutor_copy src target w = (Return tt, w').

(** "A dry run reports exactly the actions that the same run without
    [--dry-run] performs, and both end on the same conflict." *)
Definition dry_run_previews : Prop :=
  forall depth args f rd (wd : World regex) rr (wr : World regex),
    create_links re_compile re_match depth (with_dry_run true args) None (boot f) = (rd, wd) ->
    create_links re_compile re_match depth (with_dry_run false args) None (boot f) = (rr, wr) ->
    (forall line, In line (reported (stdout wd)) <-> In line (map report (history wr)))
    /\ rd = rr.

(** How one call of a [DryRunExecutor] method previews the same call of
    the [LinkExecutor] method, both made in the world [w] for the action
    [a]: both refuse with the same conflict and the same message; or both
    find nothing to do; or the dry run reports [a] and the other one
    either makes the change [perform hard (fs w) a] and nothing else, or
    gives up on an error that is not a conflict, leaving the world as it
    was. *)
Inductive previews (hard : bool) (w : World regex) (a : Action)
  : result unit * World regex -> result unit * World regex -> Prop :=
| previews_conflict e line :
    is_conflict e = true ->
    previews hard w a (Raise e, printed w line) (Raise e, printed w line)
| previews_nothing :
    previews hard w a (Return tt, w) (Return tt, w)
| previews_done f' :
    perform hard (fs w) a = Some f' ->
    previews hard w a (Return tt, printed w (report a))
      (Return tt, logged (with_fs w f') a)
| previews_failed e :
    is_conflict e = false ->
    previews hard w a (Return tt, printed w (report a)) (Raise e, w).

(** Neither of the two keys that [create_links] tests is in [cache]. *)
Definition tested_keys_absent (w : World regex) : Prop :=
  cache w !! "cl.cp" = None /\ cache w !! "cl.ignore" = None.

(** [w'] comes after [w]: the log of assignments to [cache] has grown, and
    the tested keys are still absent if they were. *)
Definition later (w w' : World regex) : Prop :=
  (exists more, cache_log w' = cache_log w ++ more)
  /\ (tested_keys_absent w -> tested_keys_absent w').

(** A statement only moves the world forward. *)
Definition forward {A} (m : M regex A) : Prop := forall w, later w (snd (m w)).

End Statements.

Arguments forward regex {A} m.

(* ===================================================================== *)
(** * Statements about whole runs *)
(* ===================================================================== *)

(** ** Plain paths in tidy file systems

    The setting in which a dry run and the run it previews can be
    compared step by step: no symbolic link anywhere, every entry inside
    a directory, and paths written with names only. *)

(** A name that resolution takes one step down for: a segment other than
    [..]. *)
Definition plain_name (x : string) : bool := wf_seg x && negb (String.eqb x "..").

Definition rooted (p : Path) : bool :=
  match p with
  | r :: _ => String.eqb r "/"
  | [] => false
  end.

Definition names_of (p : Path) : list string := if rooted p then tail p else p.

(** A path made of plain names, after the root [/] if it has one. *)
Definition simple (p : Path) : bool := forallb plain_name (names_of p).

Definition base_of (f : FS) (p : Path) : loc := if rooted p then [] else cwd f.

(** The location that a simple path names. *)
Definition loc_of (f : FS) (p : Path) : loc := base_of f p ++ names_of p.

(** The names listed in the directory at [d], in order. *)
Definition children (f : FS) (d : loc) : list string :=
  omap (fun kn => child_name d (fst kn)) (nodes f).

Definition tidy_entry (f : FS) (kn : loc * node) : bool :=
  forallb plain_name (fst kn)
  && negb (is_nil (fst kn))
  && match snd kn with Symlink _ => false | _ => true end
  && match node_at f (removelast (fst kn)) with Some Dir => true | _ => false end.

(** A file system without symbolic links, in which every entry has a
    plain name, lies in a directory and is recorded once. *)
Definition tidy (f : FS) : bool :=
  forallb (tidy_entry f) (nodes f) && bool_decide (NoDup (map fst (nodes f))).

(** Neither location lies inside the other. *)
Definition apart (l1 l2 : loc) : bool :=
  negb (bool_decide (l1 `prefix_of` l2)) && negb (bool_decide (l2 `prefix_of` l1)).

(** No name at or below [T] is one of several names of a file. *)
Definition unshared (f : FS) (T : loc) : bool :=
  forallb (forallb (fun l => negb (bool_decide (T `prefix_of` l)))) (links f).

(** No entry of [f] lies strictly below [T]. *)
Definition hollow (f : FS) (T : loc) : bool :=
  forallb (fun kn => negb (bool_decide (T `prefix_of` fst kn)) || bool_decide (fst kn = T))
    (nodes f).

(** Every entry of [f] at or below [T] lies less than [n] names below [T]. *)
Definition shallow (f : FS) (T : loc) (n : nat) : bool :=
  forallb (fun kn => negb (bool_decide (T `prefix_of` fst kn))
                     || Nat.ltb (length (fst kn)) (length T + n))
    (nodes f).

(** All the directories on the way from [base] down [names]. *)
Definition dirs_upto (g : FS) (base : loc) (names : list string) : Prop :=
  forall q, q <> [] -> q `prefix_of` names -> node_at g (base ++ q) = Some Dir.

(** ** Frames *)

(** [l] lies strictly below the directory at [T]. *)
Definition below (T l : loc) : Prop := exists k, k <> [] /\ l = T ++ k.

(** [g'] differs from [g] only strictly below [T]. *)
Record frame (T : loc) (g g' : FS) : Prop := mkFrame {
  frame_cwd : cwd g' = cwd g;
  frame_nodes : forall l, ~ below T l -> node_at g' l = node_at g l;
  frame_kids : forall L, ~ T `prefix_of` L -> children g' L = children g L;
  frame_links : links g' = links g
}.

(** [g'] differs from [g] at most at the entry [n] of [T] and below. *)
Definition at_most (T : loc) (n : string) (g g' : FS) : Prop :=
  cwd g' = cwd g
  /\ (forall l, ~ (T ++ [n]) `prefix_of` l -> node_at g' l = node_at g l)
  /\ (forall L, ~ T `prefix_of` L -> children g' L = children g L)
  /\ links g' = links g.

(** ** A dry run beside the run *)

(** The lines that the executors and [prepare_destination] print before
    they raise a conflict. *)
Definition error_line (line : string) : bool := String.prefix "ERROR" line.

Section Coupling.

Context {regex : Type}.

(** The worlds [wd'] of a dry run and [wr'] of a real run, started in [wd]
    and [wr]: the dry run printed the actions [acts] that the real run
    completed, then both printed the lines [err]. *)
Record delta (wd wr wd' wr' : World regex) (acts : list Action) (err : list string)
  : Prop := mkDelta {
  delta_fs : fs wd' = fs wd;
  delta_history : history wd' = history wd;
  delta_stdout : stdout wd' = stdout wd ++ map report acts ++ err;
  delta_done : history wr' = history wr ++ acts;
  delta_err : stdout wr' = stdout wr ++ err;
  delta_cache : cache wd' = cache wr';
  delta_log : cache_log wd' = cache_log wr'
}.

(** The outcomes [od] of a dry run and [or] of a real run agree. *)
Definition alike (wd wr : World regex)
    (od or : result unit * World regex) : Prop :=
  fst od = fst or
  /\ exists acts err,
       delta wd wr (snd od) (snd or) acts err
       /\ (fst od = Return tt -> err = [])
       /\ forallb error_line err = true.

Definition coupled (wd wr : World regex) : Prop :=
  cache wd = cache wr /\ cache_log wd = cache_log wr.

(** The world of a dry run that stands beside [wr]: the real run's output
    and cache, over the file system [f] that the dry run never changes. *)
Definition beside (f : FS) (wr : World regex) : World regex :=
  mkWorld f (stdout wr) (cache wr) (cache_log wr) (history wr).

(** A statement that leaves the file system alone. *)
Definition quiet {A} (m : M regex A) : Prop :=
  forall w, fs (snd (m w)) = fs w /\ history (snd (m w)) = history w.

(** A statement that changes the file system by recorded actions only:
    the actions it adds to the history, made one after the other, lead
    from the file system it found to the one it leaves. *)
Definition replays (hard : bool) {A} (m : M regex A) : Prop :=
  forall w, exists acts,
    history (snd (m w)) = history w ++ acts
    /\ perform_all hard (fs w) acts = Some (fs (snd (m w))).

(** A statement that raises a conflict only after it has printed an
    [ERROR] line, the last line printed. *)
Definition loud {A} (m : M regex A) : Prop :=
  forall w e, fst (m w) = Raise e -> is_conflict e = true ->
    exists before line,
      stdout (snd (m w)) = before ++ [line] /\ error_line line = true.

End Coupling.

Arguments quiet regex {A} m.
Arguments loud regex {A} m.
Arguments replays regex hard {A} m.

Section Walk.

Context {regex : Type}.
Variable re_compile : string -> option regex.
Variable re_match : regex -> string -> bool.
Variable f0 : FS.
Variable args : Args.Namespace.

(** What the real run has done so far while it walks the directory [r] of
    the source: nothing outside the destination, nothing below the
    target of [r] except for the entries [done], and the target of [r] is
    a directory that can be reached. *)
Definition inv (r done : list string) (g : FS) : Prop :=
  frame (loc_of f0 (Args.destination args)) f0 g
  /\ (forall l, below (loc_of f0 (Args.destination args) ++ r) l ->
        (forall m, In m done ->
           ~ ((loc_of f0 (Args.destination args) ++ r) ++ [m]) `prefix_of` l) ->
        node_at g l = node_at f0 l)
  /\ dirs_upto g (base_of f0 (Args.destination args))
       (names_of (Args.destination args) ++ r).

(** What is to be shown of a call of [create_links] at depth [depth], on
    the directory [r] of the source. *)
Definition walk_spec (depth : nat) : Prop :=
  forall r path (wd wr : World regex),
    forallb plain_name r = true ->
    default (Args.source args) path = Args.source args ++ r ->
    fs wd = f0 -> coupled wd wr -> inv r [] (fs wr) ->
    alike wd wr
      (create_links re_compile re_match depth (with_dry_run true args) path wd)
      (create_links re_compile re_match depth (with_dry_run false args) path wr)
    /\ frame (loc_of f0 (Args.destination args) ++ r) (fs wr)
         (fs (snd (create_links re_compile re_match depth
                     (with_dry_run false args) path wr))).

(** Below the directory [r] of the source, neither the entry [k] nor a
    directory above it matches an ignore pattern. *)
Definition kept_below (irs : list regex) (r k : list string) : Prop :=
  forall p, p <> [] -> p `prefix_of` k ->
    any_match re_match irs (as_posix (Args.source args ++ r ++ p)) = false.

(** What the destination holds in [g] for the entry [q] of the source: a
    directory for a directory; for a regular file a copy, if its path
    matches a copy pattern, or else a symbolic link that stores
    [relative_path(target.parent, item)]. *)
Definition mirrored (crs : list regex) (g : FS) (q : list string) : Prop :=
  match node_at f0 (loc_of f0 (Args.source args) ++ q) with
  | Some Dir => node_at g (loc_of f0 (Args.destination args) ++ q) = Some Dir
  | Some (File data) =>
      if any_match re_match crs (as_posix (Args.source args ++ q))
      then node_at g (loc_of f0 (Args.destination args) ++ q) = Some (File data)
      else exists stored,
             relative_path (getcwd f0) (parent (Args.destination args ++ q))
               (Args.source args ++ q) = Return stored
             /\ node_at g (loc_of f0 (Args.destination args) ++ q) = Some (Symlink stored)
  | _ => True
  end.

(** What is to be shown of a call of [create_links] that returns. *)
Definition mirror_spec (crs irs : list regex) (depth : nat) : Prop :=
  forall r path (wr : World regex),
    forallb plain_name r = true ->
    default (Args.source args) path = Args.source args ++ r ->
    inv r [] (fs wr) -> tested_keys_absent wr ->
    fst (create_links re_compile re_match depth (with_dry_run false args) path wr)
    = Return tt ->
    forall k, k <> [] -> kept_below irs r k ->
      mirrored crs
        (fs (snd (create_links re_compile re_match depth (with_dry_run false args) path wr)))
        (r ++ k).

(** What is to be shown of a call of [create_links] on the directory [r]
    of the source, when nothing is in its way. *)
Definition return_spec (depth : nat) : Prop :=
  forall r path (wr : World regex),
    forallb plain_name r = true ->
    default (Args.source args) path = Args.source args ++ r ->
    inv r [] (fs wr) -> tested_keys_absent wr ->
    node_at f0 (loc_of f0 (Args.source args) ++ r) = Some Dir ->
    (forall k, node_at f0 (loc_of f0 (Args.source args) ++ r ++ k) <> None ->
       length k < depth) ->
    fst (create_links re_compile re_match depth (with_dry_run false args) path wr)
    = Return tt.

End Walk.

(* ===================================================================== *)
(** * Scenarios *)
(* ===================================================================== *)

(** Arguments without patterns. *)
Definition plain (src dst : Path) (hard dry : bool) : Args.Namespace :=
  Args.mkArgs src dst hard [] [] [] [] dry.

(** The pattern of [test_basic_results]. *)
Definition ignore_pattern : string := ".*ignore.*".

Definition ignore_re : list Mini.regex :=
  match Mini.compile ignore_pattern with
  | Some r => [r]
  | None => []
  end.

(** [f] after [prepare_destination] has made the directory [out]. *)
Definition with_out (f : FS) : FS :=
  mkFS (cwd f) (nodes f ++ [(["w"; "out"], Dir)]) (links f).

(** [in/lnk] is a symbolic link to the directory [in/d]. *)
Definition linked_dir : FS :=
  mkFS ["w"]
    [ (["w"], Dir);
      (["w"; "in"], Dir);
      (["w"; "in"; "d"], Dir);
      (["w"; "in"; "d"; "f"], File "data");
      (["w"; "in"; "lnk"], Symlink ["d"]);
      (["w"; "out"], Dir) ] [].

(** The destination [in/out] lies inside the source [in]. *)
Definition nested : FS :=
  mkFS ["w"]
    [ (["w"], Dir);
      (["w"; "in"], Dir);
      (["w"; "in"; "out"], Dir) ] [].

(** The destination [in] lies above the source [in/sub], which lists
    [sub] before [d]. *)
Definition above : FS :=
  mkFS ["w"]
    [ (["w"], Dir);
      (["w"; "in"], Dir);
      (["w"; "in"; "sub"], Dir);
      (["w"; "in"; "sub"; "sub"], Dir);
      (["w"; "in"; "sub"; "sub"; "d"], Dir);
      (["w"; "in"; "sub"; "sub"; "d"; "f"], File "data");
      (["w"; "in"; "sub"; "d"], Dir) ] [].

(** A destination that already holds a regular file and a directory. *)
Definition two_files : FS :=
  mkFS ["w"]
    [ (["w"], Dir);
      (["w"; "in"], Dir);
      (["w"; "in"; "f"], File "new");
      (["w"; "out"], Dir);
      (["w"; "out"; "f"], File "old");
      (["w"; "out"; "d"], Dir) ] [].

(** The destination holds a dangling symbolic link where the directory
    [out/a] has to be made. *)
Definition dangling : FS :=
  mkFS ["w"]
    [ (["w"], Dir);
      (["w"; "in"], Dir);
      (["w"; "in"; "a"], Dir);
      (["w"; "out"], Dir);
      (["w"; "out"; "a"], Symlink ["nowhere"]) ] [].

(** A whole run of [main] up to its [try] block: [prepare_destination],
    then [create_links(args)], in a fresh process. *)
Definition main_body (depth : nat) (args : Args.Namespace) (f : FS)
  : result unit * World Mini.regex :=
  (Mini.prepare_destination (Args.destination args);;
   Mini.create_links depth args None) (boot f).

(** A tree without symbolic links: [in/{a/f, g, skip}] beside an empty
    directory [out]. *)
Definition mirror : FS :=
  mkFS ["w"]
    [ (["w"], Dir);
      (["w"; "in"], Dir);
      (["w"; "in"; "a"], Dir);
      (["w"; "in"; "a"; "f"], File "1");
      (["w"; "in"; "g"], File "2");
      (["w"; "in"; "skip"], File "3");
      (["w"; "out"], Dir) ] [].

(** [deeplink in out --copy '.*g' --ignore '.*skip'] *)
Definition mirror_args : Args.Namespace :=
  Args.mkArgs ["in"] ["out"] false [[".*g"]] [] [[".*skip"]] [] false.

(** [out/f] is a symbolic link to [in/f], as an earlier run left it. *)
Definition relinked : FS :=
  mkFS ["w"]
    [ (["w"], Dir);
      (["w"; "in"], Dir);
      (["w"; "in"; "f"], File "data");
      (["w"; "out"], Dir);
      (["w"; "out"; "f"], Symlink [".."; "in"; "f"]) ] [].

(** [out/f] is a second name (a hard link) of the regular file [in/f]. *)
Definition twin : FS :=
  mkFS ["w"]
    [ (["w"], Dir);
      (["w"; "in"], Dir);
      (["w"; "in"; "f"], File "data");
      (["w"; "in"; "g"], File "new");
      (["w"; "out"], Dir);
      (["w"; "out"; "f"], File "data") ]
    [ [ ["w"; "in"; "f"]; ["w"; "out"; "f"] ] ].

(* ===================================================================== *)
(** * The tests of the repository and the scenarios of the specification *)
(* ===================================================================== *)

Example PosixPath_parts :
  PosixPath "a/b/c" = ["a"; "b"; "c"]
  /\ PosixPath "/a//b/./c/" = ["/"; "a"; "b"; "c"]
  /\ PosixPath "." = [] /\ PosixPath "" = [] /\ PosixPath "./in" = ["in"]
  /\ PosixPath "//a" = ["//"; "a"] /\ PosixPath "///a" = ["/"; "a"]
  /\ PosixPath "../../k/l" = [".."; ".."; "k"; "l"].
Proof. repeat split. Qed.

Example as_posix_strings :
  as_posix ["/"; "a"; "b"] = "/a/b" /\ as_posix ["a"; "b"] = "a/b" /\ as_posix [] = ".".
Proof. repeat split. Qed.

Example test_remove_front_dir_complex :
  remove_front_dir (PosixPath "a/b/c") (PosixPath "a/b/c/d/e") = Return (PosixPath "d/e").
Proof. reflexivity. Qed.

Example test_remove_front_dir_from_dot :
  remove_front_dir (PosixPath ".") (PosixPath "a/b/c/d/e") = Return (PosixPath "a/b/c/d/e").
Proof. reflexivity. Qed.

Example test_relative_path_from_rel :
  relative_path (PosixPath "/home/u") (PosixPath "./a/b") (PosixPath "./k/l")
  = Return (PosixPath "../../k/l").
Proof. reflexivity. Qed.

Example test_relative_path_to_abs :
  relative_path (PosixPath "/home/u") (PosixPath "/a/b/c/d/e") (PosixPath "/k/h/i")
  = Return (PosixPath "/k/h/i").
Proof. reflexivity. Qed.

Example test_relative_path_from_abs :
  relative_path (PosixPath "/home/u") (PosixPath "/a/b/c/d/e") (PosixPath "./a/z")
  = Return (PosixPath "../../../../../home/u/a/z").
Proof. reflexivity. Qed.

Example doctest_relative_path :
  relative_path (PosixPath "/home/u") (PosixPath "a/b/c/m") (PosixPath "a/b/c/d/e")
  = Return (PosixPath "../d/e").
Proof. reflexivity. Qed.

Example test_ignore_from_file_fixture :
  file_as_list ("#This is a comment" +:+ nl +:+ ".*ignore-file-a.*" +:+ nl +:+ nl)
  = [".*ignore-file-a.*"].
Proof. reflexivity. Qed.

(** A file with ["\r\n"] line endings reads as the same file with ["\n"]
    line endings: no line keeps a ["\r"], and an empty line ends the list. *)
Example file_as_list_crlf :
  file_as_list ("a" +:+ crlf +:+ "b" +:+ crlf) = ["a"; "b"]
  /\ file_as_list ("a" +:+ crlf +:+ crlf +:+ "b" +:+ crlf) = ["a"].
Proof. split; reflexivity. Qed.

(** A line made of a no-break space (U+00A0) is white space for [\s]: it
    is skipped, and it does not end the list. *)
Example file_as_list_no_break_space :
  file_as_list (String "160" nl +:+ "x" +:+ nl) = ["x"].
Proof. reflexivity. Qed.

Example fixture_listing :
  iterdir fixture ["in"]
  = Some [["in"; "file-base"]; ["in"; "dir-a"]; ["in"; "dir-b"]; ["in"; "symlink-to-dir-b"]].
Proof. reflexivity. Qed.

Example fixture_symlink_dangles :
  is_symlink fixture ["in"; "symlink-to-dir-b"] = true
  /\ path_exists fixture ["in"; "symlink-to-dir-b"] = false
  /\ is_dir fixture ["in"; "symlink-to-dir-b"] = false.
Proof. repeat split. Qed.

Example fixture_queries :
  is_dir fixture ["in"; "dir-a"] = true
  /\ is_file fixture ["/"; "w"; "in"; ".."; "in"; "dir-b"; "file-b"] = true
  /\ path_exists fixture ["in"; "nope"; "x"] = false
  /\ path_exists fixture ["in"; "file-base"; "x"] = false.
Proof. repeat split. Qed.

Example mini_matches_prefix :
  any_match Mini.matches ignore_re "in/dir-a/ignore-file-a" = true
  /\ any_match Mini.matches ignore_re "in/dir-a/file-a" = false.
Proof. split; reflexivity. Qed.

(** End-to-end scenario A: every file is linked but the ignored one. *)
Example scenario_A :
  let args := Args.mkArgs ["in"] ["out"] false [] [] [[ignore_pattern]] [] false in
  let '(r, w) := main_body 10 args fixture in
  r = Return tt
  /\ lstat (fs w) ["out"; "file-base"] = Some (Symlink [".."; "in"; "file-base"])
  /\ lstat (fs w) ["out"; "dir-a"] = Some Dir
  /\ lstat (fs w) ["out"; "dir-a"; "file-a"] = Some (Symlink [".."; ".."; "in"; "dir-a"; "file-a"])
  /\ lstat (fs w) ["out"; "dir-a"; "ignore-file-a"] = None
  /\ lstat (fs w) ["out"; "dir-b"; "file-b"] = Some (Symlink [".."; ".."; "in"; "dir-b"; "file-b"])
  /\ stat (fs w) ["out"; "dir-b"; "file-b"] = Some (File "").
Proof. vm_compute. repeat split. Qed.

(** End-to-end scenario B: a file that matches a copy pattern is copied. *)
Example scenario_B :
  let args := Args.mkArgs ["in"] ["out"] false [["in/dir-b/file-b"]] [] [] [] false in
  let '(r, w) := main_body 10 args fixture in
  r = Return tt
  /\ lstat (fs w) ["out"; "dir-b"; "file-b"] = Some (File "")
  /\ lstat (fs w) ["out"; "dir-a"; "ignore-file-a"]
     = Some (Symlink [".."; ".."; "in"; "dir-a"; "ignore-file-a"]).
Proof. vm_compute. repeat split. Qed.

(** Conflict scenario: a regular file sits where a directory is needed;
    what was made before stays. *)
Example scenario_conflict :
  let f := mkFS (cwd fixture)
             (nodes fixture ++ [(["w"; "out"], Dir); (["w"; "out"; "dir-a"], File "")]) [] in
  let '(r, w) := main_body 10 (plain ["in"] ["out"] false false) f in
  r = Raise (FileReplacementError "out/dir-a")
  /\ history w = [ALink ["in"; "file-base"] ["out"; "file-base"]]
  /\ stdout w = ["ERROR(mkdir) out/dir-a exists"].
Proof. vm_compute. repeat split. Qed.

(** The dry run of scenario A. *)
Example scenario_dry_run :
  let args := Args.mkArgs ["in"] ["out"] false [] [] [[ignore_pattern]] [] true in
  let '(r, w) := Mini.create_links 10 args None (boot (with_out fixture)) in
  r = Return tt
  /\ fs w = with_out fixture
  /\ stdout w = [ "link in/file-base out/file-base"; "mkdir out/dir-a";
                  "link in/dir-a/file-a out/dir-a/file-a"; "mkdir out/dir-b";
                  "link in/dir-b/file-b out/dir-b/file-b";
                  "link in/symlink-to-dir-b out/symlink-to-dir-b" ].
Proof. vm_compute. repeat split. Qed.

(* ===================================================================== *)
(** * Facts about path strings *)
(* ===================================================================== *)

Section PathFacts.

Lemma sapp_nil_l s : "" +:+ s = s.
Proof. reflexivity. Qed.

Lemma sapp_cons c x s : String c x +:+ s = String c (x +:+ s).
Proof. reflexivity. Qed.

Lemma split_sep_cons_sep s : split_sep (String sep s) = EmptyString :: split_sep s.
Proof. reflexivity. Qed.

Lemma split_sep_not_nil s : split_sep s <> [].
Proof. destruct s as [|c s]; simpl; [discriminate|]. destruct (Ascii.eqb c sep); [discriminate|]. destruct (split_sep s); discriminate. Qed.

Lemma split_sep_app x s :
  has_sep x = false ->
  split_sep (x +:+ s) =
  match split_sep s with
  | h :: t => (x +:+ h) :: t
  | [] => [x]
  end.
Proof.
  induction x as [|c x IH]; intros Hx.
  - rewrite sapp_nil_l. destruct (split_sep s) eqn:E; [|reflexivity].
    now apply split_sep_not_nil in E.
  - simpl in Hx. apply orb_false_elim in Hx as [Hc Hx].
    rewrite sapp_cons. simpl. rewrite Hc, (IH Hx).
    destruct (split_sep s); reflexivity.
Qed.

Lemma split_sep_plain x : has_sep x = false -> split_sep x = [x].
Proof.
  induction x as [|c x IH]; simpl; intros Hx; [reflexivity|].
  apply orb_false_elim in Hx as [Hc Hx]. now rewrite Hc, (IH Hx).
Qed.

Lemma sapp_nil_r x : x +:+ "" = x.
Proof. induction x as [|c x IH]; [reflexivity|]. now rewrite sapp_cons, IH. Qed.

Lemma split_join l :
  l <> [] -> forallb (fun x => negb (has_sep x)) l = true -> split_sep (join_sep l) = l.
Proof.
  induction l as [|x l IH]; [congruence|]. intros _ H. simpl in H.
  apply andb_prop in H as [Hx Hl]. apply negb_true_iff in Hx.
  destruct l as [|y l].
  - simpl. now apply split_sep_plain.
  - change (join_sep (x :: y :: l)) with (x +:+ String sep (join_sep (y :: l))).
    rewrite split_sep_app by assumption. rewrite split_sep_cons_sep.
    rewrite IH by (assumption || discriminate). now rewrite sapp_nil_r.
Qed.

Lemma wf_seg_keep x : wf_seg x = true -> keep_part x = true.
Proof. unfold wf_seg. intros H. now apply andb_prop in H as [? _]. Qed.

Lemma wf_seg_nosep x : wf_seg x = true -> has_sep x = false.
Proof. unfold wf_seg. intros H. apply andb_prop in H as [_ H]. now apply negb_true_iff in H. Qed.

Lemma wf_seg_not_root x : wf_seg x = true -> is_root x = false.
Proof.
  intros H. pose proof (wf_seg_nosep _ H) as Hs. unfold is_root.
  destruct (String.eqb_spec x "/") as [->|_]; [discriminate|].
  destruct (String.eqb_spec x "//") as [->|_]; [discriminate|reflexivity].
Qed.

Lemma wf_segs_nosep l :
  forallb wf_seg l = true -> forallb (fun x => negb (has_sep x)) l = true.
Proof.
  induction l as [|x l IH]; simpl; [reflexivity|]. intros H.
  apply andb_prop in H as [Hx Hl]. now rewrite (wf_seg_nosep _ Hx), IH.
Qed.

Lemma filter_keep_wf l : forallb wf_seg l = true -> List.filter keep_part l = l.
Proof.
  induction l as [|x l IH]; simpl; [reflexivity|]. intros H.
  apply andb_prop in H as [Hx Hl]. now rewrite (wf_seg_keep _ Hx), IH.
Qed.

(** A well-formed segment starts with a character other than the slash. *)
Lemma wf_seg_head x :
  wf_seg x = true -> exists c x', x = String c x' /\ Ascii.eqb c sep = false.
Proof.
  intros H. pose proof (wf_seg_nosep _ H) as Hs. apply wf_seg_keep in H.
  destruct x as [|c x']; [discriminate|]. exists c, x'. split; [reflexivity|].
  simpl in Hs. now apply orb_false_elim in Hs as [? _].
Qed.

Lemma join_sep_cons x l : exists t, join_sep (x :: l) = x +:+ t.
Proof.
  destruct l as [|y l]; [exists ""; simpl; now rewrite sapp_nil_r|].
  now exists (String sep (join_sep (y :: l))).
Qed.

(** ['/'.join(parts)] parses back to [parts] when these are segments. *)
Lemma PosixPath_join l : forallb wf_seg l = true -> PosixPath (join_sep l) = l.
Proof.
  intros H. destruct l as [|x l]; [reflexivity|].
  unfold PosixPath. rewrite split_join by (auto using wf_segs_nosep || discriminate).
  rewrite (filter_keep_wf _ H).
  simpl in H. apply andb_prop in H as [Hx _].
  destruct (wf_seg_head _ Hx) as (c & x' & -> & Hc).
  destruct (join_sep_cons (String c x') l) as [t ->].
  rewrite sapp_cons. unfold splitroot. now rewrite Hc.
Qed.

Lemma PosixPath_join_rooted x l :
  forallb wf_seg (x :: l) = true ->
  PosixPath ("/" +:+ join_sep ("/" :: x :: l)) = "/" :: x :: l.
Proof.
  intros H.
  change ("/" +:+ join_sep ("/" :: x :: l))
    with (String sep (String sep (String sep (join_sep (x :: l))))).
  unfold PosixPath. rewrite !split_sep_cons_sep.
  rewrite split_join by (auto using wf_segs_nosep || discriminate).
  change (List.filter keep_part ("" :: "" :: "" :: x :: l))
    with (List.filter keep_part (x :: l)).
  rewrite (filter_keep_wf _ H).
  simpl in H. apply andb_prop in H as [Hx _].
  destruct (wf_seg_head _ Hx) as (c & x' & -> & Hc).
  destruct (join_sep_cons (String c x') l) as [t ->].
  rewrite sapp_cons. unfold splitroot.
  change (Ascii.eqb sep sep) with true. cbn iota.
  change (lstrip_sep (String sep (String sep (String sep (String c (x' +:+ t))))))
    with (lstrip_sep (String c (x' +:+ t))).
  cbn [lstrip_sep]. rewrite Hc. cbn [String.length].
  replace (S (S (S (S (String.length (x' +:+ t))))) - S (String.length (x' +:+ t)))
    with 3 by lia.
  reflexivity.
Qed.

Lemma strip_common_prefix a r : strip_common a (a ++ r) = ([], r).
Proof.
  induction a as [|x a IH]; simpl; [now destruct r|]. now rewrite String.eqb_refl.
Qed.

Lemma strip_common_split a b a' b' :
  strip_common a b = (a', b') -> exists c, a = c ++ a' /\ b = c ++ b'.
Proof.
  revert b. induction a as [|x a IH]; intros b H.
  - exists []. destruct b; simpl in H; now inversion H.
  - destruct b as [|y b]; simpl in H; [exists []; now inversion H|].
    destruct (String.eqb_spec x y) as [->|_].
    + destruct (IH _ H) as (c & -> & ->). now exists (y :: c).
    + exists []. now inversion H.
Qed.

End PathFacts.

(* ===================================================================== *)
(** * Path arithmetic: claims C7 and C8 *)
(* ===================================================================== *)

Section ArithFacts.

Lemma wf_seg_not_slash x : wf_seg x = true -> String.eqb x "/" = false.
Proof.
  intros H. apply wf_seg_not_root in H. unfold is_root in H.
  now apply orb_false_elim in H as [? _].
Qed.

Lemma strip_common_stops a b a' b' :
  strip_common a b = (a', b') ->
  match a', b' with
  | x :: _, y :: _ => x <> y
  | _, _ => True
  end.
Proof.
  revert b. induction a as [|x a IH]; intros b H.
  - destruct b; simpl in H; now inversion H.
  - destruct b as [|y b]; simpl in H; [now inversion H|].
    destruct (String.eqb_spec x y) as [->|Hne]; [now apply (IH b)|].
    now inversion H; subst.
Qed.

Lemma remove_front_dir_below root rest :
  rest <> [] -> forallb wf_seg rest = true ->
  remove_front_dir root (root ++ rest) = Return rest.
Proof.
  intros Hne Hwf. unfold remove_front_dir. rewrite strip_common_prefix.
  destruct rest as [|r0 rest]; [congruence|].
  pose proof Hwf as Hwf'. simpl in Hwf'. apply andb_prop in Hwf' as [H0 _].
  rewrite (wf_seg_not_slash _ H0). now rewrite PosixPath_join.
Qed.

Lemma remove_front_dir_dot_absolute x l :
  forallb wf_seg (x :: l) = true ->
  remove_front_dir (PosixPath ".") ("/" :: x :: l) = Return ("/" :: x :: l).
Proof.
  intros Hwf. unfold remove_front_dir.
  change (strip_common (PosixPath ".") ("/" :: x :: l)) with (@nil string, "/" :: x :: l).
  cbn iota. change ("/" =? "/")%string with true. cbn iota.
  now rewrite PosixPath_join_rooted.
Qed.

Lemma forallb_suffix {A} (f : A -> bool) c l :
  forallb f (c ++ l) = true -> forallb f l = true.
Proof. rewrite forallb_app. intros H. now apply andb_prop in H as [_ ?]. Qed.

Lemma wf_seg_dotdot n : forallb wf_seg (repeat ".." n) = true.
Proof. induction n; simpl; auto. Qed.

Lemma is_absolute_segs l : forallb wf_seg l = true -> is_absolute l = false.
Proof.
  destruct l as [|x l]; [reflexivity|]. simpl. intros H.
  apply andb_prop in H as [H _]. now apply wf_seg_not_root.
Qed.

Lemma relative_path_absolute cwd src segs :
  relative_path cwd src ("/" :: segs) = Return ("/" :: segs).
Proof. reflexivity. Qed.

(** With [from_] the segments of [src.absolute()] and [to] those of
    [dest.absolute()], both below the root ["/"]. *)
Lemma relative_path_segments cwd src dest from_ to from' to' :
  dest <> [] -> forallb wf_seg dest = true ->
  absolute cwd src = "/" :: from_ ->
  absolute cwd dest = "/" :: to -> forallb wf_seg to = true ->
  strip_common from_ to = (from', to') ->
  relative_path cwd src dest = Return (repeat ".." (length from') ++ to').
Proof.
  intros Hne Hd Hs Ht Hto Hstrip. unfold relative_path.
  destruct dest as [|d0 dest]; [congruence|].
  pose proof Hd as Hd'. simpl in Hd'. apply andb_prop in Hd' as [H0 _].
  rewrite (wf_seg_not_slash _ H0), Hs, Ht.
  cbn [strip_common]. change ("/" =? "/")%string with true. cbn iota.
  rewrite Hstrip.
  destruct (strip_common_split _ _ _ _ Hstrip) as (c & _ & ->).
  apply forallb_suffix in Hto.
  rewrite (PosixPath_join _ (wf_seg_dotdot _)), (PosixPath_join _ Hto).
  unfold joinpath. now rewrite (is_absolute_segs _ Hto).
Qed.

(** No common segment below the root: as many [..] as [src.absolute()]
    has segments, then all of [dest.absolute()]. *)
Lemma relative_path_disjoint cwd src dest from_ to :
  dest <> [] -> forallb wf_seg dest = true ->
  absolute cwd src = "/" :: from_ ->
  absolute cwd dest = "/" :: to -> forallb wf_seg to = true ->
  hd_error from_ <> hd_error to ->
  relative_path cwd src dest = Return (repeat ".." (length from_) ++ to).
Proof.
  intros Hne Hd Hs Ht Hto Hhd.
  apply (relative_path_segments cwd src dest from_ to); auto.
  destruct from_ as [|x from_], to as [|y to]; try reflexivity.
  simpl. destruct (String.eqb_spec x y) as [->|_]; [now elim Hhd|reflexivity].
Qed.

(** C7. [remove_front_dir] is asked for the part of [item] below [root].
    When [item] is [root] itself (the part below is empty, and [item]
    does start with the segments of [root]) the call does not return the
    empty path: [result[0]] raises [IndexError].  So does
    [remove_front_dir(Path("."), Path("."))], although the function is
    meant to return [item] for every [item] when the root is ["."]. *)
Theorem remove_front_dir_same p : remove_front_dir p p = Raise IndexError.
Proof.
  unfold remove_front_dir. rewrite <- (app_nil_r p) at 2.
  now rewrite strip_common_prefix.
Qed.

(** C8. The directory ["."] is a relative [dest], yet [relative_path]
    does not compute the way from [src] to it: [dest.parts[0]] raises
    [IndexError], from whatever [src] and in whatever working
    directory. *)
Theorem relative_path_to_dot cwd src : relative_path cwd src (PosixPath ".") = Raise IndexError.
Proof. reflexivity. Qed.

End ArithFacts.

(* ===================================================================== *)
(** * Pattern files: claim C10 *)
(* ===================================================================== *)

Section LinesFacts.

Lemma translate_other c text :
  Ascii.eqb c carriage_return = false ->
  translate (String c text) = String c (translate text).
Proof. intros H. cbn [translate]. now rewrite H. Qed.

Lemma while_line_end line result :
  while_line [] line result = while_line [nl] line result.
Proof. destruct line; reflexivity. Qed.

Lemma while_line_blank pending line result :
  while_line (nl :: pending) line result = while_line [] line result.
Proof. destruct line; [now destruct pending|]. simpl. now destruct pending. Qed.

(** C10. A pattern file whose second line is empty yields its first line
    only: whatever follows the empty line, comments or patterns, is never
    read, because the stripped empty line ends the [while line] loop as
    the end of the file does. *)
Theorem file_as_list_stops tail :
  file_as_list ("a" +:+ nl +:+ nl +:+ tail) = ["a"].
Proof.
  unfold file_as_list, readlines.
  change ("a" +:+ nl +:+ nl +:+ tail)
    with (String "a" (String newline (String newline tail))).
  rewrite !translate_other by reflexivity.
  cbn [split_lines]. change (Ascii.eqb "a" newline) with false.
  change (Ascii.eqb newline newline) with true. cbn iota.
  change (rstrip_newline (String "a" (String newline ""))) with "a".
  now rewrite while_line_blank.
Qed.

Lemma while_line_spec pending : forall line result,
  line <> "" ->
  while_line pending line result = result ++ List.filter kept (line :: until_blank pending).
Proof.
  induction pending as [|l pending IH]; intros line result Hline;
    destruct line as [|c line]; try congruence; cbn [while_line until_blank List.filter].
  - fold (kept (String c line)). now destruct (kept (String c line)); rewrite ?app_nil_r.
  - fold (kept (String c line)).
    destruct (rstrip_newline l) as [|c' l'] eqn:E.
    + destruct pending; cbn [while_line];
        now destruct (kept (String c line)); rewrite ?app_nil_r.
    + rewrite IH by discriminate.
      destruct (kept (String c line)); [|reflexivity].
      now rewrite <- app_assoc.
Qed.

(** X1.  What [file_as_list] returns: the lines it keeps (neither a
    comment nor white space only) among those before the first empty
    line, in order, each without its newline. *)
Lemma file_as_list_spec content :
  file_as_list content = List.filter kept (until_blank (readlines content)).
Proof.
  unfold file_as_list. destruct (readlines content) as [|l pending]; [reflexivity|].
  cbn [until_blank]. destruct (rstrip_newline l) as [|c l'] eqn:E.
  - now destruct pending.
  - now rewrite while_line_spec.
Qed.

End LinesFacts.

(* ===================================================================== *)
(** * Facts about the file system *)
(* ===================================================================== *)

Section PosixFacts.

Variable f : FS.

Lemma namei_nil links follow cur : namei f links follow cur [] = Some cur.
Proof. now destruct links. Qed.

Lemma namei_cons links follow cur seg rest :
  namei f links follow cur (seg :: rest) =
  if is_root seg then namei f links follow [] rest
  else if String.eqb seg ".." then namei f links follow (removelast cur) rest
  else
    match node_at f (cur ++ [seg]) with
    | Some (Symlink t) =>
        if follow || negb (is_nil rest) then
          match links with
          | 0 => None
          | S links' => namei f links' follow cur (t ++ rest)
          end
        else Some (cur ++ [seg])
    | Some Dir => namei f links follow (cur ++ [seg]) rest
    | Some (File _) | None => if is_nil rest then Some (cur ++ [seg]) else None
    end.
Proof. now destruct links. Qed.

(** [lstat] and [stat] walk the same way, except that [lstat] stops on a
    symbolic link in last position. *)
Lemma namei_nofollow links : forall todo cur,
  namei f links false cur todo = namei f links true cur todo
  \/ exists l t, namei f links false cur todo = Some l /\ node_at f l = Some (Symlink t).
Proof.
  induction links as [|n IHn]; induction todo as [|seg rest IH]; intros cur;
    rewrite ?namei_nil, ?namei_cons; auto.
  - destruct (is_root seg); [apply IH|].
    destruct (String.eqb seg ".."); [apply IH|].
    destruct (node_at f (cur ++ [seg])) as [[d| |t]|] eqn:E; auto.
    destruct rest; simpl; eauto.
  - destruct (is_root seg); [apply IH|].
    destruct (String.eqb seg ".."); [apply IH|].
    destruct (node_at f (cur ++ [seg])) as [[d| |t]|] eqn:E; auto.
    destruct rest; simpl; eauto.
Qed.

Lemma lstat_cases p :
  lstat f p = stat f p \/ exists t, lstat f p = Some (Symlink t).
Proof.
  unfold lstat, stat, resolve.
  destruct (namei_nofollow MAXSYMLINKS p (cwd f)) as [->|(l & t & -> & E)]; eauto.
Qed.

(** [target.exists() or target.is_symlink()] holds exactly when the name
    [target] is taken, by an entry of any kind. *)
Lemma exists_or_symlink p :
  path_exists f p || is_symlink f p = bool_decide (lstat f p <> None).
Proof.
  unfold path_exists, is_symlink.
  destruct (lstat_cases p) as [E|[t E]]; rewrite E.
  - rewrite <- E. destruct (lstat f p) as [[]|]; reflexivity.
  - now rewrite orb_true_r.
Qed.

Lemma is_dir_exists p : is_dir f p = true -> path_exists f p = true.
Proof. unfold is_dir, path_exists. now destruct (stat f p). Qed.

Lemma not_taken_no_stat p : lstat f p = None -> stat f p = None.
Proof. intros H. destruct (lstat_cases p) as [E|[t E]]; congruence. Qed.

End PosixFacts.

Section WriteFacts.

Lemma assoc_put l n ns l' :
  assoc l' (put l n ns) = if bool_decide (l = l') then Some n else assoc l' ns.
Proof.
  induction ns as [|[k m] ns IH]; simpl.
  - reflexivity.
  - destruct (bool_decide_reflect (k = l)) as [->|Hkl]; simpl.
    + now destruct (bool_decide (l = l')).
    + rewrite IH. destruct (bool_decide_reflect (k = l')) as [->|Hkl'].
      * now rewrite bool_decide_eq_false_2 by congruence.
      * reflexivity.
Qed.

Lemma node_at_write f l n l' :
  l <> [] ->
  node_at (write f l n) l' = if bool_decide (l = l') then Some n else node_at f l'.
Proof.
  intros Hl. destruct l' as [|x l'].
  - now rewrite bool_decide_eq_false_2.
  - apply assoc_put.
Qed.

(** Replacing the data of a regular file changes no resolution. *)
Lemma namei_write_file f l old data links : forall todo follow cur,
  node_at f l = Some (File old) ->
  namei (write f l (File data)) links follow cur todo = namei f links follow cur todo.
Proof.
  intros todo follow cur Hl.
  assert (l <> []) as Hne by (intros ->; discriminate).
  revert todo follow cur.
  induction links as [|n IHn]; induction todo as [|seg rest IH]; intros follow cur;
    rewrite ?namei_nil, ?namei_cons; auto.
  - rewrite !IH, node_at_write by assumption.
    case_bool_decide as E; [now rewrite <- E, Hl|reflexivity].
  - rewrite !IH, node_at_write by assumption.
    case_bool_decide as E; [now rewrite <- E, Hl|].
    destruct (node_at f (cur ++ [seg])) as [[]|]; try reflexivity.
    now rewrite IHn.
Qed.

Lemma stat_overwritten f l old data p :
  resolve f true p = Some l -> node_at f l = Some (File old) ->
  stat (write f l (File data)) p = Some (File data).
Proof.
  intros Hp Hl. unfold stat, resolve. cbn [cwd write].
  rewrite (namei_write_file _ _ old) by assumption.
  unfold resolve in Hp. rewrite Hp. cbn.
  rewrite node_at_write by (intros ->; discriminate).
  now rewrite bool_decide_eq_true_2.
Qed.

(** Taking a free name changes no [lstat] resolution that succeeded. *)
Lemma namei_write_fresh f l n links : forall todo cur l',
  node_at f l = None ->
  namei f links false cur todo = Some l' ->
  namei (write f l n) links false cur todo = Some l'.
Proof.
  intros todo cur l' Hl.
  assert (l <> []) as Hne by (intros ->; discriminate).
  revert todo cur l'.
  induction links as [|k IHk]; induction todo as [|seg rest IH]; intros cur l';
    rewrite ?namei_nil, ?namei_cons; auto.
  - destruct (is_root seg); [apply IH|].
    destruct (String.eqb seg ".."); [apply IH|].
    rewrite node_at_write by assumption.
    case_bool_decide as E.
    + rewrite <- E, Hl. destruct rest; [|discriminate]. intros [= <-].
      destruct n; rewrite ?namei_nil; reflexivity.
    + destruct (node_at f (cur ++ [seg])) as [[]|]; auto.
  - destruct (is_root seg); [apply IH|].
    destruct (String.eqb seg ".."); [apply IH|].
    rewrite node_at_write by assumption.
    case_bool_decide as E.
    + rewrite <- E, Hl. destruct rest; [|discriminate]. intros [= <-].
      destruct n; rewrite ?namei_nil; reflexivity.
    + destruct (node_at f (cur ++ [seg])) as [[]|]; auto.
      destruct (false || negb (is_nil rest)); auto.
Qed.

Lemma lstat_created f l n p :
  resolve f false p = Some l -> node_at f l = None ->
  lstat (write f l n) p = Some n.
Proof.
  intros Hp Hl. unfold lstat, resolve. cbn [cwd write].
  unfold resolve in Hp. rewrite (namei_write_fresh _ _ _ _ _ _ _ Hl Hp). cbn.
  rewrite node_at_write by (intros ->; discriminate).
  now rewrite bool_decide_eq_true_2.
Qed.

Lemma os_symlink_stored f stored p f' :
  os_symlink f stored p = Some f' -> lstat f' p = Some (Symlink stored).
Proof.
  unfold os_symlink. destruct (resolve f false p) as [l|] eqn:Hp; [|discriminate].
  destruct (node_at f l) eqn:Hl; [discriminate|]. intros [= <-].
  now apply lstat_created.
Qed.

Lemma os_mkdir_made f p f' :
  os_mkdir f p = Some f' -> lstat f' p = Some Dir.
Proof.
  unfold os_mkdir. destruct (resolve f false p) as [l|] eqn:Hp; [|discriminate].
  destruct (node_at f l) eqn:Hl; [discriminate|]. intros [= <-].
  now apply lstat_created.
Qed.

(** Resolution does not look at the data of regular files. *)
Lemma namei_data_blind f g links :
  (forall l, node_at g l = node_at f l
             \/ exists d d', node_at f l = Some (File d) /\ node_at g l = Some (File d')) ->
  forall todo follow cur, namei g links follow cur todo = namei f links follow cur todo.
Proof.
  intros H. induction links as [|n IHn]; induction todo as [|seg rest IH]; intros follow cur;
    rewrite ?namei_nil, ?namei_cons; auto.
  - rewrite !IH.
    destruct (H (cur ++ [seg])) as [->|(d & d' & -> & ->)]; reflexivity.
  - rewrite !IH.
    destruct (H (cur ++ [seg])) as [->|(d & d' & -> & ->)]; [|reflexivity].
    destruct (node_at f (cur ++ [seg])) as [[]|]; try reflexivity.
    now rewrite IHn.
Qed.

Lemma node_at_rewrite data g l l' :
  node_at (rewrite_at data g l) l' =
  match node_at g l' with
  | Some (File d) => Some (File (if bool_decide (l = l') then data else d))
  | x => x
  end.
Proof.
  unfold rewrite_at. destruct (decide (l = l')) as [<-|Hne].
  - rewrite bool_decide_eq_true_2 by reflexivity.
    destruct (node_at g l) as [[d| |t]|] eqn:E; rewrite ?E; try reflexivity.
    rewrite node_at_write by (intros ->; discriminate).
    now rewrite bool_decide_eq_true_2.
  - rewrite (bool_decide_eq_false_2 (l = l')) by exact Hne.
    destruct (node_at g l) as [[d| |t]|] eqn:E;
      try (now destruct (node_at g l') as [[]|]).
    rewrite node_at_write by (intros ->; discriminate).
    rewrite bool_decide_eq_false_2 by exact Hne.
    now destruct (node_at g l') as [[]|].
Qed.

Lemma node_at_fold_rewrite data names : forall g l',
  node_at (fold_left (rewrite_at data) names g) l' =
  match node_at g l' with
  | Some (File d) => Some (File (if bool_decide (l' ∈ names) then data else d))
  | x => x
  end.
Proof.
  induction names as [|k names IH]; intros g l'; cbn [fold_left].
  - now destruct (node_at g l') as [[]|].
  - rewrite IH, node_at_rewrite.
    destruct (node_at g l') as [[d| |t]|]; try reflexivity.
    do 2 f_equal.
    destruct (decide (k = l')) as [->|Hk].
    + rewrite (bool_decide_eq_true_2 (l' = l')) by reflexivity.
      rewrite (bool_decide_eq_true_2 (l' ∈ l' :: names)) by (now left).
      now destruct (bool_decide (l' ∈ names)).
    + rewrite (bool_decide_eq_false_2 (k = l')) by exact Hk.
      destruct (decide (l' ∈ names)) as [Hin|Hin].
      * rewrite (bool_decide_eq_true_2 (l' ∈ names)) by exact Hin.
        now rewrite (bool_decide_eq_true_2 (l' ∈ k :: names)) by (now right).
      * rewrite (bool_decide_eq_false_2 (l' ∈ names)) by exact Hin.
        rewrite (bool_decide_eq_false_2 (l' ∈ k :: names)); [reflexivity|].
        intros [E|E]%elem_of_cons; [now apply Hk|now apply Hin].
Qed.

Lemma cwd_fold_rewrite data names : forall g,
  cwd (fold_left (rewrite_at data) names g) = cwd g.
Proof.
  induction names as [|k names IH]; intros g; cbn [fold_left]; [reflexivity|].
  rewrite IH. unfold rewrite_at. now destruct (node_at g k) as [[]|].
Qed.

(** Without hard links, [shutil.copyfile] compares locations and writes
    one name. *)
Lemma shutil_copyfile_unshared f src dst :
  links f = [] ->
  shutil_copyfile f src dst =
  match resolve f true src, resolve f true dst with
  | Some ls, Some ld =>
      match node_at f ls with
      | Some (File data) =>
          if bool_decide (ls = ld) then None
          else match node_at f ld with
               | Some (File _) | None => Some (write f ld (File data))
               | Some _ => None
               end
      | _ => None
      end
  | _, _ => None
  end.
Proof.
  intros H. unfold shutil_copyfile, same_file, other_names. rewrite H.
  cbn [List.filter concat fold_left].
  destruct (resolve f true src) as [ls|]; [|reflexivity].
  destruct (resolve f true dst) as [ld|]; [|reflexivity].
  destruct (node_at f ls) as [[data| |t]|]; try reflexivity.
  rewrite (bool_decide_eq_false_2 (ld ∈ [])) by apply not_elem_of_nil.
  now rewrite orb_false_r.
Qed.

Lemma other_names_nil f l :
  (forall group, In group (links f) -> ~ l ∈ group) -> other_names f l = [].
Proof.
  unfold other_names. induction (links f) as [|g gs IH]; intros H; [reflexivity|].
  cbn [List.filter]. rewrite bool_decide_eq_false_2 by (apply H; now left).
  apply IH. intros group Hin. apply H. now right.
Qed.

Lemma other_names_elem f l x :
  x ∈ other_names f l -> exists group, In group (links f) /\ l ∈ group /\ x ∈ group.
Proof.
  unfold other_names. induction (links f) as [|g gs IH]; cbn [List.filter concat].
  - now intros H%not_elem_of_nil.
  - case_bool_decide as Hg.
    + cbn [concat]. intros [H|H]%elem_of_app.
      * exists g. repeat split; [now left|assumption|assumption].
      * destruct (IH H) as (group & Hin & Hl & Hx). exists group. split; [now right|auto].
    + intros H. destruct (IH H) as (group & Hin & Hl & Hx). exists group.
      split; [now right|auto].
Qed.

(** A destination that has one name only: [shutil.copyfile] compares
    locations and writes that name. *)
Lemma shutil_copyfile_single f src dst ld :
  resolve f true dst = Some ld -> other_names f ld = [] ->
  shutil_copyfile f src dst =
  match resolve f true src with
  | Some ls =>
      match node_at f ls with
      | Some (File data) =>
          if bool_decide (ls = ld) then None
          else match node_at f ld with
               | Some (File _) | None => Some (write f ld (File data))
               | Some _ => None
               end
      | _ => None
      end
  | None => None
  end.
Proof.
  intros Hd Hone. unfold shutil_copyfile, same_file. rewrite Hd, Hone.
  cbn [fold_left].
  destruct (resolve f true src) as [ls|]; [|reflexivity].
  destruct (node_at f ls) as [[data| |t]|]; try reflexivity.
  rewrite (bool_decide_eq_false_2 (ld ∈ other_names f ls)); [now rewrite orb_false_r|].
  intros (group & Hin & _ & Hx)%other_names_elem.
  assert (In group (List.filter (fun group => bool_decide (ld ∈ group)) (links f))) as Hf.
  { apply filter_In. split; [exact Hin|now apply bool_decide_eq_true_2]. }
  assert (ld ∈ other_names f ld) as H.
  { unfold other_names. apply list_elem_of_In, in_concat. exists group.
    split; [exact Hf|now apply list_elem_of_In]. }
  rewrite Hone in H. now apply not_elem_of_nil in H.
Qed.

Lemma unshared_other_names f T l :
  unshared f T = true -> T `prefix_of` l -> other_names f l = [].
Proof.
  intros H Hpre. apply other_names_nil. intros group Hin Hl.
  unfold unshared in H. rewrite forallb_forall in H. specialize (H group Hin).
  rewrite forallb_forall in H. apply list_elem_of_In in Hl. specialize (H l Hl).
  apply negb_true_iff, bool_decide_eq_false in H. now apply H.
Qed.

Lemma shutil_copyfile_overwrites f src dst ls ld old data :
  resolve f true src = Some ls -> node_at f ls = Some (File data) ->
  resolve f true dst = Some ld -> node_at f ld = Some (File old) ->
  same_file f ls ld = false ->
  exists f', shutil_copyfile f src dst = Some f' /\ stat f' dst = Some (File data).
Proof.
  intros Hs Hdata Hd Hold Hne. unfold shutil_copyfile. rewrite Hs, Hd, Hdata, Hne, Hold.
  eexists. split; [reflexivity|].
  assert (ld <> []) as Hld by (intros ->; discriminate).
  set (g := fold_left (rewrite_at data) (other_names f ld) (write f ld (File data))).
  assert (forall l, node_at g l =
            match node_at (write f ld (File data)) l with
            | Some (File d) =>
                Some (File (if bool_decide (l ∈ other_names f ld) then data else d))
            | x => x
            end) as Hg by (intros l; apply node_at_fold_rewrite).
  unfold stat, resolve.
  assert (cwd g = cwd f) as -> by (unfold g; now rewrite cwd_fold_rewrite).
  rewrite (namei_data_blind f g).
  - unfold resolve in Hd. rewrite Hd. cbn. rewrite Hg, node_at_write by exact Hld.
    rewrite bool_decide_eq_true_2 by reflexivity. now destruct (bool_decide _).
  - intros l. rewrite Hg, node_at_write by exact Hld.
    case_bool_decide as El.
    + subst l. right. rewrite Hold. eauto.
    + destruct (node_at f l) as [[d| |t]|]; auto. right. eauto.
Qed.

End WriteFacts.

(* ===================================================================== *)
(** * The executors: claims C5 and C6, and the executors call by call *)
(* ===================================================================== *)

(** Running a statement: unfold the monad and the primitive statements. *)
Ltac run :=
  cbv [mbind M_bind mret M_ret query print raise lift syscall completed
       Path_mkdir symlink_to link_to].

Section ExecutorFacts.

Context {regex : Type}.
Implicit Types (w : World regex) (src target path : Path).

Lemma DryRunExecutor_copy_cases src target w :
  DryRunExecutor_copy src target w =
  if is_dir (fs w) target
  then (Raise (DirectoryReplacementError (as_posix target)),
        printed w ("ERROR(copy): diretory " +:+ as_posix target +:+ " exists."))
  else (Return tt, printed w (report (ACopy src target))).
Proof.
  unfold DryRunExecutor_copy. run.
  destruct (is_dir (fs w) target) eqn:D.
  - now rewrite (is_dir_exists _ _ D).
  - now rewrite andb_false_r.
Qed.

Lemma LinkExecutor_copy_cases src target w :
  LinkExecutor_copy src target w =
  if is_dir (fs w) target
  then (Raise (DirectoryReplacementError (as_posix target)),
        printed w ("ERROR(copy): diretory " +:+ as_posix target +:+ " exists."))
  else match shutil_copyfile (fs w) src target with
       | Some f' => (Return tt, logged (with_fs w f') (ACopy src target))
       | None => (Raise OSError, w)
       end.
Proof.
  unfold LinkExecutor_copy. run.
  destruct (is_dir (fs w) target) eqn:D.
  - now rewrite (is_dir_exists _ _ D).
  - rewrite andb_false_r. now destruct (shutil_copyfile (fs w) src target).
Qed.

Lemma DryRunExecutor_link_cases src target w :
  DryRunExecutor_link src target w =
  if bool_decide (lstat (fs w) target <> None)
  then (Raise (FileReplacementError (as_posix target)),
        printed w ("ERROR(link): file " +:+ as_posix target +:+ " exists."))
  else (Return tt, printed w (report (ALink src target))).
Proof.
  unfold DryRunExecutor_link. run. rewrite exists_or_symlink.
  now destruct (bool_decide (lstat (fs w) target <> None)).
Qed.

Lemma LinkExecutor_link_cases hard src target w :
  LinkExecutor_link hard src target w =
  if bool_decide (lstat (fs w) target <> None)
  then (Raise (FileReplacementError (as_posix target)),
        printed w ("ERROR(link): file " +:+ as_posix target +:+ " exists."))
  else match relative_path (getcwd (fs w)) (parent target) src with
       | Raise e => (Raise e, w)
       | Return src' =>
           match (if hard then os_link (fs w) target src'
                  else os_symlink (fs w) src' target) with
           | Some f' => (Return tt, logged (with_fs w f') (ALink src target))
           | None => (Raise OSError, w)
           end
       end.
Proof.
  unfold LinkExecutor_link. run. rewrite exists_or_symlink.
  destruct (bool_decide (lstat (fs w) target <> None)); [reflexivity|].
  destruct (relative_path _ _ _) as [src'|e]; [|reflexivity].
  destruct hard.
  - now destruct (os_link (fs w) target src').
  - now destruct (os_symlink (fs w) src' target).
Qed.

Lemma DryRunExecutor_mkdir_cases path w :
  DryRunExecutor_mkdir path w =
  match stat (fs w) path with
  | Some Dir => (Return tt, w)
  | Some _ => (Raise (FileReplacementError (as_posix path)),
               printed w ("ERROR(mkdir) " +:+ as_posix path +:+ " exists"))
  | None => (Return tt, printed w (report (AMkdir path)))
  end.
Proof.
  unfold DryRunExecutor_mkdir. run. unfold path_exists, is_dir.
  destruct (stat (fs w) path) as [[]|] eqn:E; cbv beta iota; rewrite ?E; reflexivity.
Qed.

Lemma LinkExecutor_mkdir_cases path w :
  LinkExecutor_mkdir path w =
  match stat (fs w) path with
  | Some Dir => (Return tt, w)
  | Some _ => (Raise (FileReplacementError (as_posix path)),
               printed w ("ERROR(mkdir) " +:+ as_posix path +:+ " exists"))
  | None => match os_mkdir (fs w) path with
            | Some f' => (Return tt, logged (with_fs w f') (AMkdir path))
            | None => (Raise OSError, w)
            end
  end.
Proof.
  unfold LinkExecutor_mkdir. run. unfold path_exists, is_dir.
  destruct (stat (fs w) path) as [[]|] eqn:E; cbv beta iota; rewrite ?E; try reflexivity.
  now destruct (os_mkdir (fs w) path).
Qed.

(** A hard link is never made: [target.link_to(src)] asks the system to
    make [src] a link to [target], and [target] is known not to exist. *)
Lemma os_link_missing f src dst : lstat f src = None -> os_link f src dst = None.
Proof. unfold os_link. now intros ->. Qed.

Lemma stat_dir_taken (f : FS) p n : stat f p = Some n -> lstat f p <> None.
Proof. intros H E. apply not_taken_no_stat in E. congruence. Qed.

(** X16.  Made in one and the same world, a call of [mkdir], [link] or
    [copy] on the dry-run executor previews the same call on the mutating
    executor: both raise the same conflict with the same message, or both
    find the directory already there, or the dry run prints the action
    and the mutating executor either makes exactly the change that the
    action stands for ([os.mkdir(path)], a link at [target] to [src],
    [shutil.copyfile(src, target)]) and records it, or fails on an error
    of the system or of the interpreter, never on a conflict, and then
    changes nothing. *)
Theorem executors_agree_call_by_call (hard : bool) w :
  (forall path,
     previews hard w (AMkdir path)
       (DryRunExecutor_mkdir path w) (LinkExecutor_mkdir path w))
  /\ (forall src target,
     previews hard w (ALink src target)
       (DryRunExecutor_link src target w) (LinkExecutor_link hard src target w))
  /\ (forall src target,
     previews hard w (ACopy src target)
       (DryRunExecutor_copy src target w) (LinkExecutor_copy src target w)).
Proof.
  split; [|split].
  - intros path. rewrite DryRunExecutor_mkdir_cases, LinkExecutor_mkdir_cases.
    destruct (stat (fs w) path) as [[]|]; try (now constructor).
    destruct (os_mkdir (fs w) path) eqn:E; now constructor.
  - intros src target. rewrite DryRunExecutor_link_cases, LinkExecutor_link_cases.
    case_bool_decide as Htaken; [now constructor|].
    assert (lstat (fs w) target = None) as Hfree
      by (destruct (lstat (fs w) target); [elim Htaken; discriminate|reflexivity]).
    destruct (relative_path _ _ _) as [src'|e] eqn:E.
    + destruct hard.
      * rewrite (os_link_missing _ _ _ Hfree). now constructor.
      * destruct (os_symlink (fs w) src' target) eqn:El; [|now constructor].
        constructor. cbn [perform]. now rewrite E.
    + constructor. unfold relative_path in E.
      destruct src as [|s0 src]; [now inversion E|].
      destruct (String.eqb s0 "/"); [discriminate|].
      now destruct (strip_common _ _).
  - intros src target. rewrite DryRunExecutor_copy_cases, LinkExecutor_copy_cases.
    destruct (is_dir (fs w) target); [now constructor|].
    destruct (shutil_copyfile (fs w) src target) eqn:E; now constructor.
Qed.

(** C5.  With the hard-link flag set, [LinkExecutor.link] never returns:
    when the name [target] is free it calls [target.link_to(src)], which
    asks for [src] to become a hard link to [target], a file that does not
    exist; the call raises and the file system is left as it was.  No hard
    link is made at [target]. *)
Theorem hard_link_is_never_made src target w :
  exists e w',
    LinkExecutor_link true src target w = (Raise e, w')
    /\ fs w' = fs w /\ history w' = history w.
Proof.
  rewrite LinkExecutor_link_cases. case_bool_decide as E.
  - eauto.
  - assert (lstat (fs w) target = None) as Hfree
      by (destruct (lstat (fs w) target); [elim E; discriminate|reflexivity]).
    destruct (relative_path _ _ _) as [src'|e]; [|eauto].
    rewrite (os_link_missing _ _ _ Hfree). eauto.
Qed.

(** X5.  [link] refuses a name that is taken, and only then: in both
    executors it raises [FileReplacementError] with the same message
    exactly when [lstat(target)] succeeds, that is when the name belongs
    to an entry of any kind, a dangling symbolic link included. *)
Lemma link_refuses_taken_name hard src target w :
  let refusal :=
    (Raise (FileReplacementError (as_posix target)),
     printed w ("ERROR(link): file " +:+ as_posix target +:+ " exists.")) in
  (lstat (fs w) target <> None ->
     DryRunExecutor_link src target w = refusal
     /\ LinkExecutor_link hard src target w = refusal)
  /\ (lstat (fs w) target = None ->
     (forall arg, fst (DryRunExecutor_link src target w) <> Raise (FileReplacementError arg))
     /\ (forall arg, fst (LinkExecutor_link hard src target w) <> Raise (FileReplacementError arg))).
Proof.
  cbv zeta. rewrite DryRunExecutor_link_cases, LinkExecutor_link_cases. split.
  - intros H. now rewrite bool_decide_eq_true_2.
  - intros H. rewrite bool_decide_eq_false_2 by congruence. split; intros arg; [discriminate|].
    destruct (relative_path _ _ _) as [src'|e] eqn:E.
    + destruct (if hard then _ else _); discriminate.
    + unfold relative_path in E. destruct src as [|s0 src]; [now inversion E|].
      destruct (String.eqb s0 "/"); [discriminate|]. now destruct (strip_common _ _).
Qed.

(** X6.  When [LinkExecutor.link] returns without [--hard-links], the
    name was free and is now a symbolic link; the path stored in it is
    [relative_path(target.parent, src)], and nothing else is recorded as
    done. *)
Lemma symbolic_link_stores_relative_path src target w w' :
  LinkExecutor_link false src target w = (Return tt, w') ->
  exists src',
    relative_path (getcwd (fs w)) (parent target) src = Return src'
    /\ lstat (fs w) target = None
    /\ lstat (fs w') target = Some (Symlink src')
    /\ history w' = history w ++ [ALink src target].
Proof.
  rewrite LinkExecutor_link_cases. case_bool_decide as E; [discriminate|].
  destruct (relative_path _ _ _) as [src'|e]; [|discriminate].
  destruct (os_symlink (fs w) src' target) as [f'|] eqn:Hs; [|discriminate].
  intros [= <-]. exists src'. repeat split.
  - destruct (lstat (fs w) target); [elim E; discriminate|reflexivity].
  - apply (os_symlink_stored _ _ _ _ Hs).
Qed.

(** C6, as amended.  In both executors [copy] raises
    [DirectoryReplacementError] when the target is a directory.  When the
    target exists as a regular file ([stat] follows links), no
    executor sees a conflict: the dry run reports the copy, and the
    mutating executor either returns with nothing printed or fails in
    [shutil.copyfile] with an [OSError], which is not a conflict.  It
    returns, with the target holding the data of the source, whenever
    the source leads to a regular file that is not the file of the target
    (not the same name, and not another name of the same file).  [link]
    on the same target raises [FileReplacementError] in both executors. *)
Theorem copy_refuses_directory_overwrites_file hard src target w :
  (is_dir (fs w) target = true ->
     let refusal :=
       (Raise (DirectoryReplacementError (as_posix target)),
        printed w ("ERROR(copy): diretory " +:+ as_posix target +:+ " exists.")) in
     DryRunExecutor_copy src target w = refusal
     /\ LinkExecutor_copy src target w = refusal)
  /\ (forall old, stat (fs w) target = Some (File old) ->
     DryRunExecutor_copy src target w = (Return tt, printed w (report (ACopy src target)))
     /\ ((exists w', LinkExecutor_copy src target w = (Return tt, w')
                     /\ stdout w' = stdout w)
         \/ LinkExecutor_copy src target w = (Raise OSError, w))
     /\ (forall ls lt data,
           resolve (fs w) true src = Some ls -> node_at (fs w) ls = Some (File data) ->
           resolve (fs w) true target = Some lt -> same_file (fs w) ls lt = false ->
           exists w', LinkExecutor_copy src target w = (Return tt, w')
                      /\ stat (fs w') target = Some (File data)
                      /\ stdout w' = stdout w)
     /\ fst (DryRunExecutor_link src target w) = Raise (FileReplacementError (as_posix target))
     /\ fst (LinkExecutor_link hard src target w) = Raise (FileReplacementError (as_posix target))).
Proof.
  rewrite DryRunExecutor_copy_cases, LinkExecutor_copy_cases. split.
  - now intros ->.
  - intros old Hold.
    assert (is_dir (fs w) target = false) as -> by (unfold is_dir; now rewrite Hold).
    split; [reflexivity|]. split; [|split].
    + destruct (shutil_copyfile (fs w) src target) as [f'|]; [left|now right].
      eexists. split; reflexivity.
    + intros ls lt data Hs Hdata Ht Hne.
      assert (node_at (fs w) lt = Some (File old)) as Hlt
        by (unfold stat in Hold; now rewrite Ht in Hold).
      destruct (shutil_copyfile_overwrites _ _ _ _ _ _ _ Hs Hdata Ht Hlt Hne)
        as (f' & -> & Hf').
      eexists. split; [reflexivity|]. now split.
    + rewrite DryRunExecutor_link_cases, LinkExecutor_link_cases.
      rewrite bool_decide_eq_true_2 by (now apply (stat_dir_taken _ _ (File old))).
      now split.
Qed.

End ExecutorFacts.

Lemma copy_refuses_directory_overwrites_file_witness :
  (fst (DryRunExecutor_copy ["in"; "f"] ["out"; "d"] (@boot Mini.regex two_files))
     = Raise (DirectoryReplacementError "out/d")
   /\ fst (LinkExecutor_copy ["in"; "f"] ["out"; "d"] (@boot Mini.regex two_files))
     = Raise (DirectoryReplacementError "out/d"))
  /\ stat two_files ["out"; "f"] = Some (File "old")
  /\ fst (DryRunExecutor_copy ["in"; "f"] ["out"; "f"] (@boot Mini.regex two_files)) = Return tt
  /\ exists w', LinkExecutor_copy ["in"; "f"] ["out"; "f"] (@boot Mini.regex two_files) = (Return tt, w')
                /\ stat (fs w') ["out"; "f"] = Some (File "new")
                /\ stdout w' = [].
Proof.
  pose proof (copy_refuses_directory_overwrites_file false ["in"; "f"] ["out"; "d"]
                (@boot Mini.regex two_files)) as [Hdir _].
  pose proof (copy_refuses_directory_overwrites_file false ["in"; "f"] ["out"; "f"]
                (@boot Mini.regex two_files)) as [_ Hfile].
  specialize (Hdir eq_refl). cbv zeta in Hdir. destruct Hdir as [Hd1 Hd2].
  destruct (Hfile "old" eq_refl) as (Hf1 & _ & Hf2 & _).
  split; [split; [now rewrite Hd1|now rewrite Hd2]|].
  split; [reflexivity|]. split; [now rewrite Hf1|].
  apply (Hf2 ["w"; "in"; "f"] ["w"; "out"; "f"] "new"); reflexivity.
Defined.

(** The counterexample of claim C6.  The target [out/f] is a symbolic
    link to the source [in/f], as a run without the copy pattern left
    it: it exists as a regular file, and [shutil.copyfile] raises
    [SameFileError] instead of overwriting it. *)
Lemma copy_onto_own_link_raises : ~ @copy_overwrites_regular_file Mini.regex.
Proof.
  intros H.
  destruct (H ["in"; "f"] ["out"; "f"] (boot relinked) "data" eq_refl) as [w' Hw'].
  assert (fst (LinkExecutor_copy ["in"; "f"] ["out"; "f"] (@boot Mini.regex relinked))
          = Raise OSError) as Hraise by (vm_compute; reflexivity).
  rewrite Hw' in Hraise. discriminate Hraise.
Qed.

(* ===================================================================== *)
(** * The tree walker: claims C1, C2 and C9 *)
(* ===================================================================== *)

Section WalkerFacts.

Context {regex : Type}.
Variable re_match : regex -> string -> bool.
Implicit Types (w : World regex) (executor : Executor regex) (args : Args.Namespace).

(** Every entry that [iterdir] yields below the source has a sub-path. *)
Lemma remove_front_dir_returns root rel :
  rel <> [] -> exists sub, remove_front_dir root (root ++ rel) = Return sub.
Proof.
  intros Hne. unfold remove_front_dir. rewrite strip_common_prefix.
  destruct rel as [|r0 rel]; [congruence|].
  destruct (String.eqb r0 "/"); eauto.
Qed.

(** The decisions of the loop body, in the order the code takes them. *)
Lemma visit_cases executor args crs irs recurse item sub w :
  remove_front_dir (Args.source args) item = Return sub ->
  visit re_match executor args crs irs recurse item w =
  if any_match re_match irs (as_posix item) then (Return tt, w)
  else if is_dir (fs w) item then
    if path_eqb item (Args.destination args) then (Return tt, w)
    else (mkdir executor (joinpath (Args.destination args) sub);; recurse item) w
  else leaf executor (any_match re_match crs (as_posix item)) item
         (joinpath (Args.destination args) sub) w.
Proof.
  intros Hsub. unfold visit. run. rewrite Hsub.
  destruct (any_match re_match irs (as_posix item)); [reflexivity|].
  destruct (is_dir (fs w) item); [|reflexivity].
  now destruct (path_eqb item (Args.destination args)).
Qed.

(** The decision does not depend on the executor: a dry run and a real
    run that reach an entry in the same world treat it alike. *)
Lemma visit_skips_alike executor executor' args crs irs recurse recurse' item sub w :
  remove_front_dir (Args.source args) item = Return sub ->
  any_match re_match irs (as_posix item) = true
  \/ (is_dir (fs w) item = true /\ item = Args.destination args) ->
  visit re_match executor args crs irs recurse item w
  = visit re_match executor' args crs irs recurse' item w.
Proof.
  intros Hsub H. rewrite !(visit_cases _ _ _ _ _ _ _ _ Hsub).
  destruct H as [->|[-> ->]]; [reflexivity|].
  unfold path_eqb. rewrite bool_decide_eq_true_2 by reflexivity.
  now destruct (any_match re_match irs _).
Qed.

(** C9.  An entry below the source root whose full path, as a string,
    matches one of the ignore patterns leaves the world untouched:
    whatever its kind, whatever the copy patterns, nothing is made, linked
    or copied for it and the walker does not recurse into it. *)
Theorem ignored_entry_is_skipped executor args crs irs recurse rel w :
  rel <> [] ->
  any_match re_match irs (as_posix (Args.source args ++ rel)) = true ->
  visit re_match executor args crs irs recurse (Args.source args ++ rel) w = (Return tt, w).
Proof.
  intros Hrel Hig.
  destruct (remove_front_dir_returns (Args.source args) rel Hrel) as [sub Hsub].
  now rewrite (visit_cases _ _ _ _ _ _ _ _ Hsub), Hig.
Qed.

(** C1, as amended.  An entry that is a symbolic link and is not ignored
    is handled after what it resolves to: when [is_dir] follows it to a
    directory, the walker makes the target directory and recurses into the
    entry (or passes over it when the entry is the destination root); when
    it resolves to anything else, or to nothing, the entry is copied or
    linked as a leaf. *)
Theorem symlink_entry_follows_its_target executor args crs irs recurse item sub w :
  remove_front_dir (Args.source args) item = Return sub ->
  any_match re_match irs (as_posix item) = false ->
  is_symlink (fs w) item = true ->
  visit re_match executor args crs irs recurse item w =
  if is_dir (fs w) item then
    if path_eqb item (Args.destination args) then (Return tt, w)
    else (mkdir executor (joinpath (Args.destination args) sub);; recurse item) w
  else leaf executor (any_match re_match crs (as_posix item)) item
         (joinpath (Args.destination args) sub) w.
Proof.
  intros Hsub Hig _. now rewrite (visit_cases _ _ _ _ _ _ _ _ Hsub), Hig.
Qed.

(** C2, as amended.  A directory entry that is equal to the destination
    root is passed over: no directory is made for it, the walker does not
    recurse into it, and it is neither linked nor copied. *)
Theorem destination_root_is_passed_over executor args crs irs recurse item sub w :
  remove_front_dir (Args.source args) item = Return sub ->
  is_dir (fs w) item = true ->
  item = Args.destination args ->
  visit re_match executor args crs irs recurse item w = (Return tt, w).
Proof.
  intros Hsub Hd ->. rewrite (visit_cases _ _ _ _ _ _ _ _ Hsub), Hd.
  unfold path_eqb. rewrite bool_decide_eq_true_2 by reflexivity.
  now destruct (any_match re_match irs _).
Qed.

End WalkerFacts.

Lemma ignored_entry_is_skipped_witness :
  let args := Args.mkArgs ["in"] ["out"] false [[ignore_pattern]] [] [[ignore_pattern]] [] false in
  let item := ["in"; "dir-a"; "ignore-file-a"] in
  any_match Mini.matches ignore_re (as_posix item) = true
  /\ forall recurse,
       visit Mini.matches (the_executor args) args ignore_re ignore_re recurse item
         (boot (with_out fixture))
       = (Return tt, boot (with_out fixture)).
Proof.
  cbv zeta. split; [reflexivity|]. intros recurse.
  apply (ignored_entry_is_skipped Mini.matches _
           (Args.mkArgs ["in"] ["out"] false [[ignore_pattern]] [] [[ignore_pattern]] [] false)
           ignore_re ignore_re recurse ["dir-a"; "ignore-file-a"]).
  - discriminate.
  - reflexivity.
Defined.

(** In [linked_dir] the entry [in/lnk] is a symbolic link, and the walker
    makes the directory [out/lnk] and walks [in/lnk]. *)
Lemma symlink_entry_follows_its_target_witness :
  let args := plain ["in"] ["out"] false false in
  let recurse := fun item => Mini.create_links 5 args (Some item) in
  is_symlink linked_dir ["in"; "lnk"] = true
  /\ visit Mini.matches (LinkExecutor false) args [] [] recurse ["in"; "lnk"] (boot linked_dir)
     = (mkdir (LinkExecutor false) ["out"; "lnk"];; recurse ["in"; "lnk"]) (boot linked_dir).
Proof.
  cbv zeta. split; [reflexivity|].
  exact (symlink_entry_follows_its_target Mini.matches (LinkExecutor false)
           (plain ["in"] ["out"] false false) [] []
           (fun item => Mini.create_links 5 (plain ["in"] ["out"] false false) (Some item))
           ["in"; "lnk"] ["lnk"] (boot linked_dir) eq_refl eq_refl eq_refl).
Defined.

Lemma destination_root_is_passed_over_witness :
  let args := plain ["in"] ["in"; "out"] false false in
  is_dir nested ["in"; "out"] = true
  /\ forall recurse,
       visit Mini.matches (LinkExecutor false) args [] [] recurse ["in"; "out"] (boot nested)
       = (Return tt, boot nested).
Proof.
  cbv zeta. split; [reflexivity|]. intros recurse.
  exact (destination_root_is_passed_over Mini.matches (LinkExecutor false)
           (plain ["in"] ["in"; "out"] false false) [] [] recurse
           ["in"; "out"] ["out"] (boot nested) eq_refl eq_refl eq_refl).
Defined.

(** In [linked_dir] the link [in/lnk] is not made a link in [out]: a
    directory [out/lnk] is made and filled. *)
Lemma symlink_to_directory_is_walked : ~ symlinks_are_leaves Mini.matches.
Proof.
  intros H.
  pose (args := plain ["in"] ["out"] false false).
  specialize (H (LinkExecutor false) args [] []
                (fun item => Mini.create_links 5 args (Some item))
                ["in"; "lnk"] ["lnk"] (boot linked_dir)
                eq_refl eq_refl eq_refl).
  apply (f_equal (fun r => history (snd r))) in H.
  vm_compute in H. discriminate H.
Qed.

Example linked_dir_run :
  history (snd (Mini.create_links 5 (plain ["in"] ["out"] false false) None (boot linked_dir)))
  = [ AMkdir ["out"; "d"]; ALink ["in"; "d"; "f"] ["out"; "d"; "f"];
      AMkdir ["out"; "lnk"]; ALink ["in"; "lnk"; "f"] ["out"; "lnk"; "f"] ].
Proof. vm_compute. reflexivity. Qed.

(** In [nested] the entry [in/out] is the destination root: a leaf would
    be linked as [in/out/out], the walker does nothing. *)
Lemma destination_root_is_not_linked : ~ destination_root_is_leaf Mini.matches.
Proof.
  intros H.
  pose (args := plain ["in"] ["in"; "out"] false false).
  specialize (H (LinkExecutor false) args [] []
                (fun item => Mini.create_links 5 args (Some item))
                ["in"; "out"] ["out"] (boot nested)
                eq_refl eq_refl eq_refl eq_refl).
  apply (f_equal (fun r => history (snd r))) in H.
  vm_compute in H. discriminate H.
Qed.

(* ===================================================================== *)
(** * Dry run against real run: the counterexample of claim C4 *)
(* ===================================================================== *)


Example above_runs :
  let args := plain ["in"; "sub"] ["in"] false in
  let '(rd, wd) := Mini.create_links 10 (args true) None (boot above) in
  let '(rr, wr) := Mini.create_links 10 (args false) None (boot above) in
  rd = Return tt /\ rr = Return tt
  /\ stdout wd = ["link in/sub/sub/d/f in/sub/d/f"; "mkdir in/d"]
  /\ history wr = [ ALink ["in"; "sub"; "sub"; "d"; "f"] ["in"; "sub"; "d"; "f"];
                    AMkdir ["in"; "d"];
                    ALink ["in"; "sub"; "d"; "f"] ["in"; "d"; "f"] ].
Proof. vm_compute. repeat split. Qed.

(** Two more ways in which the runs part.  A dangling symbolic link where
    a directory is to be made: [exists()] is false, the dry run reports
    the [mkdir], the real [mkdir] fails.  A relative destination inside an
    absolute source: the entry [/w/in/out] is not recognised as the
    destination [in/out], and the real run walks into what it makes until
    the depth of calls is used up. *)
Example dangling_runs :
  let args := plain ["in"] ["out"] false in
  let '(rd, wd) := Mini.create_links 10 (args true) None (boot dangling) in
  let '(rr, wr) := Mini.create_links 10 (args false) None (boot dangling) in
  rd = Return tt /\ stdout wd = ["mkdir out/a"]
  /\ rr = Raise OSError /\ history wr = [] /\ fs wr = dangling.
Proof. vm_compute. repeat split. Qed.

Example nested_absolute_runs :
  let args := plain ["/"; "w"; "in"] ["in"; "out"] false in
  let '(rd, wd) := Mini.create_links 10 (args true) None (boot nested) in
  let '(rr, wr) := Mini.create_links 10 (args false) None (boot nested) in
  rd = Return tt /\ stdout wd = ["mkdir in/out/out"]
  /\ rr = Raise RecursionError /\ length (history wr) = 10.
Proof. vm_compute. repeat split. Qed.

(** In [twin] the destination holds a second name of a file of the
    source.  Copying the file onto that name is refused by
    [shutil.copyfile] ([SameFileError]); copying another file onto it
    changes the file under both names, the one in the source included.
    A dry run reports the copy in both cases. *)
Example copy_onto_second_name :
  let w := @boot Mini.regex twin in
  DryRunExecutor_copy ["in"; "f"] ["out"; "f"] w = (Return tt, printed w "copy in/f out/f")
  /\ LinkExecutor_copy ["in"; "f"] ["out"; "f"] w = (Raise OSError, w).
Proof. vm_compute. split; reflexivity. Qed.

Example copy_reaches_every_name :
  let w' := snd (LinkExecutor_copy ["in"; "g"] ["out"; "f"] (@boot Mini.regex twin)) in
  lstat (fs w') ["out"; "f"] = Some (File "new")
  /\ lstat (fs w') ["in"; "f"] = Some (File "new").
Proof. vm_compute. split; reflexivity. Qed.

Example twin_runs :
  let args := Args.mkArgs ["in"] ["out"] false [[".*f"]] [] [] [] in
  let '(rd, wd) := Mini.create_links 10 (args true) None (boot twin) in
  let '(rr, wr) := Mini.create_links 10 (args false) None (boot twin) in
  rd = Return tt /\ stdout wd = ["copy in/f out/f"; "link in/g out/g"]
  /\ rr = Raise OSError /\ history wr = [] /\ fs wr = twin.
Proof. vm_compute. repeat split. Qed.

(* ===================================================================== *)
(** * The cache: claim C3 *)
(* ===================================================================== *)

Create HintDb forward.

Section CacheFacts.

Context {regex : Type}.
Variable re_compile : string -> option regex.
Variable re_match : regex -> string -> bool.
Implicit Types (w : World regex) (args : Args.Namespace).

Lemma later_refl w : later w w.
Proof. split; [exists []; now rewrite app_nil_r|auto]. Qed.

Lemma later_trans w1 w2 w3 : later w1 w2 -> later w2 w3 -> later w1 w3.
Proof.
  intros [[m1 H1] K1] [[m2 H2] K2]. split; [|auto].
  exists (m1 ++ m2). now rewrite H2, H1, app_assoc.
Qed.

Lemma forward_bind {A B} (m : M regex A) (k : A -> M regex B) :
  forward regex m -> (forall a, forward regex (k a)) -> forward regex (m ≫= k).
Proof.
  intros Hm Hk w. unfold mbind, M_bind. specialize (Hm w).
  destruct (m w) as [[a|e] w']; [|exact Hm].
  exact (later_trans _ _ _ Hm (Hk a w')).
Qed.

Lemma forward_same {A} (m : M regex A) :
  (forall w, cache (snd (m w)) = cache w /\ cache_log (snd (m w)) = cache_log w) ->
  forward regex m.
Proof.
  intros H w. destruct (H w) as [Hc Hl]. split.
  - exists []. now rewrite Hl, app_nil_r.
  - unfold tested_keys_absent. now rewrite Hc.
Qed.

Lemma forward_ret {A} (a : A) : forward regex (mret a : M regex A).
Proof. intros w. apply later_refl. Qed.

Lemma forward_raise {A} e : forward regex (raise e : M regex A).
Proof. intros w. apply later_refl. Qed.

Lemma forward_lift {A} (r : result A) : forward regex (lift r : M regex A).
Proof. intros w. apply later_refl. Qed.

Lemma forward_query {A} (q : FS -> A) : forward regex (query q : M regex A).
Proof. intros w. apply later_refl. Qed.

Lemma forward_print line : forward regex (print line : M regex unit).
Proof. now apply forward_same. Qed.

Lemma forward_completed a : forward regex (completed a : M regex unit).
Proof. now apply forward_same. Qed.

Lemma forward_syscall c : forward regex (syscall c : M regex unit).
Proof. apply forward_same. intros w. unfold syscall. now destruct (c (fs w)). Qed.

Lemma forward_cache_get : forward regex (cache_get : M regex _).
Proof. intros w. apply later_refl. Qed.

Lemma forward_cache_set key value :
  key <> "cl.cp" -> key <> "cl.ignore" -> forward regex (cache_set key value : M regex unit).
Proof.
  intros H1 H2 w. split; [now exists [key]|].
  intros [? ?]. split; cbn; now rewrite lookup_insert_ne.
Qed.

Lemma forward_if {A} (b : bool) (m1 m2 : M regex A) :
  forward regex m1 -> forward regex m2 -> forward regex (if b then m1 else m2).
Proof. now destruct b. Qed.

#[local] Hint Resolve forward_ret forward_raise forward_lift forward_query forward_print
  forward_completed forward_syscall forward_cache_get : forward.

Ltac forward :=
  repeat match goal with
    | |- forward _ (mbind _ _) => apply forward_bind; [|intros ?]
    | |- forward _ (if _ then _ else _) => apply forward_if
    | |- forward _ _ => solve [auto with forward]
    end.

Lemma forward_executor (e : Executor regex) :
  e = DryRunExecutor \/ (exists hard, e = LinkExecutor hard) ->
  (forall path, forward regex (mkdir e path))
  /\ (forall src target, forward regex (link e src target))
  /\ (forall src target, forward regex (copy e src target)).
Proof.
  intros [->|[hard ->]]; (split; [|split]); intros;
    cbn [mkdir link copy DryRunExecutor LinkExecutor].
  - unfold DryRunExecutor_mkdir. forward.
  - unfold DryRunExecutor_link. forward.
  - unfold DryRunExecutor_copy. forward.
  - unfold LinkExecutor_mkdir, Path_mkdir. forward.
  - unfold LinkExecutor_link, link_to, symlink_to. forward.
  - unfold LinkExecutor_copy. forward.
Qed.

Lemma forward_the_executor args :
  (forall path, forward regex (mkdir (the_executor args) path))
  /\ (forall src target, forward regex (link (the_executor args) src target))
  /\ (forall src target, forward regex (copy (the_executor args) src target)).
Proof.
  apply forward_executor. unfold the_executor.
  destruct (Args.dry_run args); eauto.
Qed.

Lemma forward_for_each {A} (l : list A) (body : A -> M regex unit) :
  (forall x, forward regex (body x)) -> forward regex (for_each l body).
Proof.
  intros Hb. induction l as [|x l IH]; cbn [for_each]; [apply forward_ret|].
  apply forward_bind; auto.
Qed.

Lemma forward_compile_all patterns : forward regex (compile_all re_compile patterns).
Proof. unfold compile_all. destruct (mapM re_compile patterns); auto with forward. Qed.

Lemma forward_cached_copy args : forward regex (cached_copy_files_re re_compile args).
Proof.
  unfold cached_copy_files_re. apply forward_bind; [auto with forward|]. intros c.
  destruct (c !! "cl.cp"); [auto with forward|].
  apply forward_bind; [apply forward_compile_all|]. intros l.
  apply forward_bind; [now apply forward_cache_set|auto with forward].
Qed.

Lemma forward_cached_ignore args : forward regex (cached_ignore_files_re re_compile args).
Proof.
  unfold cached_ignore_files_re. apply forward_bind; [auto with forward|]. intros c.
  destruct (c !! "cl.ignore"); [auto with forward|].
  apply forward_bind; [apply forward_compile_all|]. intros l.
  apply forward_bind; [now apply forward_cache_set|auto with forward].
Qed.

Lemma forward_visit args crs irs recurse item :
  (forall p, forward regex (recurse p)) ->
  forward regex (visit re_match (the_executor args) args crs irs recurse item).
Proof.
  intros Hrec. destruct (forward_the_executor args) as (Hm & Hl & Hc).
  unfold visit, leaf. forward; auto.
Qed.

Lemma forward_create_links depth : forall args path,
  forward regex (create_links re_compile re_match depth args path).
Proof.
  induction depth as [|depth IH]; intros args path; cbn [create_links];
    [apply forward_raise|].
  apply forward_bind; [apply forward_cached_copy|]. intros crs.
  apply forward_bind; [apply forward_cached_ignore|]. intros irs.
  apply forward_bind; [auto with forward|]. intros [items|]; [|apply forward_raise].
  apply forward_for_each. intros item. apply forward_visit. intros p. apply IH.
Qed.

(** The start of a call: both tests on [cache] succeed, both lists are
    compiled and both entries assigned. *)
Lemma create_links_prologue depth args path w cp ig :
  tested_keys_absent w ->
  mapM re_compile (concat (Args.copy args) ++ Args.copy_list_file args) = Some cp ->
  mapM re_compile (concat (Args.ignore args) ++ Args.ignore_list_file args) = Some ig ->
  create_links re_compile re_match (S depth) args path w =
  (listing ← query (fun f => iterdir f (default (Args.source args) path));
   match listing with
   | None => raise OSError
   | Some items =>
       for_each items
         (visit re_match (the_executor args) args cp ig
            (fun item => create_links re_compile re_match depth args (Some item)))
   end) (assigned (assigned w "cl.cp_re" cp) "cl.ignore_re" ig).
Proof.
  intros [Hcp Hig] Hc Hi. cbn [create_links].
  unfold cached_copy_files_re, cached_ignore_files_re, compile_all, cache_get, cache_set.
  cbv [mbind M_bind mret M_ret]. rewrite Hcp, Hc. cbn [cache assigned].
  rewrite lookup_insert_ne by discriminate. rewrite Hig, Hi. reflexivity.
Qed.

(** X13.  Every call of [create_links] that is made while the tested keys are
    absent, as they are when the process starts and ever after, compiles
    the patterns and assigns both entries of [cache]. *)
Lemma every_call_assigns_the_cache depth args path w cp ig :
  tested_keys_absent w ->
  mapM re_compile (concat (Args.copy args) ++ Args.copy_list_file args) = Some cp ->
  mapM re_compile (concat (Args.ignore args) ++ Args.ignore_list_file args) = Some ig ->
  let w' := snd (create_links re_compile re_match (S depth) args path w) in
  (exists more, cache_log w' = cache_log w ++ ["cl.cp_re"; "cl.ignore_re"] ++ more)
  /\ tested_keys_absent w'.
Proof.
  intros Habs Hc Hi w'.
  destruct (forward_create_links (S depth) args path w) as [_ Hkeep].
  split; [|now apply Hkeep].
  subst w'. rewrite (create_links_prologue _ _ _ _ _ _ Habs Hc Hi).
  set (rest := mbind _ _).
  assert (forward regex rest) as Hrest.
  { subst rest. apply forward_bind; [auto with forward|]. intros [items|]; [|apply forward_raise].
    apply forward_for_each. intros item. apply forward_visit. intros p.
    apply forward_create_links. }
  destruct (Hrest (assigned (assigned w "cl.cp_re" cp) "cl.ignore_re" ig)) as [[more Hmore] _].
  exists more. rewrite Hmore. cbn [cache_log assigned]. now rewrite <- !app_assoc.
Qed.

End CacheFacts.

(** C3.  On the tree of the test fixture [create_links] is called three
    times, once for [in] and once for each of [in/dir-a] and [in/dir-b]:
    the two entries of [cache] are assigned three times each, the last two
    times by recursive calls. *)
Theorem recursive_calls_assign_cache_again :
  let args := Args.mkArgs ["in"] ["out"] false [] [] [[ignore_pattern]] [] false in
  cache_log (snd (Mini.create_links 10 args None (boot (with_out fixture))))
  = ["cl.cp_re"; "cl.ignore_re"; "cl.cp_re"; "cl.ignore_re"; "cl.cp_re"; "cl.ignore_re"].
Proof. vm_compute. reflexivity. Qed.

Lemma every_call_assigns_the_cache_witness :
  let args := Args.mkArgs ["in"] ["out"] false [] [] [[ignore_pattern]] [] false in
  let w := boot (with_out fixture) in
  let w' := snd (Mini.create_links 10 args None w) in
  tested_keys_absent w
  /\ (exists more, cache_log w' = cache_log w ++ ["cl.cp_re"; "cl.ignore_re"] ++ more)
  /\ tested_keys_absent w'.
Proof.
  cbv zeta. split; [split; reflexivity|].
  apply (every_call_assigns_the_cache Mini.compile Mini.matches 9
           (Args.mkArgs ["in"] ["out"] false [] [] [[ignore_pattern]] [] false)
           None (boot (with_out fixture)) [] ignore_re).
  - split; reflexivity.
  - reflexivity.
  - reflexivity.
Defined.

(* ===================================================================== *)
(** * Path arithmetic: what is left of a path, and the way between two *)
(* ===================================================================== *)

Section MoreArithFacts.

Lemma strip_common_app c a b : strip_common (c ++ a) (c ++ b) = strip_common a b.
Proof. induction c as [|x c IH]; [reflexivity|]. cbn. now rewrite String.eqb_refl. Qed.

Lemma strip_common_apart a b :
  hd_error a <> hd_error b -> strip_common a b = (a, b).
Proof.
  destruct a as [|x a], b as [|y b]; try reflexivity. cbn.
  destruct (String.eqb_spec x y) as [->|_]; [now intros H; elim H|reflexivity].
Qed.

(** X2. [remove_front_dir] does not ask that [item] lies below
    [head_path]: it drops the longest run of leading parts the two have
    in common, and returns what is left of [item], if anything is left. *)
Theorem remove_front_dir_strips_common_prefix c root' rest :
  rest <> [] -> forallb wf_seg rest = true -> hd_error root' <> hd_error rest ->
  remove_front_dir (c ++ root') (c ++ rest) = Return rest.
Proof.
  intros Hne Hwf Hhd. unfold remove_front_dir.
  rewrite strip_common_app, (strip_common_apart _ _ Hhd).
  destruct rest as [|r0 rest]; [congruence|].
  pose proof Hwf as Hwf'. simpl in Hwf'. apply andb_prop in Hwf' as [H0 _].
  rewrite (wf_seg_not_slash _ H0). now rewrite PosixPath_join.
Qed.

(** X3. The target of an entry: for an entry below the source,
    [args.destination / remove_front_dir(args.source, item)] is the
    destination followed by the parts of the entry below the source, and
    the same sub-path joined to the source gives the entry back. *)
Theorem remove_front_dir_rebases source destination rest :
  rest <> [] -> forallb wf_seg rest = true ->
  exists sub,
    remove_front_dir source (source ++ rest) = Return sub
    /\ joinpath source sub = source ++ rest
    /\ joinpath destination sub = destination ++ rest.
Proof.
  intros Hne Hwf. exists rest. split; [now apply remove_front_dir_below|].
  unfold joinpath. now rewrite (is_absolute_segs _ Hwf).
Qed.

(** X4. [relative_path(src, dest)] for a relative [dest]: with [c] the
    longest common run of segments of the two absolute forms, the result
    is one [..] for each segment of [src.absolute()] after [c], then the
    segments of [dest.absolute()] after [c]. *)
Theorem relative_path_climbs_then_descends cwd src dest c up down :
  dest <> [] -> forallb wf_seg dest = true ->
  absolute cwd src = "/" :: c ++ up ->
  absolute cwd dest = "/" :: c ++ down -> forallb wf_seg (c ++ down) = true ->
  hd_error up <> hd_error down ->
  relative_path cwd src dest = Return (repeat ".." (length up) ++ down).
Proof.
  intros Hne Hd Hs Ht Hwf Hhd.
  apply (relative_path_segments cwd src dest (c ++ up) (c ++ down)); auto.
  now rewrite strip_common_app, strip_common_apart.
Qed.

End MoreArithFacts.

Lemma remove_front_dir_strips_common_prefix_witness :
  remove_front_dir ["a"; "b"] ["a"; "c"; "d"] = Return ["c"; "d"].
Proof.
  apply (remove_front_dir_strips_common_prefix ["a"] ["b"] ["c"; "d"]).
  - discriminate.
  - reflexivity.
  - discriminate.
Defined.

Lemma remove_front_dir_rebases_witness :
  exists sub,
    remove_front_dir ["in"] ["in"; "dir-a"; "file-a"] = Return sub
    /\ joinpath ["in"] sub = ["in"; "dir-a"; "file-a"]
    /\ joinpath ["/"; "srv"; "out"] sub = ["/"; "srv"; "out"; "dir-a"; "file-a"].
Proof.
  apply (remove_front_dir_rebases ["in"] ["/"; "srv"; "out"] ["dir-a"; "file-a"]).
  - discriminate.
  - reflexivity.
Defined.

Lemma relative_path_climbs_then_descends_witness :
  relative_path ["/"; "w"] ["a"; "b"; "c"; "m"] ["a"; "b"; "c"; "d"; "e"]
  = Return [".."; "d"; "e"].
Proof.
  apply (relative_path_climbs_then_descends ["/"; "w"] ["a"; "b"; "c"; "m"]
           ["a"; "b"; "c"; "d"; "e"] ["w"; "a"; "b"; "c"] ["m"] ["d"; "e"]).
  - discriminate.
  - reflexivity.
  - reflexivity.
  - reflexivity.
  - reflexivity.
  - discriminate.
Defined.

(* ===================================================================== *)
(** * Plain paths in tidy file systems *)
(* ===================================================================== *)

Section TidyFacts.

Variable f : FS.
Hypothesis Htidy : tidy f = true.

Lemma assoc_In l ns n : assoc l ns = Some n -> In (l, n) ns.
Proof.
  induction ns as [|[k m] ns IH]; simpl; [discriminate|].
  case_bool_decide as E; [intros [= ->]; left; congruence|auto].
Qed.

Lemma In_assoc l ns n : In (l, n) ns -> exists m, assoc l ns = Some m.
Proof.
  induction ns as [|[k m] ns IH]; simpl; [tauto|].
  intros [[= -> ->]|H]; [rewrite bool_decide_eq_true_2; eauto|].
  case_bool_decide; eauto.
Qed.

Lemma tidy_entries kn : In kn (nodes f) -> tidy_entry f kn = true.
Proof.
  unfold tidy in Htidy. apply andb_prop in Htidy as [H _].
  rewrite forallb_forall in H. apply H.
Qed.

Lemma tidy_nodup : NoDup (map fst (nodes f)).
Proof.
  unfold tidy in Htidy. apply andb_prop in Htidy as [_ H].
  now apply bool_decide_eq_true in H.
Qed.

Lemma node_at_In l n : l <> [] -> node_at f l = Some n -> In (l, n) (nodes f).
Proof. destruct l; [congruence|]. intros _. apply assoc_In. Qed.

Lemma tidy_no_symlink l t : node_at f l <> Some (Symlink t).
Proof.
  intros H. destruct l as [|x l]; [discriminate|].
  apply assoc_In, tidy_entries in H. unfold tidy_entry in H. cbn in H.
  rewrite !andb_true_iff in H. now destruct H as [[_ H] _].
Qed.

Lemma tidy_parent l x n : node_at f (l ++ [x]) = Some n -> node_at f l = Some Dir.
Proof.
  intros H. apply node_at_In in H; [|now destruct l].
  apply tidy_entries in H. unfold tidy_entry in H. cbn [fst snd] in H.
  rewrite removelast_last in H. rewrite !andb_true_iff in H.
  destruct H as [_ H]. now destruct (node_at f l) as [[]|].
Qed.

Lemma tidy_ancestor l k n :
  k <> [] -> node_at f (l ++ k) = Some n -> node_at f l = Some Dir.
Proof.
  revert n. induction k as [|x k IH] using rev_ind; [congruence|]. intros n _.
  rewrite app_assoc. intros H. apply tidy_parent in H.
  destruct k; [now rewrite app_nil_r in H|]. now apply (IH Dir).
Qed.

Lemma tidy_names l n : node_at f l = Some n -> forallb plain_name l = true.
Proof.
  destruct l as [|x l]; [reflexivity|]. intros H.
  apply node_at_In in H; [|discriminate]. apply tidy_entries in H.
  unfold tidy_entry in H. rewrite !andb_true_iff in H. tauto.
Qed.

End TidyFacts.

Section NameiFacts.

Lemma plain_name_steps x :
  plain_name x = true -> is_root x = false /\ String.eqb x ".." = false.
Proof.
  unfold plain_name. rewrite andb_true_iff, negb_true_iff. intros [H1 H2].
  split; [now apply wf_seg_not_root|assumption].
Qed.

Lemma plain_name_wf x : plain_name x = true -> wf_seg x = true.
Proof. unfold plain_name. rewrite andb_true_iff. tauto. Qed.

Lemma plain_names_wf l : forallb plain_name l = true -> forallb wf_seg l = true.
Proof.
  induction l as [|x l IH]; simpl; [reflexivity|]. rewrite !andb_true_iff.
  intros [H1 H2]. auto using plain_name_wf.
Qed.

(** One step of the resolution of a plain name. *)
Lemma namei_plain g links follow cur x rest :
  plain_name x = true ->
  namei g links follow cur (x :: rest) =
  match node_at g (cur ++ [x]) with
  | Some (Symlink t) =>
      if follow || negb (is_nil rest) then
        match links with
        | 0 => None
        | S links' => namei g links' follow cur (t ++ rest)
        end
      else Some (cur ++ [x])
  | Some Dir => namei g links follow (cur ++ [x]) rest
  | Some (File _) | None => if is_nil rest then Some (cur ++ [x]) else None
  end.
Proof.
  intros H. apply plain_name_steps in H as [H1 H2].
  now rewrite namei_cons, H1, H2.
Qed.

Lemma dirs_upto_cons g base x names :
  dirs_upto g base (x :: names) ->
  node_at g (base ++ [x]) = Some Dir /\ dirs_upto g (base ++ [x]) names.
Proof.
  intros H. split.
  - apply H; [discriminate|]. now apply (prefix_cons x [] names), prefix_nil.
  - intros q Hq Hpre. rewrite <- app_assoc. apply H; [discriminate|].
    now apply prefix_cons.
Qed.

Lemma dirs_upto_snoc g base names x :
  dirs_upto g base names -> node_at g (base ++ names ++ [x]) = Some Dir ->
  dirs_upto g base (names ++ [x]).
Proof.
  intros H Hx q Hq [k Hk].
  destruct k as [|y k] using rev_ind.
  - rewrite app_nil_r in Hk. now subst q.
  - clear IHk. rewrite app_assoc in Hk. apply app_inj_tail in Hk as [-> _].
    apply H; [assumption|]. now exists k.
Qed.

Lemma namei_dirs g links follow : forall names base,
  forallb plain_name names = true -> dirs_upto g base names ->
  namei g links follow base names = Some (base ++ names).
Proof.
  induction names as [|x names IH]; intros base Hp Hd.
  - now rewrite namei_nil, app_nil_r.
  - simpl in Hp. apply andb_prop in Hp as [Hx Hp].
    apply dirs_upto_cons in Hd as [Hx' Hd].
    rewrite (namei_plain _ _ _ _ _ _ Hx), Hx', (IH _ Hp Hd).
    now rewrite <- app_assoc.
Qed.

(** Down a chain of directories, and one name more. *)
Lemma namei_last g links follow : forall names base x,
  forallb plain_name names = true -> plain_name x = true ->
  dirs_upto g base names ->
  (follow = false \/ forall t, node_at g (base ++ names ++ [x]) <> Some (Symlink t)) ->
  namei g links follow base (names ++ [x]) = Some (base ++ names ++ [x]).
Proof.
  induction names as [|y names IH]; intros base x Hp Hx Hd Hlast.
  - cbn [app] in *. rewrite (namei_plain _ _ _ _ _ _ Hx).
    destruct (node_at g (base ++ [x])) as [[d| |t]|] eqn:E; try reflexivity.
    + now rewrite namei_nil.
    + destruct Hlast as [->|Hlast]; [reflexivity|]. now elim (Hlast t).
  - simpl in Hp. apply andb_prop in Hp as [Hy Hp].
    apply dirs_upto_cons in Hd as [Hy' Hd].
    cbn [app]. rewrite (namei_plain _ _ _ _ _ _ Hy), Hy'.
    rewrite (IH (base ++ [y]) x Hp Hx Hd); [now rewrite <- app_assoc|].
    now rewrite <- app_assoc.
Qed.

End NameiFacts.

Section ResolveFacts.

Lemma resolve_simple g follow p :
  simple p = true ->
  resolve g follow p = namei g MAXSYMLINKS follow (base_of g p) (names_of p).
Proof.
  unfold resolve, simple, base_of, names_of, rooted.
  destruct p as [|r p]; [reflexivity|].
  destruct (String.eqb_spec r "/") as [->|Hr]; [|reflexivity].
  intros _. now rewrite namei_cons.
Qed.

(** In a tidy file system a plain path names the node at its location. *)
Lemma namei_tidy f links follow : tidy f = true -> forall names base,
  forallb plain_name names = true ->
  (namei f links follow base names ≫= node_at f) = node_at f (base ++ names).
Proof.
  intros Htidy. induction names as [|x names IH]; intros base Hp.
  - now rewrite namei_nil, app_nil_r.
  - simpl in Hp. apply andb_prop in Hp as [Hx Hp].
    rewrite (namei_plain _ _ _ _ _ _ Hx).
    destruct (node_at f (base ++ [x])) as [[d| |t]|] eqn:E.
    + destruct names as [|y names]; cbn [is_nil]; [cbn; now rewrite E|].
      cbn. destruct (node_at f (base ++ x :: y :: names)) eqn:E'; [|reflexivity].
      change (x :: y :: names) with ([x] ++ y :: names) in E'.
      rewrite app_assoc in E'. apply tidy_ancestor in E'; [congruence|assumption|discriminate].
    + rewrite (IH _ Hp). now rewrite <- app_assoc.
    + now elim (tidy_no_symlink f Htidy (base ++ [x]) t).
    + destruct names as [|y names]; cbn [is_nil]; [cbn; now rewrite E|].
      cbn. destruct (node_at f (base ++ x :: y :: names)) eqn:E'; [|reflexivity].
      change (x :: y :: names) with ([x] ++ y :: names) in E'.
      rewrite app_assoc in E'. apply tidy_ancestor in E'; [congruence|assumption|discriminate].
Qed.

Lemma stat_tidy f follow p :
  tidy f = true -> simple p = true ->
  (resolve f follow p ≫= node_at f) = node_at f (loc_of f p).
Proof.
  intros Htidy Hp. rewrite (resolve_simple _ _ _ Hp). now apply namei_tidy.
Qed.

(** Two file systems that hold the same nodes along a path, none of them
    a symbolic link, resolve it alike. *)
Lemma namei_agree f g links follow : forall names base,
  forallb plain_name names = true ->
  (forall q, q <> [] -> q `prefix_of` names ->
     node_at g (base ++ q) = node_at f (base ++ q)
     /\ forall t, node_at f (base ++ q) <> Some (Symlink t)) ->
  namei g links follow base names = namei f links follow base names.
Proof.
  induction names as [|x names IH]; intros base Hp Hag.
  - now rewrite !namei_nil.
  - simpl in Hp. apply andb_prop in Hp as [Hx Hp].
    rewrite !(namei_plain _ _ _ _ _ _ Hx).
    destruct (Hag [x]) as [-> Hns]; [discriminate|now apply (prefix_cons x [] names), prefix_nil|].
    destruct (node_at f (base ++ [x])) as [[d| |t]|] eqn:E; try reflexivity.
    + apply IH; [assumption|]. intros q Hq Hpre. rewrite <- !app_assoc.
      apply Hag; [discriminate|now apply prefix_cons].
    + now elim (Hns t).
Qed.

End ResolveFacts.

Section ChildrenFacts.

Lemma child_name_Some d : forall k n, child_name d k = Some n -> k = d ++ [n].
Proof.
  induction d as [|x d IH]; intros [|y k] n; simpl; try discriminate.
  - destruct k; [intros [= ->]; reflexivity|discriminate].
  - destruct (String.eqb_spec x y) as [->|_]; [|discriminate].
    intros H. now rewrite (IH _ _ H).
Qed.

Lemma child_name_snoc d n : child_name d (d ++ [n]) = Some n.
Proof. induction d as [|x d IH]; simpl; [reflexivity|]. now rewrite String.eqb_refl. Qed.

Lemma listdir_children f p :
  listdir f p =
  match resolve f true p with
  | Some l => match node_at f l with
              | Some Dir => Some (children f l)
              | _ => None
              end
  | None => None
  end.
Proof. reflexivity. Qed.

Lemma elem_of_children f d n :
  In n (children f d) -> exists m, In (d ++ [n], m) (nodes f).
Proof.
  unfold children. rewrite <- list_elem_of_In, list_elem_of_omap.
  intros [[k m] [Hin Hc]]. cbn in Hc. apply child_name_Some in Hc as ->.
  exists m. now apply list_elem_of_In.
Qed.

Lemma children_nodup f d : NoDup (map fst (nodes f)) -> NoDup (children f d).
Proof.
  unfold children. induction (nodes f) as [|[k m] ns IH]; cbn; [constructor|].
  intros Hnd. apply NoDup_cons in Hnd as [Hk Hnd].
  destruct (child_name d k) as [n|] eqn:E; [|auto].
  constructor; [|auto]. rewrite list_elem_of_omap. intros [[k' m'] [Hin Hc]].
  cbn in Hc. apply child_name_Some in E, Hc. subst k k'.
  apply Hk. apply list_elem_of_fmap. now exists (d ++ [n], m').
Qed.

Lemma children_put d l n ns :
  child_name d l = None ->
  omap (fun kn => child_name d (fst kn)) (put l n ns)
  = omap (fun kn : loc * node => child_name d (fst kn)) ns.
Proof.
  intros Hl. induction ns as [|[k m] ns IH]; cbn.
  - now rewrite Hl.
  - case_bool_decide as E; cbn.
    + now rewrite E.
    + now rewrite IH.
Qed.

Lemma children_write f l n d :
  ~ d `prefix_of` l -> children (write f l n) d = children f d.
Proof.
  intros Hd. apply children_put.
  destruct (child_name d l) as [x|] eqn:E; [|reflexivity].
  apply child_name_Some in E. elim Hd. now exists [x].
Qed.

End ChildrenFacts.

Section MoreFacts.

Lemma children_write_other f l n d :
  (forall x, l <> d ++ [x]) -> children (write f l n) d = children f d.
Proof.
  intros Hd. apply children_put.
  destruct (child_name d l) as [x|] eqn:E; [|reflexivity].
  apply child_name_Some in E. now elim (Hd x).
Qed.

Lemma namei_tidy_loc f links follow : tidy f = true -> forall names base l,
  forallb plain_name names = true ->
  namei f links follow base names = Some l -> l = base ++ names.
Proof.
  intros Htidy. induction names as [|x names IH]; intros base l Hp.
  - rewrite namei_nil, app_nil_r. congruence.
  - simpl in Hp. apply andb_prop in Hp as [Hx Hp].
    rewrite (namei_plain _ _ _ _ _ _ Hx).
    destruct (node_at f (base ++ [x])) as [[d| |t]|] eqn:E.
    + destruct names; cbn [is_nil]; [congruence|discriminate].
    + intros H. apply (IH _ _ Hp) in H. now rewrite <- app_assoc in H.
    + now elim (tidy_no_symlink f Htidy (base ++ [x]) t).
    + destruct names; cbn [is_nil]; [congruence|discriminate].
Qed.

Lemma simple_app f p k :
  simple p = true -> forallb plain_name k = true ->
  simple (p ++ k) = true
  /\ base_of f (p ++ k) = base_of f p
  /\ names_of (p ++ k) = names_of p ++ k.
Proof.
  unfold simple, base_of, names_of, rooted. intros Hp Hk.
  destruct p as [|r p]; cbn [app].
  - destruct k as [|x k]; [repeat split; assumption|].
    pose proof Hk as Hk'. simpl in Hk'. apply andb_prop in Hk' as [Hx _].
    apply plain_name_wf, wf_seg_not_slash in Hx. rewrite Hx. repeat split; assumption.
  - destruct (String.eqb r "/").
    + change (tail (r :: p ++ k)) with (p ++ k). change (tail (r :: p)) with p in *.
      rewrite forallb_app, Hp, Hk. repeat split.
    + change (r :: p ++ k) with ((r :: p) ++ k).
      rewrite forallb_app, Hp, Hk. repeat split.
Qed.

Lemma loc_of_app f p k :
  simple p = true -> forallb plain_name k = true -> loc_of f (p ++ k) = loc_of f p ++ k.
Proof.
  intros Hp Hk. unfold loc_of.
  destruct (simple_app f p k Hp Hk) as (_ & -> & ->). now rewrite app_assoc.
Qed.

Lemma relative_path_returns cwd src dest :
  dest <> [] -> exists p, relative_path cwd src dest = Return p.
Proof.
  intros Hd. unfold relative_path. destruct dest as [|d0 dest]; [congruence|].
  destruct (String.eqb d0 "/"); [eauto|]. destruct (strip_common _ _); eauto.
Qed.

End MoreFacts.

(* ===================================================================== *)
(** * The executors at their edges *)
(* ===================================================================== *)

Section ExecutorEdges.

Context {regex : Type}.
Implicit Types (w : World regex) (src target path : Path).

Lemma lstat_dir_stat f p : lstat f p = Some Dir -> stat f p = Some Dir.
Proof. intros H. destruct (lstat_cases f p) as [E|[t E]]; congruence. Qed.

Lemma os_mkdir_is_dir f p f' : os_mkdir f p = Some f' -> is_dir f' p = true.
Proof.
  intros H. apply os_mkdir_made, lstat_dir_stat in H. unfold is_dir. now rewrite H.
Qed.

Lemma os_mkdir_taken f p : lstat f p <> None -> os_mkdir f p = None.
Proof.
  unfold lstat, os_mkdir. destruct (resolve f false p) as [l|]; cbn; [|reflexivity].
  now destruct (node_at f l).
Qed.

(** X9.  When [LinkExecutor.mkdir] returns, the path is a directory,
    whether the call made it or found it; and the call can be repeated:
    made again in the world it left, it returns and changes nothing. *)
Theorem mkdir_leaves_a_directory path w w' :
  LinkExecutor_mkdir path w = (Return tt, w') ->
  is_dir (fs w') path = true
  /\ LinkExecutor_mkdir path w' = (Return tt, w').
Proof.
  rewrite LinkExecutor_mkdir_cases. intros H.
  assert (is_dir (fs w') path = true) as Hd.
  { destruct (stat (fs w) path) as [[d| |t]|] eqn:E; try discriminate.
    - injection H as <-. unfold is_dir. now rewrite E.
    - destruct (os_mkdir (fs w) path) as [f'|] eqn:Hm; [|discriminate].
      injection H as <-. cbn [fs logged with_fs]. now apply (os_mkdir_is_dir (fs w)). }
  split; [exact Hd|]. rewrite LinkExecutor_mkdir_cases.
  unfold is_dir in Hd. now destruct (stat (fs w') path) as [[]|].
Qed.

(** X10.  A dangling symbolic link where a directory is wanted:
    [path.exists()] is false, so neither executor sees a conflict.  The
    dry run reports the directory as made; [path.mkdir()] fails on the
    taken name, an [OSError] that [main] does not catch, and nothing is
    changed. *)
Theorem mkdir_over_dangling_link path w :
  is_symlink (fs w) path = true -> path_exists (fs w) path = false ->
  DryRunExecutor_mkdir path w = (Return tt, printed w (report (AMkdir path)))
  /\ LinkExecutor_mkdir path w = (Raise OSError, w).
Proof.
  unfold is_symlink, path_exists. intros Hl He.
  rewrite DryRunExecutor_mkdir_cases, LinkExecutor_mkdir_cases.
  destruct (stat (fs w) path); [discriminate|]. split; [reflexivity|].
  rewrite os_mkdir_taken; [reflexivity|]. now destruct (lstat (fs w) path).
Qed.

Lemma prepare_destination_cases dest w :
  prepare_destination dest w =
  match stat (fs w) dest with
  | Some Dir => (Return tt, w)
  | Some _ => (Raise (FileReplacementError (as_posix dest)),
               printed w ("ERROR: " +:+ as_posix dest +:+ " exists already and is not a directory"))
  | None => match os_mkdir (fs w) dest with
            | Some f' => (Return tt, with_fs w f')
            | None => (Raise OSError, w)
            end
  end.
Proof.
  unfold prepare_destination. run. unfold path_exists, is_dir.
  destruct (stat (fs w) dest) as [[]|] eqn:E; cbn [negb]; cbv beta iota;
    rewrite ?E; cbn [negb]; reflexivity.
Qed.

(** X12.  [prepare_destination]: when it returns, the destination is a
    directory; when it raises (a conflict with an entry that is not a
    directory, or the [OSError] of [mkdir]), the destination is not a
    directory and the file system is as it was. *)
Theorem prepare_destination_leaves_a_directory dest w :
  let out := prepare_destination dest w in
  match fst out with
  | Return _ => is_dir (fs (snd out)) dest = true
  | Raise e => fs (snd out) = fs w /\ is_dir (fs w) dest = false
  end.
Proof.
  cbv zeta. rewrite prepare_destination_cases. unfold is_dir.
  destruct (stat (fs w) dest) as [[d| |t]|] eqn:E; cbn [fst snd]; rewrite ?E; auto.
  destruct (os_mkdir (fs w) dest) as [f'|] eqn:Hm; cbn [fst snd]; rewrite ?E; auto.
  apply (os_mkdir_is_dir (fs w)), Hm.
Qed.

(** X8.  A link is made once: after [LinkExecutor.link] has returned,
    [link] on the same target, in either executor and whatever the
    source, refuses with [FileReplacementError].  A second run over the
    destination of a first one stops at the first link it meets. *)
Theorem link_is_not_repeatable src target w w' :
  LinkExecutor_link false src target w = (Return tt, w') ->
  forall hard src2,
    let refusal :=
      (Raise (FileReplacementError (as_posix target)),
       printed w' ("ERROR(link): file " +:+ as_posix target +:+ " exists.")) in
    DryRunExecutor_link src2 target w' = refusal
    /\ LinkExecutor_link hard src2 target w' = refusal.
Proof.
  intros H hard src2. cbv zeta.
  rewrite LinkExecutor_link_cases in H. case_bool_decide as E; [discriminate|].
  destruct (relative_path _ _ _) as [src'|e]; [|discriminate].
  destruct (os_symlink (fs w) src' target) as [f'|] eqn:Hs; [|discriminate].
  injection H as <-. apply os_symlink_stored in Hs.
  rewrite DryRunExecutor_link_cases, LinkExecutor_link_cases. cbn [fs logged with_fs].
  rewrite bool_decide_eq_true_2 by congruence. now split.
Qed.

(** X11.  Copying onto the file itself: when [src] and [target] lead to
    the same regular file (as they do when the target is a link to the
    source, left by an earlier run), no executor sees a conflict; the dry
    run reports the copy, and [shutil.copyfile] raises [SameFileError],
    an [OSError], leaving everything as it was. *)
Theorem copy_onto_the_same_file_fails src target w l data :
  resolve (fs w) true src = Some l -> resolve (fs w) true target = Some l ->
  node_at (fs w) l = Some (File data) ->
  DryRunExecutor_copy src target w = (Return tt, printed w (report (ACopy src target)))
  /\ LinkExecutor_copy src target w = (Raise OSError, w).
Proof.
  intros Hs Ht Hl. rewrite DryRunExecutor_copy_cases, LinkExecutor_copy_cases.
  assert (is_dir (fs w) target = false) as ->.
  { unfold is_dir, stat. rewrite Ht. cbn. now rewrite Hl. }
  split; [reflexivity|]. unfold shutil_copyfile, same_file. rewrite Hs, Ht, Hl.
  now rewrite (bool_decide_eq_true_2 (l = l)) by reflexivity.
Qed.

End ExecutorEdges.

Lemma link_refuses_taken_name_witness :
  let w := @boot Mini.regex dangling in
  lstat (fs w) ["out"; "a"] <> None
  /\ DryRunExecutor_link ["in"; "a"] ["out"; "a"] w
     = (Raise (FileReplacementError "out/a"), printed w "ERROR(link): file out/a exists.")
  /\ LinkExecutor_link false ["in"; "a"] ["out"; "a"] w
     = (Raise (FileReplacementError "out/a"), printed w "ERROR(link): file out/a exists.")
  /\ lstat (fs w) ["out"; "b"] = None
  /\ (forall arg, fst (LinkExecutor_link false ["in"; "a"] ["out"; "b"] w)
                  <> Raise (FileReplacementError arg)).
Proof.
  cbv zeta.
  pose proof (link_refuses_taken_name false ["in"; "a"] ["out"; "a"]
                (@boot Mini.regex dangling)) as [Htaken _].
  pose proof (link_refuses_taken_name false ["in"; "a"] ["out"; "b"]
                (@boot Mini.regex dangling)) as [_ Hfree].
  cbv zeta in Htaken.
  assert (lstat dangling ["out"; "a"] <> None) as H by discriminate.
  destruct (Htaken H) as [H1 H2]. destruct (Hfree eq_refl) as [_ H3].
  split; [exact H|]. split; [exact H1|]. split; [exact H2|]. split; [reflexivity|exact H3].
Defined.

Lemma symbolic_link_stores_relative_path_witness :
  let w := @boot Mini.regex two_files in
  let w' := snd (LinkExecutor_link false ["in"; "f"] ["out"; "g"] w) in
  exists src',
    relative_path (getcwd (fs w)) (parent ["out"; "g"]) ["in"; "f"] = Return src'
    /\ lstat (fs w) ["out"; "g"] = None
    /\ lstat (fs w') ["out"; "g"] = Some (Symlink src')
    /\ history w' = history w ++ [ALink ["in"; "f"] ["out"; "g"]].
Proof.
  cbv zeta.
  apply (symbolic_link_stores_relative_path ["in"; "f"] ["out"; "g"]
           (@boot Mini.regex two_files)).
  reflexivity.
Defined.

Lemma link_is_not_repeatable_witness :
  let w := @boot Mini.regex two_files in
  let w' := snd (LinkExecutor_link false ["in"; "f"] ["out"; "g"] w) in
  let refusal :=
    (Raise (FileReplacementError "out/g"),
     printed w' "ERROR(link): file out/g exists.") in
  DryRunExecutor_link ["in"; "f"] ["out"; "g"] w' = refusal
  /\ LinkExecutor_link true ["in"; "f"] ["out"; "g"] w' = refusal.
Proof.
  cbv zeta.
  apply (link_is_not_repeatable ["in"; "f"] ["out"; "g"] (@boot Mini.regex two_files) _
           eq_refl true ["in"; "f"]).
Defined.

Lemma mkdir_leaves_a_directory_witness :
  let w := @boot Mini.regex two_files in
  let w' := snd (LinkExecutor_mkdir ["out"; "new"] w) in
  is_dir (fs w') ["out"; "new"] = true
  /\ LinkExecutor_mkdir ["out"; "new"] w' = (Return tt, w').
Proof.
  cbv zeta.
  apply (mkdir_leaves_a_directory ["out"; "new"] (@boot Mini.regex two_files)).
  reflexivity.
Defined.

Lemma mkdir_over_dangling_link_witness :
  let w := @boot Mini.regex dangling in
  DryRunExecutor_mkdir ["out"; "a"] w = (Return tt, printed w "mkdir out/a")
  /\ LinkExecutor_mkdir ["out"; "a"] w = (Raise OSError, w).
Proof.
  cbv zeta.
  apply (mkdir_over_dangling_link ["out"; "a"] (@boot Mini.regex dangling)); reflexivity.
Defined.

Lemma copy_onto_the_same_file_fails_witness :
  let w := @boot Mini.regex relinked in
  DryRunExecutor_copy ["in"; "f"] ["out"; "f"] w
  = (Return tt, printed w "copy in/f out/f")
  /\ LinkExecutor_copy ["in"; "f"] ["out"; "f"] w = (Raise OSError, w).
Proof.
  cbv zeta.
  apply (copy_onto_the_same_file_fails ["in"; "f"] ["out"; "f"] (@boot Mini.regex relinked)
           ["w"; "in"; "f"] "data"); reflexivity.
Defined.

(* ===================================================================== *)
(** * Where a link leads *)
(* ===================================================================== *)

Section LinkTargetFacts.

Lemma dirs_upto_cons_inv g base x names :
  node_at g (base ++ [x]) = Some Dir -> dirs_upto g (base ++ [x]) names ->
  dirs_upto g base (x :: names).
Proof.
  intros Hx Hd q Hq [k Hk]. destruct q as [|y q]; [congruence|].
  injection Hk as <- Hk. destruct q as [|z q]; [exact Hx|].
  change (x :: z :: q) with ([x] ++ z :: q). rewrite app_assoc.
  apply Hd; [discriminate|]. now exists k.
Qed.

(** A resolution that succeeds went through directories only, up to the
    last name. *)
Lemma namei_parent_dirs f links follow : tidy f = true -> forall pn base x l,
  forallb plain_name pn = true ->
  namei f links follow base (pn ++ [x]) = Some l -> dirs_upto f base pn.
Proof.
  intros Htidy. induction pn as [|y pn IH]; intros base x l Hp H.
  - intros q Hq [k Hk]. now destruct q.
  - simpl in Hp. apply andb_prop in Hp as [Hy Hp].
    cbn [app] in H. rewrite (namei_plain _ _ _ _ _ _ Hy) in H.
    destruct (node_at f (base ++ [y])) as [[d| |t]|] eqn:E.
    + destruct pn; discriminate.
    + apply dirs_upto_cons_inv; [exact E|]. exact (IH _ _ _ Hp H).
    + now elim (tidy_no_symlink f Htidy (base ++ [y]) t).
    + destruct pn; discriminate.
Qed.

(** Down a chain of directories to a symbolic link, which is followed. *)
Lemma namei_through_link g links t : forall pn base x,
  forallb plain_name pn = true -> plain_name x = true ->
  dirs_upto g base pn ->
  node_at g (base ++ pn ++ [x]) = Some (Symlink t) ->
  namei g (S links) true base (pn ++ [x]) = namei g links true (base ++ pn) t.
Proof.
  induction pn as [|y pn IH]; intros base x Hp Hx Hd Hl.
  - cbn [app] in *. rewrite (namei_plain _ _ _ _ _ _ Hx), Hl. cbn [orb].
    now rewrite !app_nil_r.
  - simpl in Hp. apply andb_prop in Hp as [Hy Hp].
    apply dirs_upto_cons in Hd as [Hy' Hd].
    cbn [app]. rewrite (namei_plain _ _ _ _ _ _ Hy), Hy'.
    rewrite (IH (base ++ [y]) x Hp Hx Hd); [now rewrite <- app_assoc|].
    now rewrite <- app_assoc.
Qed.

(** As many [..] as there are names in [up] lead from [c ++ up] to [c]. *)
Lemma namei_dotdots g links follow c rest : forall up,
  namei g links follow (c ++ up) (repeat ".." (length up) ++ rest)
  = namei g links follow c rest.
Proof.
  induction up as [|z up IH] using rev_ind.
  - now rewrite app_nil_r.
  - rewrite length_app, Nat.add_1_r. cbn [repeat app].
    rewrite namei_cons. cbn [is_root String.eqb Ascii.eqb Bool.eqb orb].
    change (".." =? "..")%string with true. cbn iota.
    rewrite app_assoc, removelast_last. exact IH.
Qed.

Lemma absolute_simple f p :
  simple p = true -> absolute (getcwd f) p = "/" :: loc_of f p.
Proof.
  unfold simple, absolute, getcwd, loc_of, base_of, names_of, rooted, is_absolute.
  destruct p as [|r p]; [intros _; reflexivity|].
  destruct (String.eqb_spec r "/") as [->|Hr]; [reflexivity|].
  intros H. simpl in H. apply andb_prop in H as [H _].
  apply plain_name_steps in H as [-> _]. reflexivity.
Qed.

Lemma parent_simple f p pn x :
  simple p = true -> names_of p = pn ++ [x] ->
  simple (parent p) = true /\ loc_of f (parent p) = base_of f p ++ pn.
Proof.
  unfold simple, loc_of, base_of, names_of, rooted. intros Hp Hn.
  destruct p as [|r p]; [now destruct pn|].
  destruct (String.eqb_spec r "/") as [->|Hr].
  - cbn [tail] in *. subst p. rewrite forallb_app in Hp.
    apply andb_prop in Hp as [Hp _].
    assert (parent ("/" :: pn ++ [x]) = "/" :: pn) as ->.
    { unfold parent. destruct pn as [|y pn]; cbn [app].
      - reflexivity.
      - change ("/" :: y :: pn ++ [x]) with (("/" :: y :: pn) ++ [x]).
        now rewrite removelast_last. }
    change ("/" =? "/")%string with true. cbn iota. now split.
  - rewrite Hn in Hp. rewrite forallb_app in Hp. apply andb_prop in Hp as [Hp Hx].
    assert (parent (r :: p) = pn) as ->.
    { rewrite Hn. unfold parent. destruct pn as [|y pn]; cbn [app].
      - simpl in Hx. apply andb_prop in Hx as [Hx _].
        apply plain_name_steps in Hx as [-> _]. reflexivity.
      - destruct pn as [|z pn]; cbn [app]; [reflexivity|].
        change (y :: z :: pn ++ [x]) with ((y :: z :: pn) ++ [x]).
        now rewrite removelast_last. }
    split; [|].
    + destruct pn as [|y pn]; [reflexivity|].
      simpl in Hp. apply andb_prop in Hp as [Hy Hp'].
      rewrite (wf_seg_not_slash _ (plain_name_wf _ Hy)). simpl. now rewrite Hy, Hp'.
    + destruct pn as [|y pn]; [reflexivity|].
      simpl in Hp. apply andb_prop in Hp as [Hy Hp'].
      now rewrite (wf_seg_not_slash _ (plain_name_wf _ Hy)).
Qed.

(** The nodes on the way to an entry of a tidy file system are there. *)
Lemma on_the_way f B D q n :
  tidy f = true -> node_at f (B ++ D) = Some n -> q `prefix_of` D ->
  node_at f (B ++ q) <> None.
Proof.
  intros Htidy Hn [k ->]. destruct k as [|y k].
  - rewrite app_nil_r in Hn. congruence.
  - rewrite app_assoc in Hn. apply (tidy_ancestor f Htidy) in Hn; [congruence|discriminate].
Qed.

(** What a symbolic link leads to, when the stored path leads from the
    directory of the link to an entry of a tidy file system. *)
Lemma stat_through_link f L stored base pn x B D n p :
  tidy f = true -> node_at f L = None ->
  simple p = true -> base_of f p = base -> names_of p = pn ++ [x] ->
  L = base ++ pn ++ [x] ->
  namei f MAXSYMLINKS false base (pn ++ [x]) = Some L ->
  (forall g links, namei g links true (base ++ pn) stored = namei g links true B D) ->
  forallb plain_name D = true -> node_at f (B ++ D) = Some n ->
  stat (write f L (Symlink stored)) p = Some n.
Proof.
  intros Htidy Hfree Hp Hbase Hnames HL Hres Hstored HD Hn.
  assert (L <> []) as HLne by (subst L; now destruct base, pn).
  assert (forallb plain_name pn = true /\ plain_name x = true) as [Hpn Hx].
  { unfold simple in Hp. rewrite Hnames, forallb_app in Hp.
    apply andb_prop in Hp as [? Hx]. simpl in Hx. apply andb_prop in Hx as [? _]. now split. }
  pose proof (namei_parent_dirs f _ _ Htidy pn base x L Hpn Hres) as Hdirs.
  set (f' := write f L (Symlink stored)).
  assert (forall l, node_at f l <> None -> node_at f' l = node_at f l) as Hsame.
  { intros l Hl. unfold f'. rewrite node_at_write by exact HLne.
    case_bool_decide as E; [|reflexivity]. subst l. now elim Hl. }
  assert (dirs_upto f' base pn) as Hdirs'.
  { intros q Hq Hpre. rewrite Hsame; [now apply Hdirs|]. now rewrite (Hdirs q Hq Hpre). }
  assert (node_at f' L = Some (Symlink stored)) as HL'.
  { unfold f'. rewrite node_at_write by exact HLne. now rewrite bool_decide_eq_true_2. }
  unfold stat. rewrite (resolve_simple _ _ _ Hp).
  change (base_of f' p) with (base_of f p). rewrite Hbase, Hnames.
  change MAXSYMLINKS with (S 39).
  rewrite (namei_through_link f' 39 stored pn base x Hpn Hx Hdirs') by (now rewrite <- HL).
  rewrite Hstored.
  rewrite (namei_agree f f' 39 true D B HD).
  - pose proof (namei_tidy f 39 true Htidy D B HD) as Ht. rewrite Hn in Ht.
    destruct (namei f 39 true B D) as [l|] eqn:El; [|discriminate].
    pose proof (namei_tidy_loc f 39 true Htidy D B l HD El) as ->.
    cbn. rewrite Hsame; [exact Hn|congruence].
  - intros q Hq Hpre. split.
    + apply Hsame. now apply (on_the_way f B D q n).
    + intros t. apply (tidy_no_symlink f Htidy).
Qed.

(** Where the path that [relative_path] computes leads, followed from
    the directory of the target: to the location of the source, through
    the names [D] below some directory [B]. *)
Lemma stored_path_leads f src target pn x stored :
  simple src = true -> simple target = true ->
  forallb plain_name (loc_of f src) = true ->
  names_of target = pn ++ [x] ->
  relative_path (getcwd f) (parent target) src = Return stored ->
  exists B D,
    B ++ D = loc_of f src /\ forallb plain_name D = true
    /\ forall g links, namei g links true (base_of f target ++ pn) stored
                       = namei g links true B D.
Proof.
  intros Hsrc Htgt Hplain Hnames Hrel.
  destruct (parent_simple f target pn x Htgt Hnames) as [Hpar HLP].
  unfold relative_path in Hrel. rewrite !absolute_simple in Hrel by assumption.
  rewrite HLP in Hrel.
  destruct src as [|d0 src]; [discriminate|].
  destruct (String.eqb_spec d0 "/") as [->|Hd0].
  - injection Hrel as <-. exists [], src. split; [reflexivity|].
    split; [exact Hsrc|]. intros g links. now rewrite namei_cons.
  - assert (loc_of f (d0 :: src) = cwd f ++ d0 :: src) as Hloc.
    { unfold loc_of, base_of, names_of, rooted.
      now rewrite (proj2 (String.eqb_neq _ _) Hd0). }
    rewrite Hloc in Hrel, Hplain |- *.
    cbn [strip_common] in Hrel. change ("/" =? "/")%string with true in Hrel.
    cbn iota in Hrel.
    destruct (strip_common (base_of f target ++ pn) (cwd f ++ d0 :: src))
      as [up down] eqn:Hstrip.
    destruct (strip_common_split _ _ _ _ Hstrip) as (c & Hc1 & Hc2).
    assert (forallb plain_name down = true) as Hdown.
    { apply (forallb_suffix _ c). now rewrite <- Hc2. }
    rewrite (PosixPath_join _ (wf_seg_dotdot _)) in Hrel.
    rewrite (PosixPath_join _ (plain_names_wf _ Hdown)) in Hrel.
    unfold joinpath in Hrel.
    rewrite (is_absolute_segs _ (plain_names_wf _ Hdown)) in Hrel.
    injection Hrel as <-.
    exists c, down. split; [now symmetry|]. split; [exact Hdown|].
    intros g links. rewrite Hc1. apply namei_dotdots.
Qed.

End LinkTargetFacts.

Section LinkLeadsToSource.

Context {regex : Type}.
Implicit Types (w : World regex) (src target : Path).

(** X7. The link that [LinkExecutor.link] makes leads to its source.  In
    a file system without symbolic links whose working directory exists,
    for a source that exists and paths written without [..]: the path
    that [relative_path(target.parent, src)] computes and the link
    stores, followed from the directory of the link, ends on the entry
    that [src] names, so that [stat] of the new link is [stat] of the
    source. *)
Theorem symbolic_link_leads_to_its_source src target w w' :
  tidy (fs w) = true -> node_at (fs w) (cwd (fs w)) = Some Dir ->
  simple src = true -> simple target = true ->
  path_exists (fs w) src = true ->
  LinkExecutor_link false src target w = (Return tt, w') ->
  stat (fs w') target = stat (fs w) src.
Proof.
  intros Htidy Hcwd Hsrc Htgt Hex H.
  set (f := fs w) in *.
  (* the source *)
  assert (exists n, stat f src = Some n /\ node_at f (loc_of f src) = Some n)
    as (n & Hstat & Hn).
  { unfold path_exists in Hex. destruct (stat f src) as [n|] eqn:E; [|discriminate].
    exists n. split; [reflexivity|].
    rewrite <- (stat_tidy f true src Htidy Hsrc). exact E. }
  rewrite Hstat.
  pose proof (tidy_names f Htidy _ _ Hn) as Hplain.
  (* the call *)
  rewrite LinkExecutor_link_cases in H. fold f in H.
  case_bool_decide as Efree; [discriminate|].
  destruct (relative_path (getcwd f) (parent target) src) as [stored|e] eqn:Hrel;
    [|discriminate].
  destruct (os_symlink f stored target) as [f'|] eqn:Hs; [|discriminate].
  injection H as <-. cbn [fs logged with_fs].
  unfold os_symlink in Hs.
  destruct (resolve f false target) as [L|] eqn:Hres; [|discriminate].
  destruct (node_at f L) eqn:Hfree; [discriminate|]. injection Hs as <-.
  rewrite (resolve_simple _ _ _ Htgt) in Hres.
  pose proof (namei_tidy_loc f _ _ Htidy _ _ _ Htgt Hres) as HL.
  (* the target has a last name *)
  assert (names_of target <> []) as Hne.
  { intros E. rewrite E, app_nil_r in HL. subst L. unfold base_of in Hfree.
    destruct (rooted target); [discriminate|congruence]. }
  destruct (exists_last Hne) as (pn & x & Hnames).
  (* the path stored *)
  destruct (stored_path_leads f src target pn x stored Hsrc Htgt Hplain Hnames Hrel)
    as (B & D & HBD & HD & Hstored).
  rewrite <- HBD in Hn. rewrite Hnames in HL, Hres.
  exact (stat_through_link f L stored (base_of f target) pn x B D n target
           Htidy Hfree Htgt eq_refl Hnames HL Hres Hstored HD Hn).
Qed.

End LinkLeadsToSource.

Lemma symbolic_link_leads_to_its_source_witness :
  let w := @boot Mini.regex mirror in
  let w' := snd (LinkExecutor_link false ["in"; "a"; "f"] ["out"; "f"] w) in
  stat (fs w') ["out"; "f"] = stat (fs w) ["in"; "a"; "f"].
Proof.
  cbv zeta.
  apply (symbolic_link_leads_to_its_source ["in"; "a"; "f"] ["out"; "f"]
           (@boot Mini.regex mirror)); reflexivity.
Defined.

(* ===================================================================== *)
(** * Frames and coupled runs *)
(* ===================================================================== *)

Section FrameFacts.

Lemma below_app T k : k <> [] -> below T (T ++ k).
Proof. intros H. now exists k. Qed.

Lemma below_prefix T l : below T l -> T `prefix_of` l.
Proof. intros (k & _ & ->). now exists k. Qed.

Lemma below_not_nil T l : below T l -> l <> [].
Proof. intros (k & Hk & ->) H. apply app_eq_nil in H as [_ ?]. contradiction. Qed.

Lemma below_trans T T' l : T `prefix_of` T' -> below T' l -> below T l.
Proof.
  intros [k1 ->] (k & Hk & ->). exists (k1 ++ k). split; [|now rewrite app_assoc].
  intros H. apply app_eq_nil in H as [_ ?]. contradiction.
Qed.

Lemma below_snoc T n l : (T ++ [n]) `prefix_of` l -> below T l.
Proof. intros [k ->]. exists (n :: k). split; [discriminate|]. now rewrite <- app_assoc. Qed.

Lemma below_child T l x : below T (l ++ [x]) -> T `prefix_of` l.
Proof.
  intros (k & Hk & E). destruct k as [|y k _] using rev_ind; [congruence|].
  rewrite app_assoc in E. apply app_inj_tail in E as [-> _]. now exists k.
Qed.

Lemma not_below_prefix T q : q `prefix_of` T -> ~ below T q.
Proof.
  intros [k1 ->] (k & Hk & E). rewrite <- app_assoc in E.
  rewrite <- (app_nil_r q) in E at 1. apply app_inv_head in E.
  symmetry in E. apply app_eq_nil in E as [_ ?]. contradiction.
Qed.

Lemma prefix_snoc_same (T : loc) m n k : (T ++ [m]) `prefix_of` (T ++ n :: k) -> m = n.
Proof.
  intros [k' E]. rewrite <- app_assoc in E. apply app_inv_head in E.
  now inversion E.
Qed.

Lemma frame_refl T g : frame T g g.
Proof. now constructor. Qed.

Lemma frame_trans T g1 g2 g3 : frame T g1 g2 -> frame T g2 g3 -> frame T g1 g3.
Proof.
  intros [c1 n1 k1 s1] [c2 n2 k2 s2]. constructor.
  - congruence.
  - intros l Hl. now rewrite n2, n1.
  - intros L HL. now rewrite k2, k1.
  - congruence.
Qed.

Lemma frame_mono T T' g g' : T `prefix_of` T' -> frame T' g g' -> frame T g g'.
Proof.
  intros Hpre [c n k s]. constructor; [assumption| | |assumption].
  - intros l Hl. apply n. intros Hb. apply Hl. now apply (below_trans T T').
  - intros L HL. apply k. intros Hb. apply HL. now transitivity T'.
Qed.

Lemma frame_write T g l n : below T l -> frame T g (write g l n).
Proof.
  intros Hl. constructor; [reflexivity| | |reflexivity].
  - intros l' Hl'. rewrite node_at_write by now apply (below_not_nil T).
    rewrite bool_decide_eq_false_2; [reflexivity|]. now intros <-.
  - intros L HL. apply children_write_other. intros x ->.
    apply HL. now apply (below_child T L x).
Qed.

End FrameFacts.

Section CouplingFacts.

Context {regex : Type}.
Implicit Types (wd wr : World regex).

Lemma report_not_error a : error_line (report a) = false.
Proof. now destruct a. Qed.

Lemma reported_actions acts err :
  forallb error_line err = true -> reported (map report acts ++ err) = map report acts.
Proof.
  intros Herr. unfold reported. rewrite List.filter_app.
  assert (List.filter (fun line => negb (String.prefix "ERROR" line)) err = []) as ->.
  { induction err as [|e err IH]; [reflexivity|]. simpl in *.
    apply andb_prop in Herr as [He Herr]. unfold error_line in He. rewrite He. now apply IH. }
  rewrite app_nil_r. induction acts as [|a acts IH]; [reflexivity|].
  cbn [map List.filter]. fold (error_line (report a)). rewrite report_not_error.
  cbn. now rewrite IH.
Qed.

Lemma alike_same wd wr r :
  coupled wd wr -> alike wd wr (r, wd) (r, wr).
Proof.
  intros [Hc Hl]. split; [reflexivity|]. exists [], []. split; [|split; auto].
  constructor; cbn; rewrite ?app_nil_r; auto.
Qed.

(** A step that returns in both runs, followed by steps that go alike. *)
Lemma alike_then wd wr wd1 wr1 od or :
  alike wd wr (Return tt, wd1) (Return tt, wr1) ->
  alike wd1 wr1 od or ->
  alike wd wr od or.
Proof.
  intros [_ (a1 & e1 & [F1 H1 S1 D1 E1 C1 L1] & He1 & _)]
         [Hres (a2 & e2 & [F2 H2 S2 D2 E2 C2 L2] & He2 & Hf2)].
  cbn [fst snd] in *. rewrite (He1 eq_refl) in *. rewrite app_nil_r in *.
  split; [assumption|]. exists (a1 ++ a2), e2. split; [|split; assumption].
  constructor; try congruence.
  - rewrite S2, S1, map_app, <- !app_assoc. reflexivity.
  - rewrite D2, D1, <- app_assoc. reflexivity.
Qed.

Lemma alike_coupled wd wr od or : alike wd wr od or -> coupled (snd od) (snd or).
Proof. intros [_ (a & e & [] & _)]. now split. Qed.

Lemma alike_fs wd wr od or : alike wd wr od or -> fs (snd od) = fs wd.
Proof. now intros [_ (a & e & [] & _)]. Qed.

End CouplingFacts.

Section ExecutorsAlike.

Context {regex : Type}.
Implicit Types (wd wr : World regex).

Lemma alike_refuse wd wr e line :
  coupled wd wr -> error_line line = true ->
  alike wd wr (Raise e, printed wd line) (Raise e, printed wr line).
Proof.
  intros [Hc Hl] Hline. split; [reflexivity|]. exists [], [line].
  split; [|split; [discriminate|cbn; now rewrite Hline]].
  constructor; first [reflexivity | exact Hc | exact Hl | symmetry; apply app_nil_r].
Qed.

Lemma alike_act wd wr a g' :
  coupled wd wr ->
  alike wd wr (Return tt, printed wd (report a)) (Return tt, logged (with_fs wr g') a).
Proof.
  intros [Hc Hl]. split; [reflexivity|]. exists [a], [].
  split; [|split; auto]. constructor; first [reflexivity | exact Hc | exact Hl | symmetry; apply app_nil_r].
Qed.

Lemma mkdir_alike wd wr target L tn :
  coupled wd wr ->
  stat (fs wd) target = tn -> stat (fs wr) target = tn ->
  resolve (fs wr) false target = Some L -> node_at (fs wr) L = tn ->
  alike wd wr (DryRunExecutor_mkdir target wd) (LinkExecutor_mkdir target wr)
  /\ (fs (snd (LinkExecutor_mkdir target wr)) = fs wr
      \/ fs (snd (LinkExecutor_mkdir target wr)) = write (fs wr) L Dir)
  /\ (fst (LinkExecutor_mkdir target wr) = Return tt ->
      node_at (fs (snd (LinkExecutor_mkdir target wr))) L = Some Dir).
Proof.
  intros Hc Hd Hr HL Hn.
  rewrite DryRunExecutor_mkdir_cases, LinkExecutor_mkdir_cases, Hd, Hr.
  destruct tn as [[data| |t]|].
  - split; [now apply alike_refuse|]. split; [now left|discriminate].
  - split; [now apply alike_same|]. split; [now left|auto].
  - split; [now apply alike_refuse|]. split; [now left|discriminate].
  - unfold os_mkdir. rewrite HL, Hn.
    split; [now apply alike_act|]. split; [now right|]. intros _. cbn.
    rewrite node_at_write by (intros ->; discriminate).
    now rewrite bool_decide_eq_true_2.
Qed.

Lemma link_alike wd wr src target L tn :
  coupled wd wr -> src <> [] ->
  lstat (fs wd) target = tn -> lstat (fs wr) target = tn ->
  resolve (fs wr) false target = Some L -> node_at (fs wr) L = tn ->
  alike wd wr (DryRunExecutor_link src target wd) (LinkExecutor_link false src target wr)
  /\ (fs (snd (LinkExecutor_link false src target wr)) = fs wr
      \/ exists n, fs (snd (LinkExecutor_link false src target wr)) = write (fs wr) L n).
Proof.
  intros Hc Hsrc Hd Hr HL Hn.
  rewrite DryRunExecutor_link_cases, LinkExecutor_link_cases, Hd, Hr.
  destruct tn as [n|].
  - rewrite bool_decide_eq_true_2 by discriminate.
    split; [now apply alike_refuse|now left].
  - rewrite bool_decide_eq_false_2 by (intros H; now apply H).
    destruct (relative_path_returns (getcwd (fs wr)) (parent target) src Hsrc) as [p ->].
    unfold os_symlink. rewrite HL, Hn.
    split; [now apply alike_act|]. right. now eexists.
Qed.

Lemma copy_alike wd wr src target L tn Ls data :
  coupled wd wr ->
  stat (fs wd) target = tn -> stat (fs wr) target = tn ->
  resolve (fs wr) true target = Some L -> node_at (fs wr) L = tn ->
  (forall t, tn <> Some (Symlink t)) ->
  resolve (fs wr) true src = Some Ls -> node_at (fs wr) Ls = Some (File data) ->
  Ls <> L ->
  other_names (fs wr) L = [] ->
  alike wd wr (DryRunExecutor_copy src target wd) (LinkExecutor_copy src target wr)
  /\ (fs (snd (LinkExecutor_copy src target wr)) = fs wr
      \/ exists n, fs (snd (LinkExecutor_copy src target wr)) = write (fs wr) L n).
Proof.
  intros Hc Hd Hr HL Hn Hns HLs Hdata Hne Hun.
  rewrite DryRunExecutor_copy_cases, LinkExecutor_copy_cases.
  unfold is_dir. rewrite Hd, Hr.
  assert (shutil_copyfile (fs wr) src target
          = match tn with
            | Some Dir => None
            | _ => Some (write (fs wr) L (File data))
            end) as Hcopy.
  { rewrite (shutil_copyfile_single _ _ _ L HL Hun), HLs, Hdata, Hn.
    rewrite bool_decide_eq_false_2 by assumption.
    destruct tn as [[| |t]|]; try reflexivity. now elim (Hns t). }
  destruct tn as [[old| |t]|].
  - rewrite Hcopy. split; [now apply alike_act|]. right. now eexists.
  - split; [now apply alike_refuse|now left].
  - now elim (Hns t).
  - rewrite Hcopy. split; [now apply alike_act|]. right. now eexists.
Qed.

End ExecutorsAlike.

(* ===================================================================== *)
(** * A dry run previews the run *)
(* ===================================================================== *)

Section DryRunPreview.

Context {regex : Type}.
Variable re_compile : string -> option regex.
Variable re_match : regex -> string -> bool.
Variable f0 : FS.
Variable args : Args.Namespace.

Hypothesis Htidy : tidy f0 = true.
Hypothesis Hunshared : unshared f0 (loc_of f0 (Args.destination args)) = true.
Hypothesis Hsrc : simple (Args.source args) = true.
Hypothesis Hdst : simple (Args.destination args) = true.
Hypothesis Hsoft : Args.hard_links args = false.
Hypothesis Hapart :
  apart (loc_of f0 (Args.source args)) (loc_of f0 (Args.destination args)) = true.
Hypothesis Hdest : is_dir f0 (Args.destination args) = true.

Local Notation "'SRC'" := (Args.source args).
Local Notation "'DST'" := (Args.destination args).
Local Notation "'LS'" := (loc_of f0 (Args.source args)).
Local Notation "'LD'" := (loc_of f0 (Args.destination args)).
Local Notation "'dry'" := (with_dry_run true args).
Local Notation "'real'" := (with_dry_run false args).

Implicit Types (wd wr : World regex) (g : FS) (r done : list string).

Lemma the_executor_real : the_executor real = @LinkExecutor regex false.
Proof. unfold the_executor. cbn. now rewrite Hsoft. Qed.

(** No location on the way to an entry of the source lies at or below the
    destination. *)
Lemma outside_source X k : X `prefix_of` (LS ++ k) -> ~ LD `prefix_of` X.
Proof.
  intros HX HD.
  assert (LD `prefix_of` (LS ++ k)) as H1 by now transitivity X.
  assert (LS `prefix_of` (LS ++ k)) as H2 by now exists k.
  unfold apart in Hapart. apply andb_prop in Hapart as [Ha Hb].
  apply negb_true_iff, bool_decide_eq_false in Ha, Hb.
  destruct (prefix_weak_total _ _ _ H1 H2); contradiction.
Qed.

Lemma source_resolves g follow k :
  frame LD f0 g -> forallb plain_name k = true ->
  resolve g follow (SRC ++ k) = resolve f0 follow (SRC ++ k)
  /\ forall l, resolve f0 follow (SRC ++ k) = Some l ->
       l = LS ++ k /\ node_at g l = node_at f0 l /\ children g l = children f0 l.
Proof.
  intros [Hcwd Hnodes Hkids] Hk.
  destruct (simple_app f0 SRC k Hsrc Hk) as (Hsimple & Hbase & Hnames).
  pose proof (loc_of_app f0 SRC k Hsrc Hk) as Hloc.
  assert (forallb plain_name (names_of (SRC ++ k)) = true) as Hplain by exact Hsimple.
  assert (base_of g (SRC ++ k) = base_of f0 (SRC ++ k)) as Hb
    by (unfold base_of; now rewrite Hcwd).
  rewrite !resolve_simple, Hb by assumption. split.
  - apply namei_agree; [assumption|]. intros q Hq Hpre. split.
    + apply Hnodes. intros Hbelow. apply below_prefix in Hbelow.
      apply (outside_source (base_of f0 (SRC ++ k) ++ q) k); [|assumption].
      rewrite <- Hloc. unfold loc_of. now apply prefix_app.
    + apply tidy_no_symlink, Htidy.
  - intros l Hl. apply (namei_tidy_loc f0 _ _ Htidy) in Hl; [|assumption].
    fold (loc_of f0 (SRC ++ k)) in Hl. rewrite Hloc in Hl. subst l.
    split; [reflexivity|]. split.
    + apply Hnodes. intros Hbelow. apply below_prefix in Hbelow.
      now apply (outside_source (LS ++ k) k).
    + apply Hkids. now apply (outside_source (LS ++ k) k).
Qed.

Lemma source_stat g k :
  frame LD f0 g -> forallb plain_name k = true ->
  stat g (SRC ++ k) = node_at f0 (LS ++ k).
Proof.
  intros Hf Hk. destruct (source_resolves g true k Hf Hk) as [Hres Hl].
  destruct (simple_app f0 SRC k Hsrc Hk) as (Hsimple & _ & _).
  rewrite <- (loc_of_app f0 SRC k Hsrc Hk), <- (stat_tidy f0 true _ Htidy Hsimple).
  unfold stat. rewrite Hres. destruct (resolve f0 true (SRC ++ k)) as [l|]; [|reflexivity].
  cbn. now destruct (Hl l eq_refl) as (_ & -> & _).
Qed.

Lemma source_iterdir g k :
  frame LD f0 g -> forallb plain_name k = true ->
  iterdir g (SRC ++ k) = iterdir f0 (SRC ++ k)
  /\ forall items, iterdir f0 (SRC ++ k) = Some items ->
       items = map (fun n => (SRC ++ k) ++ [n]) (children f0 (LS ++ k)).
Proof.
  intros Hf Hk. destruct (source_resolves g true k Hf Hk) as [Hres Hl].
  unfold iterdir. rewrite !listdir_children, Hres.
  destruct (resolve f0 true (SRC ++ k)) as [l|]; [|split; [reflexivity|discriminate]].
  destruct (Hl l eq_refl) as (-> & -> & ->).
  split; [reflexivity|].
  destruct (node_at f0 (LS ++ k)) as [[]|]; cbn; try discriminate.
  now intros items [= <-].
Qed.

Lemma target_resolves r done g n follow :
  inv f0 args r done g -> forallb plain_name r = true -> plain_name n = true -> ~ In n done ->
  node_at g ((LD ++ r) ++ [n]) = node_at f0 ((LD ++ r) ++ [n])
  /\ resolve g follow (DST ++ r ++ [n]) = Some ((LD ++ r) ++ [n])
  /\ (resolve g follow (DST ++ r ++ [n]) ≫= node_at g) = node_at f0 ((LD ++ r) ++ [n])
  /\ (resolve f0 follow (DST ++ r ++ [n]) ≫= node_at f0) = node_at f0 ((LD ++ r) ++ [n]).
Proof.
  intros ([Hcwd Hnodes Hkids] & Hfresh & Hdirs) Hr Hn Hnew.
  assert (forallb plain_name (r ++ [n]) = true) as Hrn
    by (rewrite forallb_app, Hr; cbn; now rewrite Hn).
  destruct (simple_app f0 DST (r ++ [n]) Hdst Hrn) as (Hsimple & Hbase & Hnames).
  assert (node_at g ((LD ++ r) ++ [n]) = node_at f0 ((LD ++ r) ++ [n])) as Hnode.
  { apply Hfresh; [now apply below_app|]. intros m Hm Hpre.
    apply (prefix_snoc_same (LD ++ r) m n []) in Hpre. now subst m. }
  assert (resolve g follow (DST ++ r ++ [n]) = Some ((LD ++ r) ++ [n])) as Hres.
  { rewrite resolve_simple by assumption. rewrite Hnames.
    assert (base_of g (DST ++ r ++ [n]) = base_of f0 DST) as ->
      by (unfold base_of in *; now rewrite Hcwd).
    rewrite app_assoc. rewrite namei_last; try assumption.
    - unfold loc_of. now rewrite !app_assoc.
    - unfold simple in Hdst. now rewrite forallb_app, Hdst, Hr.
    - right. intros t. rewrite !app_assoc.
      change (base_of f0 DST ++ names_of DST) with LD.
      rewrite Hnode. apply tidy_no_symlink, Htidy. }
  split; [assumption|]. split; [assumption|]. split.
  - now rewrite Hres.
  - rewrite (stat_tidy f0 follow _ Htidy Hsimple).
    now rewrite (loc_of_app f0 DST (r ++ [n]) Hdst Hrn), app_assoc.
Qed.

Lemma at_most_refl T n g : at_most T n g g.
Proof. repeat split. Qed.

Lemma at_most_trans T n g1 g2 g3 : at_most T n g1 g2 -> at_most T n g2 g3 -> at_most T n g1 g3.
Proof.
  intros (c1 & n1 & k1 & s1) (c2 & n2 & k2 & s2). repeat split.
  - congruence.
  - intros l Hl. now rewrite n2, n1.
  - intros L HL. now rewrite k2, k1.
  - congruence.
Qed.

Lemma at_most_write T n g x : at_most T n g (write g (T ++ [n]) x).
Proof.
  repeat split.
  - intros l Hl. rewrite node_at_write by now destruct T.
    rewrite bool_decide_eq_false_2; [reflexivity|]. intros <-. now apply Hl.
  - intros L HL. apply children_write_other. intros y E.
    apply app_inj_tail in E as [<- _]. now apply HL.
Qed.

Lemma at_most_frame T n g g' : frame (T ++ [n]) g g' -> at_most T n g g'.
Proof.
  intros [c nd k s]. repeat split; [assumption| | |assumption].
  - intros l Hl. apply nd. intros Hb. now apply Hl, below_prefix.
  - intros L HL. apply k. intros Hb. apply HL. transitivity (T ++ [n]); [|assumption].
    now exists [n].
Qed.

Lemma at_most_cases T n g g' :
  g' = g \/ (exists x, g' = write g (T ++ [n]) x) -> at_most T n g g'.
Proof. intros [->|[x ->]]; [apply at_most_refl|apply at_most_write]. Qed.

Lemma prefix_snoc_not_dir (T : loc) n q : q `prefix_of` T -> ~ (T ++ [n]) `prefix_of` q.
Proof.
  intros H1 H2. apply (prefix_snoc_not T n). now transitivity q.
Qed.

(** No name in the destination becomes one of several names of a file. *)
Lemma inv_unshared r done g l :
  inv f0 args r done g -> LD `prefix_of` l -> other_names g l = [].
Proof.
  intros ([_ _ _ Hs] & _) Hl. unfold other_names. rewrite Hs.
  exact (unshared_other_names f0 LD l Hunshared Hl).
Qed.

Lemma target_below r n : LD `prefix_of` (LD ++ r) ++ [n].
Proof. rewrite <- app_assoc. now exists (r ++ [n]). Qed.

(** After the entry [n] of the directory [r] has been dealt with. *)
Lemma inv_step r done g g' n :
  inv f0 args r done g -> at_most (LD ++ r) n g g' ->
  inv f0 args r (done ++ [n]) g' /\ frame (LD ++ r) g g'.
Proof.
  intros (Hframe & Hfresh & Hdirs) (Hc & Hn & Hk & Hs).
  assert (frame (LD ++ r) g g') as Hfr.
  { constructor; [assumption| |assumption|assumption].
    intros l Hl. apply Hn. intros Hpre. now apply Hl, (below_snoc _ n). }
  split; [|assumption]. split; [|split].
  - apply (frame_trans _ _ g); [assumption|].
    apply (frame_mono _ (LD ++ r)); [now exists r|assumption].
  - intros l Hl Hnot. rewrite Hn.
    + apply Hfresh; [assumption|]. intros m Hm. apply Hnot, in_or_app. now left.
    + apply Hnot, in_or_app. right. now left.
  - intros q Hq Hpre. rewrite Hn; [now apply Hdirs|].
    apply prefix_snoc_not_dir. unfold loc_of. rewrite <- app_assoc. now apply prefix_app.
Qed.

(** Before the walk enters the directory [n] of [r], just made or found
    in the destination. *)
Lemma inv_enter r done g g' n :
  inv f0 args r done g -> ~ In n done ->
  g' = g \/ g' = write g ((LD ++ r) ++ [n]) Dir ->
  node_at g' ((LD ++ r) ++ [n]) = Some Dir ->
  inv f0 args (r ++ [n]) [] g'.
Proof.
  intros Hinv Hnew Hg' Hdir.
  assert (at_most (LD ++ r) n g g') as Hat
    by (apply at_most_cases; destruct Hg' as [-> | ->]; eauto).
  destruct (inv_step r done g g' n Hinv Hat) as [(Hframe' & _ & Hdirs') _].
  destruct Hinv as (Hframe & Hfresh & Hdirs).
  assert (forall l, l <> (LD ++ r) ++ [n] -> node_at g' l = node_at g l) as Hother.
  { intros l Hl. destruct Hg' as [-> | ->]; [reflexivity|].
    rewrite node_at_write by now destruct (LD ++ r).
    now rewrite bool_decide_eq_false_2 by congruence. }
  split; [assumption|]. split.
  - intros l Hl _. rewrite app_assoc in Hl. rewrite Hother.
    + apply Hfresh; [apply (below_trans _ ((LD ++ r) ++ [n])); [now exists [n]|assumption]|].
      intros m Hm Hpre. destruct Hl as (k & Hk & ->).
      rewrite <- (app_assoc (LD ++ r) [n] k) in Hpre.
      apply prefix_snoc_same in Hpre. now subst m.
    + intros ->. now apply (not_below_prefix ((LD ++ r) ++ [n]) ((LD ++ r) ++ [n])) in Hl.
  - rewrite app_assoc. apply dirs_upto_snoc; [assumption|].
    rewrite <- Hdir. f_equal. unfold loc_of. now rewrite <- !app_assoc.
Qed.

Lemma bind_run {A B} (m : M regex A) (k : A -> M regex B) w :
  (m ≫= k) w = match m w with
               | (Return a, w') => k a w'
               | (Raise e, w') => (Raise e, w')
               end.
Proof. reflexivity. Qed.

(** The start of a call reads and writes [cache] only, and does the same
    in both runs. *)
Lemma cached_copy_alike wd wr :
  coupled wd wr ->
  exists res c l,
    cached_copy_files_re re_compile dry wd
      = (res, mkWorld (fs wd) (stdout wd) c l (history wd))
    /\ cached_copy_files_re re_compile real wr
      = (res, mkWorld (fs wr) (stdout wr) c l (history wr)).
Proof.
  destruct wd as [fd sd cd ld hd], wr as [fr sr cr lr hr].
  intros [Hc Hl]. cbn in Hc, Hl. subst cr lr.
  unfold cached_copy_files_re, compile_all, cache_get, cache_set.
  cbv [mbind M_bind mret M_ret raise]. cbn.
  destruct (cd !! "cl.cp"); [eauto|].
  destruct (mapM re_compile _); eauto.
Qed.

Lemma cached_ignore_alike wd wr :
  coupled wd wr ->
  exists res c l,
    cached_ignore_files_re re_compile dry wd
      = (res, mkWorld (fs wd) (stdout wd) c l (history wd))
    /\ cached_ignore_files_re re_compile real wr
      = (res, mkWorld (fs wr) (stdout wr) c l (history wr)).
Proof.
  destruct wd as [fd sd cd ld hd], wr as [fr sr cr lr hr].
  intros [Hc Hl]. cbn in Hc, Hl. subst cr lr.
  unfold cached_ignore_files_re, compile_all, cache_get, cache_set.
  cbv [mbind M_bind mret M_ret raise]. cbn.
  destruct (cd !! "cl.ignore"); [eauto|].
  destruct (mapM re_compile _); eauto.
Qed.

(** Two runs that go alike from worlds which differ from [wd] and [wr] in
    [cache] only. *)
Lemma alike_from wd wr c l od or :
  alike (mkWorld (fs wd) (stdout wd) c l (history wd))
        (mkWorld (fs wr) (stdout wr) c l (history wr)) od or ->
  alike wd wr od or.
Proof.
  intros [Hres (acts & err & [] & He)]. split; [assumption|].
  exists acts, err. split; [|assumption]. now constructor.
Qed.

Lemma alike_raise wd wr c l e :
  alike wd wr (Raise e, mkWorld (fs wd) (stdout wd) c l (history wd))
              (Raise e, mkWorld (fs wr) (stdout wr) c l (history wr)).
Proof.
  apply (alike_from wd wr c l). now apply alike_same.
Qed.

Lemma item_path r n : (SRC ++ r) ++ [n] = SRC ++ (r ++ [n]).
Proof. now rewrite app_assoc. Qed.

Lemma item_sub r n :
  forallb plain_name r = true -> plain_name n = true ->
  remove_front_dir SRC ((SRC ++ r) ++ [n]) = Return (r ++ [n])
  /\ joinpath DST (r ++ [n]) = DST ++ r ++ [n]
  /\ forallb plain_name (r ++ [n]) = true.
Proof.
  intros Hr Hn.
  assert (forallb plain_name (r ++ [n]) = true) as Hrn
    by (rewrite forallb_app, Hr; cbn; now rewrite Hn).
  rewrite item_path. split; [|split; [|assumption]].
  - apply remove_front_dir_below; [now destruct r|now apply plain_names_wf].
  - unfold joinpath. now rewrite (is_absolute_segs _ (plain_names_wf _ Hrn)).
Qed.

Lemma item_not_destination r n :
  forallb plain_name r = true -> plain_name n = true ->
  path_eqb ((SRC ++ r) ++ [n]) DST = false.
Proof.
  intros Hr Hn. destruct (item_sub r n Hr Hn) as (_ & _ & Hrn).
  unfold path_eqb. apply bool_decide_eq_false. intros E.
  apply (outside_source (LS ++ r ++ [n]) (r ++ [n])); [reflexivity|].
  rewrite <- (loc_of_app f0 SRC (r ++ [n]) Hsrc Hrn), <- item_path, E. reflexivity.
Qed.

(** The facts about an entry [n] of the directory [r] that the three
    cases of the loop body use. *)
Lemma entry_facts r done n m wd wr :
  forallb plain_name r = true -> plain_name n = true -> ~ In n done ->
  node_at f0 ((LS ++ r) ++ [n]) = Some m ->
  fs wd = f0 -> inv f0 args r done (fs wr) ->
  let item := (SRC ++ r) ++ [n] in
  let target := DST ++ r ++ [n] in
  let L := (LD ++ r) ++ [n] in
  let tn := node_at f0 L in
  stat (fs wd) item = Some m /\ stat (fs wr) item = Some m
  /\ (resolve (fs wr) true item = Some ((LS ++ r) ++ [n])
      /\ node_at (fs wr) ((LS ++ r) ++ [n]) = Some m)
  /\ (stat (fs wd) target = tn /\ stat (fs wr) target = tn
      /\ lstat (fs wd) target = tn /\ lstat (fs wr) target = tn)
  /\ (resolve (fs wr) true target = Some L /\ resolve (fs wr) false target = Some L
      /\ node_at (fs wr) L = tn)
  /\ (LS ++ r) ++ [n] <> L.
Proof.
  intros Hr Hn Hnew Hm Hfd Hinv. cbv zeta.
  destruct (item_sub r n Hr Hn) as (_ & _ & Hrn).
  pose proof Hinv as (Hframe & _ & _).
  destruct (target_resolves r done (fs wr) n true Hinv Hr Hn Hnew) as (Hnode & Hres1 & Hg1 & Hf1).
  destruct (target_resolves r done (fs wr) n false Hinv Hr Hn Hnew) as (_ & Hres0 & Hg0 & Hf0).
  destruct (source_resolves (fs wr) true (r ++ [n]) Hframe Hrn) as [Hres Hl].
  assert (stat f0 (SRC ++ r ++ [n]) = Some m) as Hs0.
  { rewrite (source_stat f0 _ (frame_refl _ _) Hrn). rewrite <- Hm. f_equal.
    apply app_assoc. }
  assert (resolve f0 true (SRC ++ r ++ [n]) = Some (LS ++ r ++ [n])) as Hsrcres.
  { unfold stat in Hs0.
    destruct (resolve f0 true (SRC ++ r ++ [n])) as [l|] eqn:E; [|discriminate Hs0].
    destruct (Hl l eq_refl) as (-> & _). reflexivity. }
  destruct (Hl _ Hsrcres) as (_ & Hsrcnode & _).
  rewrite Hfd, !item_path, <- !(app_assoc LS r [n]).
  split; [exact Hs0|]. split.
  { rewrite (source_stat _ _ Hframe Hrn). rewrite <- Hm. f_equal. apply app_assoc. }
  split.
  { split; [rewrite Hres; exact Hsrcres|]. rewrite Hsrcnode, <- Hm. f_equal. apply app_assoc. }
  split.
  { split; [exact Hf1|]. split; [exact Hg1|]. split; [exact Hf0|exact Hg0]. }
  split.
  { split; [exact Hres1|]. split; [exact Hres0|exact Hnode]. }
  intros E. apply (outside_source (LS ++ r ++ [n]) (r ++ [n])); [reflexivity|].
  rewrite E, <- app_assoc. exists (r ++ [n]). reflexivity.
Qed.

Lemma visit_alike depth crs irs r done n m wd wr :
  walk_spec re_compile re_match f0 args depth ->
  forallb plain_name r = true -> plain_name n = true -> ~ In n done ->
  node_at f0 ((LS ++ r) ++ [n]) = Some m ->
  fs wd = f0 -> coupled wd wr -> inv f0 args r done (fs wr) ->
  alike wd wr
    (visit re_match DryRunExecutor dry crs irs
       (fun item => create_links re_compile re_match depth dry (Some item))
       ((SRC ++ r) ++ [n]) wd)
    (visit re_match (LinkExecutor false) real crs irs
       (fun item => create_links re_compile re_match depth real (Some item))
       ((SRC ++ r) ++ [n]) wr)
  /\ at_most (LD ++ r) n (fs wr)
       (fs (snd (visit re_match (LinkExecutor false) real crs irs
                   (fun item => create_links re_compile re_match depth real (Some item))
                   ((SRC ++ r) ++ [n]) wr))).
Proof.
  intros Hrec Hr Hn Hnew Hm Hfd Hc Hinv.
  destruct (item_sub r n Hr Hn) as (Hsub & Htarget & Hrn).
  destruct (entry_facts r done n m wd wr Hr Hn Hnew Hm Hfd Hinv)
    as (Hsd & Hsr & (Hires & Hinode) & (Htd & Htr & Hld & Hlr) & (Hres1 & Hres0 & Hnode) & Hne).
  rewrite (visit_cases re_match DryRunExecutor dry crs irs _ _ (r ++ [n]) wd Hsub).
  rewrite (visit_cases re_match (LinkExecutor false) real crs irs _ _ (r ++ [n]) wr Hsub).
  cbn [Args.destination with_dry_run]. rewrite Htarget.
  destruct (any_match re_match irs _).
  { split; [exact (alike_same wd wr (Return tt) Hc)|apply at_most_refl]. }
  unfold is_dir. rewrite Hsd, Hsr.
  destruct m as [data| |t].
  - (* a regular file *)
    unfold leaf. destruct (any_match re_match crs _).
    + cbn [copy DryRunExecutor LinkExecutor].
      destruct (copy_alike wd wr ((SRC ++ r) ++ [n]) (DST ++ r ++ [n])
                  ((LD ++ r) ++ [n]) (node_at f0 ((LD ++ r) ++ [n]))
                  ((LS ++ r) ++ [n]) data Hc Htd Htr Hres1 Hnode
                  (fun t => tidy_no_symlink f0 Htidy _ t) Hires Hinode Hne
                  (inv_unshared r done (fs wr) _ Hinv (target_below r n)))
        as [Halike Hfs].
      split; [exact Halike|]. apply at_most_cases. exact Hfs.
    + cbn [link DryRunExecutor LinkExecutor].
      assert ((SRC ++ r) ++ [n] <> []) as Hitem by (now destruct (SRC ++ r)).
      destruct (link_alike wd wr ((SRC ++ r) ++ [n]) (DST ++ r ++ [n])
                  ((LD ++ r) ++ [n]) (node_at f0 ((LD ++ r) ++ [n]))
                  Hc Hitem Hld Hlr Hres0 Hnode)
        as [Halike Hfs].
      split; [exact Halike|]. apply at_most_cases. exact Hfs.
  - (* a directory *)
    rewrite (item_not_destination r n Hr Hn). cbn [negb].
    cbn [mkdir DryRunExecutor LinkExecutor]. rewrite !bind_run.
    destruct (mkdir_alike wd wr (DST ++ r ++ [n]) ((LD ++ r) ++ [n])
                (node_at f0 ((LD ++ r) ++ [n])) Hc Htd Htr Hres0 Hnode)
      as (Halike & Hfs & Hdir).
    destruct (DryRunExecutor_mkdir (DST ++ r ++ [n]) wd) as [resd wd1].
    destruct (LinkExecutor_mkdir (DST ++ r ++ [n]) wr) as [resr wr1].
    cbn [fst snd] in Halike, Hfs, Hdir |- *.
    assert (resd = resr) as <- by exact (proj1 Halike).
    assert (at_most (LD ++ r) n (fs wr) (fs wr1)) as Hat.
    { apply at_most_cases. destruct Hfs as [E | E]; [left; exact E | right; eexists; exact E]. }
    destruct resd as [[]|e]; [|split; [exact Halike|exact Hat]].
    assert (fs wd1 = f0) as Hfd1 by (rewrite <- Hfd; exact (alike_fs _ _ _ _ Halike)).
    assert (inv f0 args (r ++ [n]) [] (fs wr1)) as Hinv1
      by exact (inv_enter r done (fs wr) (fs wr1) n Hinv Hnew Hfs (Hdir eq_refl)).
    destruct (Hrec (r ++ [n]) (Some ((SRC ++ r) ++ [n])) wd1 wr1 Hrn (item_path r n)
                Hfd1 (alike_coupled _ _ _ _ Halike) Hinv1) as [Hwalk Hfr].
    split; [exact (alike_then _ _ wd1 wr1 _ _ Halike Hwalk)|].
    apply (at_most_trans _ _ _ (fs wr1)); [exact Hat|].
    apply at_most_frame. rewrite <- app_assoc. exact Hfr.
  - exfalso. exact (tidy_no_symlink f0 Htidy ((LS ++ r) ++ [n]) t Hm).
Qed.

Lemma loop_alike depth crs irs r :
  walk_spec re_compile re_match f0 args depth -> forallb plain_name r = true ->
  forall names done wd wr,
    NoDup names ->
    (forall n, In n names ->
       ~ In n done /\ plain_name n = true
       /\ exists m, node_at f0 ((LS ++ r) ++ [n]) = Some m) ->
    fs wd = f0 -> coupled wd wr -> inv f0 args r done (fs wr) ->
    alike wd wr
      (for_each (map (fun n => (SRC ++ r) ++ [n]) names)
         (visit re_match DryRunExecutor dry crs irs
            (fun item => create_links re_compile re_match depth dry (Some item))) wd)
      (for_each (map (fun n => (SRC ++ r) ++ [n]) names)
         (visit re_match (LinkExecutor false) real crs irs
            (fun item => create_links re_compile re_match depth real (Some item))) wr)
    /\ frame (LD ++ r) (fs wr)
         (fs (snd (for_each (map (fun n => (SRC ++ r) ++ [n]) names)
                     (visit re_match (LinkExecutor false) real crs irs
                        (fun item => create_links re_compile re_match depth real (Some item)))
                     wr))).
Proof.
  intros Hrec Hr. induction names as [|n names IH]; intros done wd wr Hnd Hnames Hfd Hc Hinv.
  - split; [exact (alike_same wd wr (Return tt) Hc)|apply frame_refl].
  - cbn [map for_each]. rewrite !bind_run.
    apply NoDup_cons in Hnd as [Hn Hnd].
    destruct (Hnames n (or_introl eq_refl)) as (Hnew & Hplain & m & Hm).
    destruct (visit_alike depth crs irs r done n m wd wr Hrec Hr Hplain Hnew Hm Hfd Hc Hinv)
      as [Halike Hat].
    destruct (inv_step r done (fs wr) _ n Hinv Hat) as [Hinv' Hframe].
    destruct (visit re_match DryRunExecutor _ _ _ _ _ wd) as [resd wd1].
    destruct (visit re_match (LinkExecutor false) _ _ _ _ _ wr) as [resr wr1].
    cbn [fst snd] in Halike, Hat, Hinv', Hframe |- *.
    assert (resd = resr) as <- by exact (proj1 Halike).
    destruct resd as [[]|e]; [|split; [exact Halike|exact Hframe]].
    assert (fs wd1 = f0) as Hfd1 by (rewrite <- Hfd; exact (alike_fs _ _ _ _ Halike)).
    assert (forall n', In n' names ->
              ~ In n' (done ++ [n]) /\ plain_name n' = true
              /\ exists m', node_at f0 ((LS ++ r) ++ [n']) = Some m') as Hnames'.
    { intros n' Hn'. destruct (Hnames n' (or_intror Hn')) as (Hd & Hp & Hm').
      split; [|split; [exact Hp|exact Hm']].
      intros Hin. apply in_app_or in Hin as [Hin|[<-|[]]]; [exact (Hd Hin)|].
      apply Hn. apply list_elem_of_In. exact Hn'. }
    destruct (IH (done ++ [n]) wd1 wr1 Hnd Hnames' Hfd1 (alike_coupled _ _ _ _ Halike) Hinv')
      as [Hrest Hframe'].
    split; [exact (alike_then _ _ wd1 wr1 _ _ Halike Hrest)|].
    exact (frame_trans _ _ (fs wr1) _ Hframe Hframe').
Qed.

Lemma children_known g L n :
  tidy g = true -> In n (children g L) ->
  plain_name n = true /\ exists m, node_at g (L ++ [n]) = Some m.
Proof.
  intros Hg Hin. apply elem_of_children in Hin as [m Hin].
  destruct (In_assoc _ _ _ Hin) as [m' Hm'].
  assert (node_at g (L ++ [n]) = Some m') as Hnode by (destruct L; exact Hm').
  split; [|eauto]. apply (tidy_names g Hg) in Hnode.
  rewrite forallb_app in Hnode. apply andb_prop in Hnode as [_ Hnode].
  cbn in Hnode. rewrite andb_true_r in Hnode. exact Hnode.
Qed.

Lemma walk_alike depth : walk_spec re_compile re_match f0 args depth.
Proof.
  induction depth as [|depth IH]; intros r path wd wr Hr Hpath Hfd Hc Hinv.
  - split; [exact (alike_same wd wr _ Hc)|apply frame_refl].
  - cbn [create_links]. rewrite !bind_run.
    destruct (cached_copy_alike wd wr Hc) as (res1 & c1 & l1 & -> & ->).
    destruct res1 as [crs|e]; [|split; [apply alike_raise|apply frame_refl]].
    rewrite !bind_run.
    destruct (cached_ignore_alike
                (mkWorld (fs wd) (stdout wd) c1 l1 (history wd))
                (mkWorld (fs wr) (stdout wr) c1 l1 (history wr)) (conj eq_refl eq_refl))
      as (res2 & c2 & l2 & -> & ->).
    cbn [fs stdout history].
    destruct res2 as [irs|e]; [|split; [apply alike_raise|apply frame_refl]].
    rewrite !bind_run. cbn [Args.source with_dry_run]. rewrite Hpath.
    unfold query. cbn [fs].
    pose proof Hinv as (Hframe & _ & _).
    destruct (source_iterdir (fs wr) r Hframe Hr) as [-> _].
    rewrite Hfd. destruct (source_iterdir f0 r (frame_refl _ _) Hr) as [_ Hitems].
    destruct (iterdir f0 (SRC ++ r)) as [items|].
    2: { split; [rewrite <- Hfd; apply alike_raise|apply frame_refl]. }
    rewrite (Hitems items eq_refl), the_executor_real.
    change (the_executor dry) with (@DryRunExecutor regex).
    destruct (loop_alike depth crs irs r IH Hr (children f0 (LS ++ r)) []
                (mkWorld f0 (stdout wd) c2 l2 (history wd))
                (mkWorld (fs wr) (stdout wr) c2 l2 (history wr)))
      as [Halike Hfr].
    + apply children_nodup, tidy_nodup, Htidy.
    + intros n Hn. split; [exact (fun H => H)|]. exact (children_known f0 _ n Htidy Hn).
    + reflexivity.
    + split; reflexivity.
    + exact Hinv.
    + split; [|exact Hfr]. apply (alike_from wd wr c2 l2). rewrite Hfd. exact Halike.
Qed.

Lemma destination_reached : inv f0 args [] [] f0.
Proof.
  split; [apply frame_refl|]. split; [reflexivity|].
  rewrite app_nil_r. intros q Hq [k Hk].
  assert (node_at f0 LD = Some Dir) as HD.
  { assert (stat f0 DST = Some Dir) as Hs.
    { unfold is_dir in Hdest. destruct (stat f0 DST) as [[| |]|]; congruence. }
    rewrite <- (stat_tidy f0 true DST Htidy Hdst). exact Hs. }
  unfold loc_of in HD. rewrite Hk, app_assoc in HD.
  destruct k as [|x k]; [now rewrite app_nil_r in HD|].
  now apply (tidy_ancestor f0 Htidy _ (x :: k) Dir).
Qed.

Lemma preview depth :
  let od := create_links re_compile re_match depth dry None (boot f0) in
  let or := create_links re_compile re_match depth real None (boot f0) in
  fst od = fst or
  /\ reported (stdout (snd od)) = map report (history (snd or))
  /\ stdout (snd od) = map report (history (snd or)) ++ stdout (snd or)
  /\ forallb error_line (stdout (snd or)) = true
  /\ fs (snd od) = f0.
Proof.
  cbv zeta.
  destruct (walk_alike depth [] None (boot f0) (boot f0)) as [[Hres Hrest] _].
  - reflexivity.
  - cbn. now rewrite app_nil_r.
  - reflexivity.
  - split; reflexivity.
  - exact destination_reached.
  - destruct Hrest as (acts & err & [Hfs _ Hout Hdone Herr _ _] & _ & Herrs).
    cbn [boot fs stdout history app] in Hfs, Hout, Hdone, Herr.
    split; [exact Hres|]. rewrite Hout, Hdone, Herr.
    split; [now apply reported_actions|]. split; [reflexivity|].
    split; [exact Herrs|exact Hfs].
Qed.

Lemma real_run_frame depth :
  frame LD f0 (fs (snd (create_links re_compile re_match depth real None (boot f0)))).
Proof.
  destruct (walk_alike depth [] None (boot f0) (boot f0)) as [_ Hfr].
  - reflexivity.
  - cbn. now rewrite app_nil_r.
  - reflexivity.
  - split; reflexivity.
  - exact destination_reached.
  - rewrite app_nil_r in Hfr. exact Hfr.
Qed.


Section Mirror.

Variables crs irs : list regex.
Hypothesis Hcrs :
  mapM re_compile (concat (Args.copy args) ++ Args.copy_list_file args) = Some crs.
Hypothesis Hirs :
  mapM re_compile (concat (Args.ignore args) ++ Args.ignore_list_file args) = Some irs.

Lemma mirrored_same g g' q :
  node_at g' (LD ++ q) = node_at g (LD ++ q) -> mirrored re_match f0 args crs g q -> mirrored re_match f0 args crs g' q.
Proof. unfold mirrored. now intros ->. Qed.

Lemma beside_coupled wr : fs (beside f0 wr) = f0 /\ coupled (beside f0 wr) wr.
Proof. repeat split. Qed.

Lemma child_listed g L n m : node_at g (L ++ [n]) = Some m -> In n (children g L).
Proof.
  intros H. assert (L ++ [n] <> []) as Hne by now destruct L.
  destruct (L ++ [n]) as [|x l] eqn:E; [congruence|]. cbn in H.
  apply assoc_In in H. unfold children.
  apply list_elem_of_In, list_elem_of_omap. exists (x :: l, m).
  split; [now apply list_elem_of_In|]. cbn [fst]. rewrite <- E. apply child_name_snoc.
Qed.

Lemma kept_below_enter r n k :
  kept_below re_match args irs r (n :: k) -> kept_below re_match args irs (r ++ [n]) k.
Proof.
  intros H p Hp Hpre. rewrite <- app_assoc. apply (H (n :: p)); [discriminate|].
  now apply prefix_cons.
Qed.

Lemma visit_mirror depth r done n m wr :
  mirror_spec re_compile re_match f0 args crs irs depth ->
  forallb plain_name r = true -> plain_name n = true -> ~ In n done ->
  node_at f0 ((LS ++ r) ++ [n]) = Some m ->
  inv f0 args r done (fs wr) -> tested_keys_absent wr ->
  fst (visit re_match (LinkExecutor false) real crs irs
         (fun item => create_links re_compile re_match depth real (Some item))
         ((SRC ++ r) ++ [n]) wr) = Return tt ->
  forall k, kept_below re_match args irs r (n :: k) ->
    mirrored re_match f0 args crs
      (fs (snd (visit re_match (LinkExecutor false) real crs irs
                  (fun item => create_links re_compile re_match depth real (Some item))
                  ((SRC ++ r) ++ [n]) wr)))
      (r ++ n :: k).
Proof.
  intros Hrec Hr Hn Hnew Hm Hinv Hkeys.
  destruct (beside_coupled wr) as [Hfd Hc].
  destruct (item_sub r n Hr Hn) as (Hsub & Htarget & Hrn).
  destruct (entry_facts r done n m (beside f0 wr) wr Hr Hn Hnew Hm Hfd Hinv)
    as (_ & Hsr & (Hires & Hinode) & (Htd & Htr & _ & Hlr) & (Hres1 & Hres0 & Hnode) & Hne).
  pose proof Hinv as ([Hcwd _ _ _] & _ & _).
  rewrite (visit_cases re_match (LinkExecutor false) real crs irs _ _ (r ++ [n]) wr Hsub).
  cbn [Args.destination with_dry_run]. rewrite Htarget.
  intros Hret k Hkept.
  assert (any_match re_match irs (as_posix ((SRC ++ r) ++ [n])) = false) as Hig.
  { rewrite <- app_assoc. apply (Hkept [n]); [discriminate|].
    apply (prefix_cons n [] k), prefix_nil. }
  revert Hret. rewrite Hig. unfold is_dir. rewrite Hsr.
  assert (LS ++ r ++ [n] = (LS ++ r) ++ [n]) as Eq1 by apply app_assoc.
  assert (LD ++ r ++ [n] = (LD ++ r) ++ [n]) as Eq2 by apply app_assoc.
  assert (SRC ++ r ++ [n] = (SRC ++ r) ++ [n]) as Eq3 by apply app_assoc.
  assert ((LD ++ r) ++ [n] <> []) as HLne by (now destruct (LD ++ r)).
  destruct m as [data| |t].
  - (* a regular file: nothing lies below it *)
    destruct k as [|x k].
    2: { intros _. unfold mirrored.
         destruct (node_at f0 (LS ++ r ++ n :: x :: k)) as [z|] eqn:E; [|exact I].
         exfalso. change (n :: x :: k) with ([n] ++ x :: k) in E.
         rewrite !app_assoc in E.
         apply (tidy_ancestor f0 Htidy) in E; [congruence|discriminate]. }
    unfold mirrored. rewrite Eq1, Hm, Eq2, Eq3.
    unfold leaf.
    destruct (any_match re_match crs (as_posix ((SRC ++ r) ++ [n]))).
    + cbn [copy LinkExecutor].
      rewrite LinkExecutor_copy_cases.
      destruct (is_dir (fs wr) (DST ++ r ++ [n])); [discriminate|].
      rewrite (shutil_copyfile_single _ _ _ _ Hres1
                 (inv_unshared r done (fs wr) _ Hinv (target_below r n))).
      rewrite Hires, Hinode, Hnode.
      rewrite bool_decide_eq_false_2 by exact Hne.
      destruct (node_at f0 ((LD ++ r) ++ [n])) as [[old| |t]|];
        try discriminate; intros _; cbn [snd fs logged with_fs];
        rewrite node_at_write by exact HLne;
        now rewrite bool_decide_eq_true_2.
    + cbn [link LinkExecutor].
      rewrite LinkExecutor_link_cases.
      destruct (bool_decide (lstat (fs wr) (DST ++ r ++ [n]) <> None)); [discriminate|].
      assert (getcwd (fs wr) = getcwd f0) as -> by (unfold getcwd; now rewrite Hcwd).
      destruct (relative_path (getcwd f0) (parent (DST ++ r ++ [n])) ((SRC ++ r) ++ [n]))
        as [stored|e]; [|discriminate].
      unfold os_symlink. rewrite Hres0, Hnode.
      destruct (node_at f0 ((LD ++ r) ++ [n])); [discriminate|]. intros _.
      cbn [snd fs logged with_fs]. exists stored. split; [reflexivity|].
      rewrite node_at_write by exact HLne. now rewrite bool_decide_eq_true_2.
  - (* a directory *)
    rewrite (item_not_destination r n Hr Hn). cbn [negb].
    cbn [mkdir LinkExecutor]. rewrite bind_run.
    destruct (mkdir_alike (beside f0 wr) wr (DST ++ r ++ [n]) ((LD ++ r) ++ [n])
                (node_at f0 ((LD ++ r) ++ [n])) Hc Htd Htr Hres0 Hnode)
      as (_ & Hfs & Hdir).
    pose proof (forward_executor (@LinkExecutor regex false) (or_intror (ex_intro _ false eq_refl)))
      as (Hfwd & _ & _).
    specialize (Hfwd (DST ++ r ++ [n]) wr). cbn [mkdir LinkExecutor] in Hfwd.
    destruct (LinkExecutor_mkdir (DST ++ r ++ [n]) wr) as [resr wr1].
    cbn [fst snd] in Hfs, Hdir, Hfwd.
    destruct resr as [[]|e]; [|discriminate].
    pose proof (proj2 Hfwd Hkeys) as Hkeys1.
    assert (inv f0 args (r ++ [n]) [] (fs wr1)) as Hinv1
      by exact (inv_enter r done (fs wr) (fs wr1) n Hinv Hnew Hfs (Hdir eq_refl)).
    destruct (beside_coupled wr1) as [Hfd1 Hc1].
    destruct (walk_alike depth (r ++ [n]) (Some ((SRC ++ r) ++ [n])) (beside f0 wr1) wr1 Hrn
                (item_path r n) Hfd1 Hc1 Hinv1) as [_ Hfr].
    intros Hret.
    destruct k as [|x k].
    + unfold mirrored. rewrite Eq1, Hm, Eq2.
      rewrite (frame_nodes _ _ _ Hfr).
      * exact (Hdir eq_refl).
      * rewrite app_assoc. apply not_below_prefix. reflexivity.
    + change (n :: x :: k) with ([n] ++ x :: k). rewrite app_assoc.
      apply (Hrec (r ++ [n]) (Some ((SRC ++ r) ++ [n])) wr1 Hrn (item_path r n) Hinv1 Hkeys1
               Hret (x :: k)); [discriminate|].
      now apply kept_below_enter.
  - exfalso. exact (tidy_no_symlink f0 Htidy ((LS ++ r) ++ [n]) t Hm).
Qed.

Lemma visit_keeps_keys depth r n wr :
  tested_keys_absent wr ->
  tested_keys_absent
    (snd (visit re_match (LinkExecutor false) real crs irs
            (fun item => create_links re_compile re_match depth real (Some item))
            ((SRC ++ r) ++ [n]) wr)).
Proof.
  intros Hkeys. rewrite <- the_executor_real.
  exact (proj2 (forward_visit re_match real crs irs _ ((SRC ++ r) ++ [n])
                  (fun p => forward_create_links re_compile re_match depth real (Some p)) wr)
               Hkeys).
Qed.

Lemma loop_mirror depth r :
  mirror_spec re_compile re_match f0 args crs irs depth -> forallb plain_name r = true ->
  forall names done wr,
    NoDup names ->
    (forall n, In n names ->
       ~ In n done /\ plain_name n = true
       /\ exists m, node_at f0 ((LS ++ r) ++ [n]) = Some m) ->
    inv f0 args r done (fs wr) -> tested_keys_absent wr ->
    (forall m k, In m done -> kept_below re_match args irs r (m :: k) ->
       mirrored re_match f0 args crs (fs wr) (r ++ m :: k)) ->
    fst (for_each (map (fun n => (SRC ++ r) ++ [n]) names)
           (visit re_match (LinkExecutor false) real crs irs
              (fun item => create_links re_compile re_match depth real (Some item)))
           wr) = Return tt ->
    forall m k, In m (done ++ names) -> kept_below re_match args irs r (m :: k) ->
      mirrored re_match f0 args crs
        (fs (snd (for_each (map (fun n => (SRC ++ r) ++ [n]) names)
                    (visit re_match (LinkExecutor false) real crs irs
                       (fun item => create_links re_compile re_match depth real (Some item)))
                    wr)))
        (r ++ m :: k).
Proof.
  intros Hrec Hr. induction names as [|n names IH];
    intros done wr Hnd Hnames Hinv Hkeys Hdone.
  - cbn [map for_each]. intros _ m k Hm. rewrite app_nil_r in Hm. now apply Hdone.
  - cbn [map for_each]. rewrite bind_run.
    apply NoDup_cons in Hnd as [Hn Hnd].
    destruct (Hnames n (or_introl eq_refl)) as (Hnew & Hplain & m0 & Hm0).
    destruct (beside_coupled wr) as [Hfd Hc].
    destruct (visit_alike depth crs irs r done n m0 (beside f0 wr) wr (walk_alike depth)
                Hr Hplain Hnew Hm0 Hfd Hc Hinv) as [_ Hat].
    destruct (inv_step r done (fs wr) _ n Hinv Hat) as [Hinv' _].
    pose proof (visit_mirror depth r done n m0 wr Hrec Hr Hplain Hnew Hm0 Hinv Hkeys) as Hvis.
    pose proof (visit_keeps_keys depth r n wr Hkeys) as Hkeys1.
    destruct (visit re_match (LinkExecutor false) real crs irs _ ((SRC ++ r) ++ [n]) wr)
      as [res1 wr1].
    cbn [fst snd] in Hat, Hinv', Hvis, Hkeys1.
    destruct res1 as [[]|e]; [|discriminate].
    intros Hret m k Hm Hkept.
    assert (forall n', In n' names ->
              ~ In n' (done ++ [n]) /\ plain_name n' = true
              /\ exists m', node_at f0 ((LS ++ r) ++ [n']) = Some m') as Hnames'.
    { intros n' Hn'. destruct (Hnames n' (or_intror Hn')) as (Hd & Hp & Hm').
      split; [|split; [exact Hp|exact Hm']].
      intros Hin. apply in_app_or in Hin as [Hin|[<-|[]]]; [exact (Hd Hin)|].
      apply Hn. apply list_elem_of_In. exact Hn'. }
    apply (IH (done ++ [n]) wr1 Hnd Hnames' Hinv' Hkeys1); [|exact Hret| |exact Hkept].
    + intros m' k' Hm' Hkept'. apply in_app_or in Hm' as [Hm'|[<-|[]]].
      * apply (mirrored_same (fs wr)); [|now apply Hdone].
        destruct Hat as (_ & Hnodes & _). apply Hnodes. intros Hpre.
        rewrite app_assoc in Hpre. apply prefix_snoc_same in Hpre. subst m'. contradiction.
      * now apply Hvis.
    + rewrite <- app_assoc. exact Hm.
Qed.

Lemma walk_mirror depth : mirror_spec re_compile re_match f0 args crs irs depth.
Proof.
  induction depth as [|depth IH]; intros r path wr Hr Hpath Hinv Hkeys; [discriminate|].
  rewrite (create_links_prologue re_compile re_match depth real path wr crs irs Hkeys Hcrs Hirs).
  set (w2 := assigned (assigned wr "cl.cp_re" crs) "cl.ignore_re" irs).
  assert (tested_keys_absent w2) as Hkeys2.
  { destruct Hkeys as [H1 H2]. split; cbn; now rewrite !lookup_insert_ne. }
  assert (inv f0 args r [] (fs w2)) as Hinv2 by exact Hinv.
  rewrite bind_run. cbn [Args.source with_dry_run]. rewrite Hpath.
  unfold query. cbn [fs].
  pose proof Hinv as (Hframe & _ & _).
  change (fs w2) with (fs wr).
  destruct (source_iterdir (fs wr) r Hframe Hr) as [-> _].
  destruct (source_iterdir f0 r (frame_refl _ _) Hr) as [_ Hitems].
  destruct (iterdir f0 (SRC ++ r)) as [items|]; [|discriminate].
  rewrite (Hitems items eq_refl), the_executor_real.
  intros Hret k Hk Hkept. destruct k as [|m k]; [congruence|].
  destruct (node_at f0 (LS ++ r ++ m :: k)) as [z|] eqn:E.
  2: { unfold mirrored. now rewrite E. }
  assert (exists z', node_at f0 ((LS ++ r) ++ [m]) = Some z') as [z' Hz'].
  { destruct k as [|x k]; [exists z; now rewrite <- app_assoc|]. exists Dir.
    change (m :: x :: k) with ([m] ++ x :: k) in E. rewrite !app_assoc in E.
    apply (tidy_ancestor f0 Htidy) in E; [exact E|discriminate]. }
  apply (loop_mirror depth r IH Hr (children f0 (LS ++ r)) [] w2); try assumption.
  - apply children_nodup, tidy_nodup, Htidy.
  - intros n Hn. split; [exact (fun H => H)|]. exact (children_known f0 _ n Htidy Hn).
  - intros m' k' [].
  - cbn [app]. exact (child_listed f0 _ m z' Hz').
Qed.

(** The entries of the destination, read through paths. *)
Lemma mirror_paths depth q :
  let out := create_links re_compile re_match depth real None (boot f0) in
  fst out = Return tt ->
  q <> [] -> forallb plain_name q = true -> kept_below re_match args irs [] q ->
  match stat f0 (SRC ++ q) with
  | Some Dir => is_dir (fs (snd out)) (DST ++ q) = true
  | Some (File data) =>
      if any_match re_match crs (as_posix (SRC ++ q))
      then lstat (fs (snd out)) (DST ++ q) = Some (File data)
      else is_symlink (fs (snd out)) (DST ++ q) = true
           /\ stat (fs (snd out)) (DST ++ q) = Some (File data)
  | _ => True
  end.
Proof.
  cbv zeta. intros Hret Hq Hplain Hkept.
  pose proof (real_run_frame depth) as Hfr.
  assert (forall k, k <> [] -> kept_below re_match args irs [] k ->
            mirrored re_match f0 args crs (fs (snd (create_links re_compile re_match depth real None (boot f0)))) k)
    as Hmir.
  { intros k Hk Hkk.
    apply (walk_mirror depth [] None (boot f0) eq_refl); try assumption.
    - cbn. now rewrite app_nil_r.
    - exact destination_reached.
    - split; reflexivity. }
  set (g := fs (snd (create_links re_compile re_match depth real None (boot f0)))) in *.
  rewrite (source_stat f0 q (frame_refl _ _) Hplain).
  destruct (node_at f0 (LS ++ q)) as [z|] eqn:Hz; [|exact I].
  destruct (exists_last Hq) as (r & n & ->).
  rewrite forallb_app in Hplain. apply andb_prop in Hplain as [Hr Hn].
  cbn in Hn. rewrite andb_true_r in Hn.
  assert (forallb plain_name (r ++ [n]) = true) as Hrn
    by (rewrite forallb_app, Hr; cbn; now rewrite Hn).
  destruct (simple_app f0 DST (r ++ [n]) Hdst Hrn) as (Hsimple & Hbase & Hnames).
  rewrite (app_assoc (names_of DST)) in Hnames.
  assert (forallb plain_name (names_of DST ++ r) = true) as Hpn
    by (unfold simple in Hdst; now rewrite forallb_app, Hdst, Hr).
  assert (base_of g (DST ++ r ++ [n]) = base_of f0 DST) as Hbase'.
  { rewrite <- Hbase. unfold base_of. now rewrite (frame_cwd _ _ _ Hfr). }
  assert (base_of f0 DST ++ (names_of DST ++ r) ++ [n] = LD ++ r ++ [n]) as HL
    by (unfold loc_of; now rewrite <- !app_assoc).
  (* the directories on the way *)
  assert (dirs_upto g (base_of f0 DST) (names_of DST ++ r)) as Hdirs.
  { intros p Hp Hpre.
    assert (names_of DST `prefix_of` (names_of DST ++ r)) as Hpre' by now exists r.
    destruct (prefix_weak_total _ _ _ Hpre Hpre') as [Hcase|[p' ->]].
    - rewrite (frame_nodes _ _ _ Hfr).
      + destruct destination_reached as (_ & _ & Hd). apply Hd; [exact Hp|].
        now rewrite app_nil_r.
      + apply not_below_prefix. unfold loc_of. now apply prefix_app.
    - destruct p' as [|y p'].
      { rewrite app_nil_r. rewrite (frame_nodes _ _ _ Hfr).
        - destruct destination_reached as (_ & _ & Hd). apply Hd; [|now rewrite app_nil_r].
          now rewrite app_nil_r in Hp.
        - apply not_below_prefix. reflexivity. }
      apply prefix_app_inv in Hpre. destruct Hpre as [rest Hrest].
      assert (kept_below re_match args irs [] (y :: p')) as Hkept'.
      { intros p0 H0 Hpre0. apply Hkept; [exact H0|].
        transitivity (y :: p'); [exact Hpre0|]. exists (rest ++ [n]).
        now rewrite Hrest, <- app_assoc. }
      specialize (Hmir (y :: p') ltac:(discriminate) Hkept').
      unfold mirrored in Hmir.
      assert (node_at f0 (LS ++ y :: p') = Some Dir) as Hd.
      { rewrite Hrest, <- !app_assoc, app_assoc in Hz.
        apply (tidy_ancestor f0 Htidy) in Hz; [exact Hz|now destruct rest]. }
      rewrite Hd in Hmir. rewrite <- Hmir. f_equal. unfold loc_of. now rewrite <- app_assoc. }
  (* resolution of the target *)
  assert (forall follow,
            follow = false \/ (forall t, node_at g (LD ++ r ++ [n]) <> Some (Symlink t)) ->
            resolve g follow (DST ++ r ++ [n]) = Some (LD ++ r ++ [n])) as Hres.
  { intros follow Hf. rewrite (resolve_simple _ _ _ Hsimple), Hbase', Hnames.
    rewrite <- HL. apply namei_last; try assumption. now rewrite HL. }
  pose proof (Hmir (r ++ [n]) Hq Hkept) as Hm. unfold mirrored in Hm. rewrite Hz in Hm.
  destruct z as [data| |t]; [| |exact I].
  - destruct (any_match re_match crs (as_posix (SRC ++ r ++ [n]))).
    + unfold lstat. rewrite (Hres false (or_introl eq_refl)). exact Hm.
    + destruct Hm as (stored & Hrel & Hnode). split.
      * unfold is_symlink, lstat. rewrite (Hres false (or_introl eq_refl)). cbn.
        now rewrite Hnode.
      * unfold stat. rewrite (resolve_simple _ _ _ Hsimple), Hbase', Hnames.
        change MAXSYMLINKS with (S 39).
        rewrite (namei_through_link g 39 stored _ _ n Hpn Hn Hdirs)
          by (rewrite HL; exact Hnode).
        destruct (simple_app f0 SRC (r ++ [n]) Hsrc Hrn) as (Hssimple & _ & _).
        pose proof (loc_of_app f0 SRC (r ++ [n]) Hsrc Hrn) as Hsloc.
        assert (forallb plain_name (loc_of f0 (SRC ++ r ++ [n])) = true) as Hsplain.
        { rewrite Hsloc. exact (tidy_names f0 Htidy _ _ Hz). }
        destruct (stored_path_leads f0 (SRC ++ r ++ [n]) (DST ++ r ++ [n])
                    (names_of DST ++ r) n stored Hssimple Hsimple Hsplain Hnames Hrel)
          as (B & D & HBD & HD & Hlead).
        rewrite Hbase in Hlead. rewrite Hlead. rewrite Hsloc in HBD.
        assert (forall p, p `prefix_of` D -> node_at g (B ++ p) = node_at f0 (B ++ p)) as Hsame.
        { intros p Hp. apply (frame_nodes _ _ _ Hfr). intros Hb. apply below_prefix in Hb.
          apply (outside_source (B ++ p) (r ++ [n])); [|exact Hb].
          rewrite <- HBD. now apply prefix_app. }
        rewrite (namei_agree f0 g 39 true D B HD).
        -- pose proof (namei_tidy f0 39 true Htidy D B HD) as Ht. rewrite HBD, Hz in Ht.
           destruct (namei f0 39 true B D) as [l|] eqn:El; [|discriminate Ht].
           pose proof (namei_tidy_loc f0 39 true Htidy D B l HD El) as ->.
           cbn. rewrite (Hsame D (reflexivity D)), HBD. exact Hz.
        -- intros p _ Hp. split; [exact (Hsame p Hp)|]. apply (tidy_no_symlink f0 Htidy).
  - unfold is_dir, stat.
    rewrite (Hres true); [cbn; now rewrite Hm|].
    right. intros t. rewrite Hm. discriminate.
Qed.


Section Returns.

(** Nothing lies in the destination directory. *)
Hypothesis Hhollow : hollow f0 LD = true.

Lemma target_free l : below LD l -> node_at f0 l = None.
Proof.
  intros (k & Hk & ->). destruct (node_at f0 (LD ++ k)) as [z|] eqn:E; [|reflexivity].
  exfalso. apply node_at_In in E; [|now destruct LD, k].
  unfold hollow in Hhollow. rewrite forallb_forall in Hhollow.
  specialize (Hhollow _ E). cbn [fst] in Hhollow.
  apply orb_prop in Hhollow as [H|H].
  - apply negb_true_iff, bool_decide_eq_false in H. apply H. now exists k.
  - apply bool_decide_eq_true in H. rewrite <- (app_nil_r LD) in H at 2.
    apply app_inv_head in H. contradiction.
Qed.

Lemma visit_returns depth r done n m wr :
  return_spec re_compile re_match f0 args depth ->
  forallb plain_name r = true -> plain_name n = true -> ~ In n done ->
  node_at f0 ((LS ++ r) ++ [n]) = Some m ->
  inv f0 args r done (fs wr) -> tested_keys_absent wr ->
  (forall k, node_at f0 (LS ++ (r ++ [n]) ++ k) <> None -> length k < depth) ->
  fst (visit re_match (LinkExecutor false) real crs irs
         (fun item => create_links re_compile re_match depth real (Some item))
         ((SRC ++ r) ++ [n]) wr) = Return tt.
Proof.
  intros Hrec Hr Hn Hnew Hm Hinv Hkeys Hfuel.
  destruct (beside_coupled wr) as [Hfd Hc].
  destruct (item_sub r n Hr Hn) as (Hsub & Htarget & Hrn).
  destruct (entry_facts r done n m (beside f0 wr) wr Hr Hn Hnew Hm Hfd Hinv)
    as (_ & Hsr & (Hires & Hinode) & (Htd & Htr & _ & Hlr) & (Hres1 & Hres0 & Hnode) & Hne).
  assert (node_at f0 ((LD ++ r) ++ [n]) = None) as Hfree.
  { apply target_free. rewrite <- app_assoc. apply below_app. now destruct r. }
  rewrite Hfree in *.
  rewrite (visit_cases re_match (LinkExecutor false) real crs irs _ _ (r ++ [n]) wr Hsub).
  cbn [Args.destination with_dry_run]. rewrite Htarget.
  destruct (any_match re_match irs _); [reflexivity|].
  unfold is_dir. rewrite Hsr.
  destruct m as [data| |t].
  - unfold leaf. destruct (any_match re_match crs _).
    + cbn [copy LinkExecutor]. rewrite LinkExecutor_copy_cases.
      unfold is_dir. rewrite Htr.
      rewrite (shutil_copyfile_single _ _ _ _ Hres1
                 (inv_unshared r done (fs wr) _ Hinv (target_below r n))).
      rewrite Hires, Hinode, Hnode.
      now rewrite bool_decide_eq_false_2 by exact Hne.
    + cbn [link LinkExecutor]. rewrite LinkExecutor_link_cases, Hlr.
      rewrite bool_decide_eq_false_2 by (intros H; now apply H).
      assert ((SRC ++ r) ++ [n] <> []) as Hitem by (now destruct (SRC ++ r)).
      destruct (relative_path_returns (getcwd (fs wr)) (parent (DST ++ r ++ [n])) _ Hitem)
        as [p ->].
      unfold os_symlink. now rewrite Hres0, Hnode.
  - rewrite (item_not_destination r n Hr Hn). cbn [negb].
    cbn [mkdir LinkExecutor]. rewrite bind_run.
    destruct (mkdir_alike (beside f0 wr) wr (DST ++ r ++ [n]) ((LD ++ r) ++ [n])
                None Hc Htd Htr Hres0 Hnode)
      as (_ & Hfs & Hdir).
    pose proof (forward_executor (@LinkExecutor regex false)
                  (or_intror (ex_intro _ false eq_refl))) as (Hfwd & _ & _).
    specialize (Hfwd (DST ++ r ++ [n]) wr). cbn [mkdir LinkExecutor] in Hfwd.
    assert (fst (LinkExecutor_mkdir (DST ++ r ++ [n]) wr) = Return tt) as Hmk.
    { rewrite LinkExecutor_mkdir_cases, Htr. unfold os_mkdir. now rewrite Hres0, Hnode. }
    destruct (LinkExecutor_mkdir (DST ++ r ++ [n]) wr) as [resr wr1].
    cbn [fst snd] in Hfs, Hdir, Hfwd, Hmk. subst resr.
    apply (Hrec (r ++ [n]) (Some ((SRC ++ r) ++ [n])) wr1 Hrn (item_path r n)).
    + exact (inv_enter r done (fs wr) (fs wr1) n Hinv Hnew Hfs (Hdir eq_refl)).
    + exact (proj2 Hfwd Hkeys).
    + rewrite app_assoc. exact Hm.
    + exact Hfuel.
  - exfalso. exact (tidy_no_symlink f0 Htidy ((LS ++ r) ++ [n]) t Hm).
Qed.

Lemma loop_returns depth r :
  return_spec re_compile re_match f0 args depth -> forallb plain_name r = true ->
  (forall k, k <> [] -> node_at f0 (LS ++ r ++ k) <> None -> length k < S depth) ->
  forall names done wr,
    NoDup names ->
    (forall n, In n names ->
       ~ In n done /\ plain_name n = true
       /\ exists m, node_at f0 ((LS ++ r) ++ [n]) = Some m) ->
    inv f0 args r done (fs wr) -> tested_keys_absent wr ->
    fst (for_each (map (fun n => (SRC ++ r) ++ [n]) names)
           (visit re_match (LinkExecutor false) real crs irs
              (fun item => create_links re_compile re_match depth real (Some item)))
           wr) = Return tt.
Proof.
  intros Hrec Hr Hfuel. induction names as [|n names IH];
    intros done wr Hnd Hnames Hinv Hkeys; [reflexivity|].
  cbn [map for_each]. rewrite bind_run.
  apply NoDup_cons in Hnd as [Hn Hnd].
  destruct (Hnames n (or_introl eq_refl)) as (Hnew & Hplain & m0 & Hm0).
  destruct (beside_coupled wr) as [Hfd Hc].
  destruct (visit_alike depth crs irs r done n m0 (beside f0 wr) wr (walk_alike depth)
              Hr Hplain Hnew Hm0 Hfd Hc Hinv) as [_ Hat].
  destruct (inv_step r done (fs wr) _ n Hinv Hat) as [Hinv' _].
  pose proof (visit_keeps_keys depth r n wr Hkeys) as Hkeys1.
  assert (fst (visit re_match (LinkExecutor false) real crs irs
                 (fun item => create_links re_compile re_match depth real (Some item))
                 ((SRC ++ r) ++ [n]) wr) = Return tt) as Hvis.
  { apply (visit_returns depth r done n m0 wr Hrec Hr Hplain Hnew Hm0 Hinv Hkeys).
    intros k Hk. rewrite <- app_assoc in Hk.
    specialize (Hfuel ([n] ++ k) ltac:(discriminate) Hk). cbn in Hfuel. lia. }
  destruct (visit re_match (LinkExecutor false) real crs irs _ ((SRC ++ r) ++ [n]) wr)
    as [res1 wr1].
  cbn [fst snd] in Hat, Hinv', Hkeys1, Hvis. subst res1.
  apply (IH (done ++ [n]) wr1 Hnd); [|exact Hinv'|exact Hkeys1].
  intros n' Hn'. destruct (Hnames n' (or_intror Hn')) as (Hd & Hp & Hm').
  split; [|split; [exact Hp|exact Hm']].
  intros Hin. apply in_app_or in Hin as [Hin|[<-|[]]]; [exact (Hd Hin)|].
  apply Hn. apply list_elem_of_In. exact Hn'.
Qed.

Lemma walk_returns depth : return_spec re_compile re_match f0 args depth.
Proof.
  induction depth as [|depth IH]; intros r path wr Hr Hpath Hinv Hkeys Hdir Hfuel.
  { exfalso. specialize (Hfuel []). rewrite app_nil_r, Hdir in Hfuel.
    specialize (Hfuel ltac:(discriminate)). cbn in Hfuel. lia. }
  rewrite (create_links_prologue re_compile re_match depth real path wr crs irs Hkeys Hcrs Hirs).
  set (w2 := assigned (assigned wr "cl.cp_re" crs) "cl.ignore_re" irs).
  assert (tested_keys_absent w2) as Hkeys2.
  { destruct Hkeys as [H1 H2]. split; cbn; now rewrite !lookup_insert_ne. }
  assert (inv f0 args r [] (fs w2)) as Hinv2 by exact Hinv.
  rewrite bind_run. cbn [Args.source with_dry_run]. rewrite Hpath.
  unfold query. cbn [fs].
  pose proof Hinv as (Hframe & _ & _).
  change (fs w2) with (fs wr).
  destruct (source_iterdir (fs wr) r Hframe Hr) as [-> _].
  destruct (source_iterdir f0 r (frame_refl _ _) Hr) as [_ Hitems].
  assert (exists items, iterdir f0 (SRC ++ r) = Some items) as [items Hsome].
  { pose proof (source_stat f0 r (frame_refl _ _) Hr) as Hs. rewrite Hdir in Hs.
    unfold iterdir, listdir. unfold stat in Hs.
    destruct (resolve f0 true (SRC ++ r)) as [l|]; [|discriminate Hs]. cbn in Hs.
    rewrite Hs. cbn. eauto. }
  rewrite Hsome. rewrite (Hitems items Hsome), the_executor_real.
  apply (loop_returns depth r IH Hr) with (done := []); try assumption.
  - intros k _ Hk. apply Hfuel, Hk.
  - apply children_nodup, tidy_nodup, Htidy.
  - intros n Hn. split; [exact (fun H => H)|]. exact (children_known f0 _ n Htidy Hn).
Qed.

(** Deep enough for every entry below the source. *)
Lemma returns depth :
  shallow f0 LS (S depth) = true -> is_dir f0 SRC = true ->
  fst (create_links re_compile re_match (S depth) real None (boot f0)) = Return tt.
Proof.
  intros Hshallow Hsdir.
  apply (walk_returns (S depth) [] None (boot f0) eq_refl).
  - cbn. now rewrite app_nil_r.
  - exact destination_reached.
  - split; reflexivity.
  - rewrite app_nil_r.
    assert (stat f0 SRC = Some Dir) as Hs.
    { unfold is_dir in Hsdir. destruct (stat f0 SRC) as [[| |]|]; congruence. }
    rewrite <- (stat_tidy f0 true SRC Htidy Hsrc). exact Hs.
  - intros k Hk. cbn [app] in Hk.
    destruct (node_at f0 (LS ++ k)) as [z|] eqn:E; [|congruence].
    destruct (LS ++ k) as [|x l] eqn:El.
    + apply app_eq_nil in El as [_ ->]. cbn. lia.
    + apply node_at_In in E; [|discriminate].
      unfold shallow in Hshallow. rewrite forallb_forall in Hshallow.
      specialize (Hshallow _ E). cbn [fst] in Hshallow.
      apply orb_prop in Hshallow as [H|H].
      * apply negb_true_iff, bool_decide_eq_false in H. elim H.
        rewrite <- El. now exists k.
      * apply Nat.ltb_lt in H. rewrite <- El, length_app in H. lia.
Qed.

End Returns.

End Mirror.

End DryRunPreview.

(** X17.  The run changes nothing outside the destination.  In a file
    system without symbolic links in which no name at or below the
    destination is one of several names of a file (no hard link into the
    destination), for a source and a destination that are written
    without [..] and do not lie inside one another, with the destination
    directory there and symbolic links asked for: every location that is
    not strictly below the destination directory holds after the run
    what it held before, the source tree included. *)
Theorem real_run_stays_below_destination {regex : Type}
    (re_compile : string -> option regex) (re_match : regex -> string -> bool)
    (depth : nat) (args : Args.Namespace) (f : FS) (l : loc) :
  tidy f = true ->
  unshared f (loc_of f (Args.destination args)) = true ->
  simple (Args.source args) = true ->
  simple (Args.destination args) = true ->
  Args.hard_links args = false ->
  apart (loc_of f (Args.source args)) (loc_of f (Args.destination args)) = true ->
  is_dir f (Args.destination args) = true ->
  ~ below (loc_of f (Args.destination args)) l ->
  node_at
    (fs (snd (create_links re_compile re_match depth (with_dry_run false args) None (boot f))))
    l
  = node_at f l.
Proof.
  intros Htidy Hun Hsrc Hdst Hsoft Hapart Hdest Hl.
  exact (frame_nodes _ _ _
           (real_run_frame re_compile re_match f args Htidy Hun Hsrc Hdst Hsoft Hapart Hdest
              depth)
           l Hl).
Qed.

(** X20.  The run mirrors the source.  Under the conditions of X17 (no
    symbolic link in the file system, no hard link into the destination,
    source and destination without [..] and apart, the destination
    directory there, symbolic links asked for), when the patterns
    compile and [create_links] returns: for every path [q]
    of plain names below the source such that neither the entry
    [source/q] nor a directory above it (below the source) matches an
    ignore pattern,
    - if [source/q] is a directory, [destination/q] is a directory;
    - if it is a regular file whose path matches a copy pattern,
      [destination/q] is a regular file with the same data;
    - if it is another regular file, [destination/q] is a symbolic link,
      and following it leads to a regular file with the data of
      [source/q]. *)
Theorem run_mirrors_the_source {regex : Type}
    (re_compile : string -> option regex) (re_match : regex -> string -> bool)
    (depth : nat) (args : Args.Namespace) (f : FS)
    (crs irs : list regex) (q : list string) :
  tidy f = true ->
  unshared f (loc_of f (Args.destination args)) = true ->
  simple (Args.source args) = true ->
  simple (Args.destination args) = true ->
  Args.hard_links args = false ->
  apart (loc_of f (Args.source args)) (loc_of f (Args.destination args)) = true ->
  is_dir f (Args.destination args) = true ->
  mapM re_compile (concat (Args.copy args) ++ Args.copy_list_file args) = Some crs ->
  mapM re_compile (concat (Args.ignore args) ++ Args.ignore_list_file args) = Some irs ->
  let out := create_links re_compile re_match depth (with_dry_run false args) None (boot f) in
  fst out = Return tt ->
  q <> [] -> forallb plain_name q = true ->
  (forall p, p <> [] -> p `prefix_of` q ->
     any_match re_match irs (as_posix (Args.source args ++ p)) = false) ->
  match stat f (Args.source args ++ q) with
  | Some Dir => is_dir (fs (snd out)) (Args.destination args ++ q) = true
  | Some (File data) =>
      if any_match re_match crs (as_posix (Args.source args ++ q))
      then lstat (fs (snd out)) (Args.destination args ++ q) = Some (File data)
      else is_symlink (fs (snd out)) (Args.destination args ++ q) = true
           /\ stat (fs (snd out)) (Args.destination args ++ q) = Some (File data)
  | _ => True
  end.
Proof.
  intros Htidy Hun Hsrc Hdst Hsoft Hapart Hdest Hcrs Hirs out Hret Hq Hplain Hkept.
  exact (mirror_paths re_compile re_match f args Htidy Hun Hsrc Hdst Hsoft Hapart Hdest
           crs irs Hcrs Hirs depth q Hret Hq Hplain Hkept).
Qed.

(** X21.  On an empty destination the run completes.  Under the
    conditions of X17, when the source is a directory, nothing lies in
    the destination directory, the patterns compile, and the bound on the
    nesting of calls exceeds the depth of the tree below the source
    (every entry at or below the source lies less than [S depth] names
    below it; entries elsewhere are not bounded): [create_links] returns,
    without a conflict and without any other exception; and so does the
    dry run. *)
Theorem run_returns_on_empty_destination {regex : Type}
    (re_compile : string -> option regex) (re_match : regex -> string -> bool)
    (depth : nat) (args : Args.Namespace) (f : FS) (crs irs : list regex) :
  tidy f = true ->
  unshared f (loc_of f (Args.destination args)) = true ->
  simple (Args.source args) = true ->
  simple (Args.destination args) = true ->
  Args.hard_links args = false ->
  apart (loc_of f (Args.source args)) (loc_of f (Args.destination args)) = true ->
  is_dir f (Args.destination args) = true ->
  is_dir f (Args.source args) = true ->
  hollow f (loc_of f (Args.destination args)) = true ->
  shallow f (loc_of f (Args.source args)) (S depth) = true ->
  mapM re_compile (concat (Args.copy args) ++ Args.copy_list_file args) = Some crs ->
  mapM re_compile (concat (Args.ignore args) ++ Args.ignore_list_file args) = Some irs ->
  fst (create_links re_compile re_match (S depth) (with_dry_run false args) None (boot f))
  = Return tt
  /\ fst (create_links re_compile re_match (S depth) (with_dry_run true args) None (boot f))
     = Return tt.
Proof.
  intros Htidy Hun Hsrc Hdst Hsoft Hapart Hdest Hsdir Hhollow Hshallow Hcrs Hirs.
  pose proof (returns re_compile re_match f args Htidy Hun Hsrc Hdst Hsoft Hapart Hdest
                crs irs Hcrs Hirs Hhollow depth Hshallow Hsdir) as Hret.
  split; [exact Hret|].
  destruct (preview re_compile re_match f args Htidy Hun Hsrc Hdst Hsoft Hapart Hdest
              (S depth))
    as [Heq _].
  rewrite Heq. exact Hret.
Qed.

Lemma real_run_stays_below_destination_witness :
  ~ below (loc_of mirror ["out"]) ["w"; "in"; "g"]
  /\ node_at
       (fs (snd (Mini.create_links 10 (with_dry_run false mirror_args) None (boot mirror))))
       ["w"; "in"; "g"]
     = node_at mirror ["w"; "in"; "g"].
Proof.
  assert (~ below (loc_of mirror ["out"]) ["w"; "in"; "g"]) as H.
  { intros (k & _ & E). discriminate E. }
  split; [exact H|].
  apply (real_run_stays_below_destination Mini.compile Mini.matches 10 mirror_args mirror
           ["w"; "in"; "g"]); try reflexivity.
  exact H.
Defined.

Lemma run_mirrors_the_source_witness :
  let out := Mini.create_links 10 (with_dry_run false mirror_args) None (boot mirror) in
  (is_symlink (fs (snd out)) ["out"; "a"; "f"] = true
   /\ stat (fs (snd out)) ["out"; "a"; "f"] = Some (File "1"))
  /\ lstat (fs (snd out)) ["out"; "g"] = Some (File "2").
Proof.
  cbv zeta. split.
  - apply (run_mirrors_the_source Mini.compile Mini.matches 10 mirror_args mirror
             [[(Mini.Any, true); (Mini.Lit "g", false)]]
             [[(Mini.Any, true); (Mini.Lit "s", false); (Mini.Lit "k", false);
               (Mini.Lit "i", false); (Mini.Lit "p", false)]]
             ["a"; "f"]); try reflexivity; [discriminate|].
    intros p Hp [k Hk]. destruct p as [|x [|y [|z p]]]; try discriminate Hk.
    + now elim Hp.
    + injection Hk as <- _. reflexivity.
    + injection Hk as <- <- _. reflexivity.
  - apply (run_mirrors_the_source Mini.compile Mini.matches 10 mirror_args mirror
             [[(Mini.Any, true); (Mini.Lit "g", false)]]
             [[(Mini.Any, true); (Mini.Lit "s", false); (Mini.Lit "k", false);
               (Mini.Lit "i", false); (Mini.Lit "p", false)]]
             ["g"]); try reflexivity; [discriminate|].
    intros p Hp [k Hk]. destruct p as [|x [|y p]]; try discriminate Hk.
    + now elim Hp.
    + injection Hk as <- _. reflexivity.
Defined.

Lemma run_returns_on_empty_destination_witness :
  fst (Mini.create_links 10 (with_dry_run false mirror_args) None (boot mirror)) = Return tt
  /\ fst (Mini.create_links 10 (with_dry_run true mirror_args) None (boot mirror)) = Return tt.
Proof.
  apply (run_returns_on_empty_destination Mini.compile Mini.matches 9 mirror_args mirror
           [[(Mini.Any, true); (Mini.Lit "g", false)]]
           [[(Mini.Any, true); (Mini.Lit "s", false); (Mini.Lit "k", false);
             (Mini.Lit "i", false); (Mini.Lit "p", false)]]); reflexivity.
Defined.

(* ===================================================================== *)
(** * What a dry run changes, and what [main] catches *)
(* ===================================================================== *)

Create HintDb quiet.
Create HintDb loud.

Section QuietFacts.

Context {regex : Type}.
Variable re_compile : string -> option regex.
Variable re_match : regex -> string -> bool.
Implicit Types (w : World regex) (args : Args.Namespace).

Lemma quiet_bind {A B} (m : M regex A) (k : A -> M regex B) :
  quiet regex m -> (forall a, quiet regex (k a)) -> quiet regex (m ≫= k).
Proof.
  intros Hm Hk w. unfold mbind, M_bind. specialize (Hm w).
  destruct (m w) as [[a|e] w']; [|exact Hm].
  destruct (Hk a w') as [H1 H2]. cbn [snd] in Hm. destruct Hm as [H3 H4].
  split; congruence.
Qed.

Lemma quiet_same {A} (r : result A) (g : World regex -> World regex) :
  (forall w, fs (g w) = fs w /\ history (g w) = history w) ->
  quiet regex (fun w => (r, g w)).
Proof. intros H w. exact (H w). Qed.

Lemma quiet_ret {A} (a : A) : quiet regex (mret a : M regex A).
Proof. now intros w. Qed.

Lemma quiet_raise {A} e : quiet regex (raise e : M regex A).
Proof. now intros w. Qed.

Lemma quiet_lift {A} (r : result A) : quiet regex (lift r : M regex A).
Proof. now intros w. Qed.

Lemma quiet_query {A} (q : FS -> A) : quiet regex (query q : M regex A).
Proof. now intros w. Qed.

Lemma quiet_print line : quiet regex (print line : M regex unit).
Proof. now intros w. Qed.

Lemma quiet_cache_get : quiet regex (cache_get : M regex _).
Proof. now intros w. Qed.

Lemma quiet_cache_set key value : quiet regex (cache_set key value : M regex unit).
Proof. now intros w. Qed.

Lemma quiet_if {A} (b : bool) (m1 m2 : M regex A) :
  quiet regex m1 -> quiet regex m2 -> quiet regex (if b then m1 else m2).
Proof. now destruct b. Qed.

#[local] Hint Resolve quiet_ret quiet_raise quiet_lift quiet_query quiet_print
  quiet_cache_get quiet_cache_set : quiet.

Ltac quiet :=
  repeat match goal with
    | |- quiet _ (mbind _ _) => apply quiet_bind; [|intros ?]
    | |- quiet _ (if _ then _ else _) => apply quiet_if
    | |- quiet _ _ => solve [auto with quiet]
    end.

Lemma quiet_DryRunExecutor :
  (forall path, quiet regex (mkdir DryRunExecutor path))
  /\ (forall src target, quiet regex (link DryRunExecutor src target))
  /\ (forall src target, quiet regex (copy DryRunExecutor src target)).
Proof.
  (split; [|split]); intros; cbn [mkdir link copy DryRunExecutor].
  - unfold DryRunExecutor_mkdir. quiet.
  - unfold DryRunExecutor_link. quiet.
  - unfold DryRunExecutor_copy. quiet.
Qed.

Lemma quiet_for_each {A} (l : list A) (body : A -> M regex unit) :
  (forall x, quiet regex (body x)) -> quiet regex (for_each l body).
Proof.
  intros Hb. induction l as [|x l IH]; cbn [for_each]; [apply quiet_ret|].
  apply quiet_bind; auto.
Qed.

Lemma quiet_compile_all patterns : quiet regex (compile_all re_compile patterns).
Proof. unfold compile_all. destruct (mapM re_compile patterns); auto with quiet. Qed.

Lemma quiet_cached_copy args : quiet regex (cached_copy_files_re re_compile args).
Proof.
  unfold cached_copy_files_re. apply quiet_bind; [auto with quiet|]. intros c.
  destruct (c !! "cl.cp"); [auto with quiet|].
  apply quiet_bind; [apply quiet_compile_all|]. intros l. quiet.
Qed.

Lemma quiet_cached_ignore args : quiet regex (cached_ignore_files_re re_compile args).
Proof.
  unfold cached_ignore_files_re. apply quiet_bind; [auto with quiet|]. intros c.
  destruct (c !! "cl.ignore"); [auto with quiet|].
  apply quiet_bind; [apply quiet_compile_all|]. intros l. quiet.
Qed.

Lemma quiet_visit args crs irs recurse item :
  (forall p, quiet regex (recurse p)) ->
  quiet regex (visit re_match DryRunExecutor args crs irs recurse item).
Proof.
  intros Hrec. destruct quiet_DryRunExecutor as (Hm & Hl & Hc).
  unfold visit, leaf. quiet; auto.
Qed.

Lemma quiet_create_links depth : forall args path,
  Args.dry_run args = true ->
  quiet regex (create_links re_compile re_match depth args path).
Proof.
  induction depth as [|depth IH]; intros args path Hdry; cbn [create_links];
    [apply quiet_raise|].
  apply quiet_bind; [apply quiet_cached_copy|]. intros crs.
  apply quiet_bind; [apply quiet_cached_ignore|]. intros irs.
  apply quiet_bind; [auto with quiet|]. intros [items|]; [|apply quiet_raise].
  apply quiet_for_each. intros item. unfold the_executor. rewrite Hdry.
  apply quiet_visit. intros p. now apply IH.
Qed.

(** X15. With [--dry-run], [create_links] leaves the file system as it
    found it, whatever the tree, the patterns and the outcome. *)
Theorem dry_run_changes_nothing depth args path w :
  Args.dry_run args = true ->
  let w' := snd (create_links re_compile re_match depth args path w) in
  fs w' = fs w /\ history w' = history w.
Proof. intros Hdry. exact (quiet_create_links depth args path Hdry w). Qed.

End QuietFacts.

(** ** The recorded actions are the changes made *)

Section ReplayFacts.

Context {regex : Type}.
Variable re_compile : string -> option regex.
Variable re_match : regex -> string -> bool.
Implicit Types (w : World regex) (args : Args.Namespace).

Lemma perform_all_app hard acts1 : forall f acts2,
  perform_all hard f (acts1 ++ acts2)
  = match perform_all hard f acts1 with
    | Some f' => perform_all hard f' acts2
    | None => None
    end.
Proof.
  induction acts1 as [|a acts1 IH]; intros f acts2; cbn [app perform_all]; [reflexivity|].
  destruct (perform hard f a); [apply IH|reflexivity].
Qed.

Lemma replays_quiet hard {A} (m : M regex A) : quiet regex m -> replays regex hard m.
Proof.
  intros H w. destruct (H w) as [Hf Hh]. exists []. rewrite app_nil_r.
  split; [exact Hh|]. cbn [perform_all]. now rewrite Hf.
Qed.

Lemma replays_bind hard {A B} (m : M regex A) (k : A -> M regex B) :
  replays regex hard m -> (forall a, replays regex hard (k a)) ->
  replays regex hard (m ≫= k).
Proof.
  intros Hm Hk w. unfold mbind, M_bind. specialize (Hm w).
  destruct (m w) as [[a|e] w1]; [|exact Hm].
  cbn [snd] in Hm. destruct Hm as (acts1 & Hh1 & Hp1).
  destruct (Hk a w1) as (acts2 & Hh2 & Hp2).
  exists (acts1 ++ acts2). split.
  - rewrite Hh2, Hh1. now rewrite app_assoc.
  - rewrite perform_all_app, Hp1. exact Hp2.
Qed.

Lemma replays_still hard {A} (r : result A) w w' :
  fs w' = fs w -> history w' = history w ->
  exists acts, history (snd (r, w')) = history w ++ acts
               /\ perform_all hard (fs w) acts = Some (fs (snd (r, w'))).
Proof.
  intros Hf Hh. exists []. cbn [snd perform_all]. now rewrite app_nil_r, Hf, Hh.
Qed.

Lemma replays_done hard w a f' :
  perform hard (fs w) a = Some f' ->
  exists acts, history (snd (Return tt, logged (with_fs w f') a)) = history w ++ acts
               /\ perform_all hard (fs w) acts
                  = Some (fs (snd (Return tt, logged (with_fs w f') a))).
Proof.
  intros H. exists [a]. cbn [snd perform_all logged with_fs fs history].
  now rewrite H.
Qed.

Lemma replays_LinkExecutor hard :
  (forall path, replays regex hard (mkdir (LinkExecutor hard) path))
  /\ (forall src target, replays regex hard (link (LinkExecutor hard) src target))
  /\ (forall src target, replays regex hard (copy (LinkExecutor hard) src target)).
Proof.
  (split; [|split]); intros; intros w; cbn [mkdir link copy LinkExecutor].
  - rewrite LinkExecutor_mkdir_cases.
    destruct (stat (fs w) path) as [[]|]; try (now apply replays_still).
    destruct (os_mkdir (fs w) path) eqn:E;
      [now apply replays_done|now apply replays_still].
  - rewrite LinkExecutor_link_cases.
    case_bool_decide as Htaken; [now apply replays_still|].
    assert (lstat (fs w) target = None) as Hfree
      by (destruct (lstat (fs w) target); [elim Htaken; discriminate|reflexivity]).
    destruct (relative_path _ _ _) as [src'|e] eqn:E; [|now apply replays_still].
    destruct hard.
    + rewrite (os_link_missing _ _ _ Hfree). now apply replays_still.
    + destruct (os_symlink (fs w) src' target) eqn:El; [|now apply replays_still].
      apply replays_done. cbn [perform]. now rewrite E.
  - rewrite LinkExecutor_copy_cases.
    destruct (is_dir (fs w) target); [now apply replays_still|].
    destruct (shutil_copyfile (fs w) src target) eqn:E;
      [now apply replays_done|now apply replays_still].
Qed.

Lemma replays_for_each hard {A} (l : list A) (body : A -> M regex unit) :
  (forall x, replays regex hard (body x)) -> replays regex hard (for_each l body).
Proof.
  intros Hb. induction l as [|x l IH]; cbn [for_each].
  - apply replays_quiet, quiet_ret.
  - apply replays_bind; auto.
Qed.

Lemma replays_visit hard args crs irs recurse item :
  (forall p, replays regex hard (recurse p)) ->
  replays regex hard (visit re_match (LinkExecutor hard) args crs irs recurse item).
Proof.
  intros Hrec. destruct (replays_LinkExecutor hard) as (Hm & Hl & Hc).
  unfold visit, leaf.
  apply replays_bind; [apply replays_quiet, quiet_lift|]. intros sub.
  destruct (any_match re_match irs (as_posix item)); [apply replays_quiet, quiet_ret|].
  apply replays_bind; [apply replays_quiet, quiet_query|]. intros [|].
  - destruct (negb _); [|apply replays_quiet, quiet_ret].
    apply replays_bind; [apply Hm|]. intros _. apply Hrec.
  - destruct (any_match re_match crs (as_posix item)); [apply Hc|apply Hl].
Qed.

(** Whatever the tree and the outcome, the file system that a run leaves
    is the one it found with the recorded actions made in order. *)
Lemma replays_create_links hard depth : forall args path,
  Args.dry_run args = false -> Args.hard_links args = hard ->
  replays regex hard (create_links re_compile re_match depth args path).
Proof.
  induction depth as [|depth IH]; intros args path Hdry Hhard; cbn [create_links];
    [apply replays_quiet, quiet_raise|].
  apply replays_bind; [apply replays_quiet, quiet_cached_copy|]. intros crs.
  apply replays_bind; [apply replays_quiet, quiet_cached_ignore|]. intros irs.
  apply replays_bind; [apply replays_quiet, quiet_query|].
  intros [items|]; [|apply replays_quiet, quiet_raise].
  apply replays_for_each. intros item. unfold the_executor. rewrite Hdry, Hhard.
  apply replays_visit. intros p. now apply IH.
Qed.

End ReplayFacts.



Section LoudFacts.

Context {regex : Type}.
Variable re_compile : string -> option regex.
Variable re_match : regex -> string -> bool.
Implicit Types (w : World regex) (args : Args.Namespace).

Lemma loud_bind {A B} (m : M regex A) (k : A -> M regex B) :
  loud regex m -> (forall a, loud regex (k a)) -> loud regex (m ≫= k).
Proof.
  intros Hm Hk w e. unfold mbind, M_bind. specialize (Hm w e).
  destruct (m w) as [[a|e'] w']; [apply Hk|].
  cbn [fst snd] in *. intros [= ->] Hc. now apply Hm.
Qed.

Lemma loud_calm {A} (m : M regex A) :
  (forall w e, fst (m w) = Raise e -> is_conflict e = false) -> loud regex m.
Proof. intros H w e He Hc. rewrite (H w e He) in Hc. discriminate. Qed.

Lemma loud_ret {A} (a : A) : loud regex (mret a : M regex A).
Proof. apply loud_calm. discriminate. Qed.

Lemma loud_query {A} (q : FS -> A) : loud regex (query q : M regex A).
Proof. apply loud_calm. discriminate. Qed.

Lemma loud_print line : loud regex (print line : M regex unit).
Proof. apply loud_calm. discriminate. Qed.

Lemma loud_completed a : loud regex (completed a : M regex unit).
Proof. apply loud_calm. discriminate. Qed.

Lemma loud_cache_get : loud regex (cache_get : M regex _).
Proof. apply loud_calm. discriminate. Qed.

Lemma loud_cache_set key value : loud regex (cache_set key value : M regex unit).
Proof. apply loud_calm. discriminate. Qed.

Lemma loud_syscall c : loud regex (syscall c : M regex unit).
Proof.
  apply loud_calm. intros w e. unfold syscall. destruct (c (fs w)); [discriminate|].
  now intros [= <-].
Qed.

Lemma loud_raise {A} e : is_conflict e = false -> loud regex (raise e : M regex A).
Proof. intros H. apply loud_calm. now intros w e' [= <-]. Qed.

Lemma loud_remove_front_dir root item :
  loud regex (lift (remove_front_dir root item) : M regex Path).
Proof.
  apply loud_calm. intros w e. unfold lift, remove_front_dir. cbn [fst].
  destruct (strip_common root item) as [a [|r0 b]]; [now intros [= <-]|].
  destruct (String.eqb r0 "/"); discriminate.
Qed.

Lemma loud_relative_path here src dest :
  loud regex (lift (relative_path here src dest) : M regex Path).
Proof.
  apply loud_calm. intros w e. unfold lift, relative_path. cbn [fst].
  destruct dest as [|d0 dest]; [now intros [= <-]|].
  destruct (String.eqb d0 "/"); [discriminate|]. now destruct (strip_common _ _).
Qed.

Lemma loud_refusal {A} line e :
  error_line line = true -> loud regex (print line;; raise e : M regex A).
Proof.
  intros H w e' _ _. exists (stdout w), line. split; [reflexivity|exact H].
Qed.

Lemma loud_if {A} (b : bool) (m1 m2 : M regex A) :
  loud regex m1 -> loud regex m2 -> loud regex (if b then m1 else m2).
Proof. now destruct b. Qed.

#[local] Hint Resolve loud_ret loud_query loud_print loud_completed loud_cache_get
  loud_cache_set loud_syscall loud_remove_front_dir loud_relative_path : loud.

Ltac loud :=
  repeat match goal with
    | |- loud _ (mbind (fun _ => raise _) (print _)) => apply loud_refusal; reflexivity
    | |- loud _ (mbind _ _) => apply loud_bind; [|intros ?]
    | |- loud _ (if _ then _ else _) => apply loud_if
    | |- loud _ _ => solve [auto with loud]
    end.

Lemma loud_executor (e : Executor regex) :
  e = DryRunExecutor \/ (exists hard, e = LinkExecutor hard) ->
  (forall path, loud regex (mkdir e path))
  /\ (forall src target, loud regex (link e src target))
  /\ (forall src target, loud regex (copy e src target)).
Proof.
  intros [->|[hard ->]]; (split; [|split]); intros;
    cbn [mkdir link copy DryRunExecutor LinkExecutor].
  - unfold DryRunExecutor_mkdir. loud.
  - unfold DryRunExecutor_link. loud.
  - unfold DryRunExecutor_copy. loud.
  - unfold LinkExecutor_mkdir, Path_mkdir. loud.
  - unfold LinkExecutor_link, link_to, symlink_to. loud.
  - unfold LinkExecutor_copy. loud.
Qed.

Lemma loud_prepare_destination dest : loud regex (prepare_destination dest).
Proof. unfold prepare_destination, Path_mkdir. loud. Qed.

Lemma loud_for_each {A} (l : list A) (body : A -> M regex unit) :
  (forall x, loud regex (body x)) -> loud regex (for_each l body).
Proof.
  intros Hb. induction l as [|x l IH]; cbn [for_each]; [apply loud_ret|].
  apply loud_bind; auto.
Qed.

Lemma loud_compile_all patterns : loud regex (compile_all re_compile patterns).
Proof.
  unfold compile_all. destruct (mapM re_compile patterns);
    [apply loud_ret|now apply loud_raise].
Qed.

Lemma loud_cached_copy args : loud regex (cached_copy_files_re re_compile args).
Proof.
  unfold cached_copy_files_re. apply loud_bind; [auto with loud|]. intros c.
  destruct (c !! "cl.cp"); [auto with loud|].
  apply loud_bind; [apply loud_compile_all|]. intros l. loud.
Qed.

Lemma loud_cached_ignore args : loud regex (cached_ignore_files_re re_compile args).
Proof.
  unfold cached_ignore_files_re. apply loud_bind; [auto with loud|]. intros c.
  destruct (c !! "cl.ignore"); [auto with loud|].
  apply loud_bind; [apply loud_compile_all|]. intros l. loud.
Qed.

Lemma loud_visit args crs irs recurse item :
  (forall p, loud regex (recurse p)) ->
  loud regex (visit re_match (the_executor args) args crs irs recurse item).
Proof.
  intros Hrec.
  destruct (loud_executor (the_executor args)) as (Hm & Hl & Hc).
  { unfold the_executor. destruct (Args.dry_run args); eauto. }
  unfold visit, leaf. loud; auto.
Qed.

Lemma loud_create_links depth : forall args path,
  loud regex (create_links re_compile re_match depth args path).
Proof.
  induction depth as [|depth IH]; intros args path; cbn [create_links];
    [now apply loud_raise|].
  apply loud_bind; [apply loud_cached_copy|]. intros crs.
  apply loud_bind; [apply loud_cached_ignore|]. intros irs.
  apply loud_bind; [auto with loud|]. intros [items|]; [|now apply loud_raise].
  apply loud_for_each. intros item. apply loud_visit. intros p. apply IH.
Qed.

Lemma loud_main_body depth args :
  loud regex (prepare_destination (Args.destination args);;
              create_links re_compile re_match depth args None).
Proof.
  apply loud_bind; [apply loud_prepare_destination|]. intros _. apply loud_create_links.
Qed.

(** X18. [main] lets no conflict escape: when [prepare_destination] or
    [create_links] raises one, [main] returns normally, and the last two
    lines printed are the [ERROR] line of the statement that raised and
    the advice to remove the entry the exception names.  Anything else
    (a return, or another exception) is passed on as it is. *)
Theorem main_turns_conflicts_into_advice depth args w :
  let body := (prepare_destination (Args.destination args);;
               create_links re_compile re_match depth args None) w in
  let out := main re_compile re_match depth args w in
  match fst body with
  | Raise (FileReplacementError a) =>
      fst out = Return tt
      /\ exists before line,
           stdout (snd out) = before ++ [line; "Remove the '" +:+ a +:+ "' file."]
           /\ error_line line = true
  | Raise (DirectoryReplacementError a) =>
      fst out = Return tt
      /\ exists before line,
           stdout (snd out) = before ++ [line; "Remove the '" +:+ a +:+ "' directory."]
           /\ error_line line = true
  | _ => out = body
  end.
Proof.
  cbv zeta. pose proof (loud_main_body depth args w) as Hl. unfold main.
  destruct ((prepare_destination (Args.destination args);;
             create_links re_compile re_match depth args None) w) as [[[]|e] w'];
    [reflexivity|].
  cbn [fst snd] in *.
  destruct e as [| | | |a|a]; try reflexivity.
  - destruct (Hl _ eq_refl eq_refl) as (before & line & Hout & Hline).
    split; [reflexivity|]. exists before, line. split; [|exact Hline].
    cbn [print printed stdout snd]. rewrite Hout. now rewrite <- app_assoc.
  - destruct (Hl _ eq_refl eq_refl) as (before & line & Hout & Hline).
    split; [reflexivity|]. exists before, line. split; [|exact Hline].
    cbn [print printed stdout snd]. rewrite Hout. now rewrite <- app_assoc.
Qed.

(** X19. A dry run is not free of effects: [main] calls
    [prepare_destination] before the walk and whatever the flag, so the
    destination directory is made when nothing has its name.  That is the
    only change a dry run makes. *)
Theorem dry_run_makes_the_destination depth args w :
  Args.dry_run args = true ->
  fs (snd (main re_compile re_match depth args w)) =
  match stat (fs w) (Args.destination args) with
  | None => default (fs w) (os_mkdir (fs w) (Args.destination args))
  | Some _ => fs w
  end.
Proof.
  intros Hdry.
  assert (forall w0, fs (snd (main re_compile re_match depth args w0)) =
                     fs (snd ((prepare_destination (Args.destination args);;
                               create_links re_compile re_match depth args None) w0))) as ->.
  { intros w0. unfold main.
    destruct ((prepare_destination (Args.destination args);;
               create_links re_compile re_match depth args None) w0) as [[[]|e] w'];
      [reflexivity|].
    now destruct e. }
  unfold mbind, M_bind. rewrite prepare_destination_cases.
  pose proof (quiet_create_links re_compile re_match depth args None Hdry) as Hq.
  destruct (stat (fs w) (Args.destination args)) as [[d| |t]|]; try reflexivity.
  - apply Hq.
  - destruct (os_mkdir (fs w) (Args.destination args)) as [f'|]; [|reflexivity].
    rewrite (proj1 (Hq _)). reflexivity.
Qed.

End LoudFacts.

Section PatternFacts.

Context {regex : Type}.
Variable re_compile : string -> option regex.
Variable re_match : regex -> string -> bool.
Implicit Types (w : World regex) (args : Args.Namespace).

(** X14. The patterns are compiled before the directory is listed: a
    pattern that [re.compile] rejects ends the first call with [re.error]
    before anything is printed, made, linked or copied. *)
Theorem invalid_pattern_stops_the_run depth args path w :
  tested_keys_absent w ->
  mapM re_compile (concat (Args.copy args) ++ Args.copy_list_file args) = None
  \/ mapM re_compile (concat (Args.ignore args) ++ Args.ignore_list_file args) = None ->
  let out := create_links re_compile re_match (S depth) args path w in
  fst out = Raise re_error
  /\ fs (snd out) = fs w /\ stdout (snd out) = stdout w /\ history (snd out) = history w.
Proof.
  intros [Hcp Hig] H. cbv zeta. cbn [create_links].
  unfold cached_copy_files_re, cached_ignore_files_re, compile_all.
  cbv [mbind M_bind mret M_ret cache_get cache_set raise]. rewrite Hcp.
  destruct (mapM re_compile (concat (Args.copy args) ++ Args.copy_list_file args)) as [cp|].
  - destruct H as [H|H]; [discriminate|].
    cbn [cache assigned]. rewrite lookup_insert_ne by discriminate. rewrite Hig, H.
    now repeat split.
  - now repeat split.
Qed.

End PatternFacts.

Lemma invalid_pattern_stops_the_run_witness :
  let args := Args.mkArgs ["in"] ["out"] false [] [] [["*"]] [] false in
  let out := Mini.create_links 10 args None (boot mirror) in
  fst out = Raise re_error
  /\ fs (snd out) = mirror /\ stdout (snd out) = [] /\ history (snd out) = [].
Proof.
  cbv zeta.
  apply (invalid_pattern_stops_the_run Mini.compile Mini.matches 9
           (Args.mkArgs ["in"] ["out"] false [] [] [["*"]] [] false) None (boot mirror)).
  - split; reflexivity.
  - right. reflexivity.
Defined.

Lemma dry_run_changes_nothing_witness :
  let args := with_dry_run true mirror_args in
  let w' := snd (Mini.create_links 10 args None (boot mirror)) in
  fs w' = mirror /\ history w' = [].
Proof.
  cbv zeta.
  apply (dry_run_changes_nothing Mini.compile Mini.matches 10
           (with_dry_run true mirror_args) None (boot mirror)).
  reflexivity.
Defined.

Lemma dry_run_makes_the_destination_witness :
  let args := with_dry_run true mirror_args in
  fs (snd (main Mini.compile Mini.matches 10 args (boot fixture))) = with_out fixture.
Proof.
  cbv zeta.
  rewrite (dry_run_makes_the_destination Mini.compile Mini.matches 10
             (with_dry_run true mirror_args) (boot fixture) eq_refl).
  reflexivity.
Defined.
